(** * Road network of San Juan de Lurigancho: adjacency, components, sampling

    A shallow embedding of [CódigoCompletoTB1.py] and the properties of its
    distance-time converter, adjacency builder, component finder, graph
    reducer and subgraph sampler.

    Conventions of the embedding.
    - Node identifiers (OSM ids, Python [int]) are [Z].
    - Lengths and times are Python [float]s, that is binary64 numbers.
      A finite double is modelled by the rational it denotes, and every
      float operation of the script by the exact operation followed by
      [redondear], the rounding to the nearest double, ties to even
      ([Doble]); [round(x, 2)] is the double nearest to the hundredth
      nearest to [x].  Infinities and NaN are left out: OSM lengths are
      finite and the converter does not overflow ([sin_desbordamiento]).
      An [int] used as a float is first rounded to a double; beyond the
      range of doubles that is an [OverflowError].  Module [Binario64]
      runs the converter on the primitive floats of the machine, to
      compare the two on concrete lengths.
    - A Python [dict] is a [gmap], a Python [set] a [gset].  A [KeyError]
      or a [TypeError] ends the script: it is [None] in the [option] monad.
    - The iteration order of a Python [set] is not fixed by the language.
      The discovery loop, whose result depends on it, takes the order as a
      list; so does the sampler for the order of the keys of the
      dictionary.  The loops of the reduction build dictionaries that do
      not depend on the order.
    - [random.choice] and [random.shuffle] are the operations of a class
      [Azar] over an explicit generator state. *)

From Stdlib Require Import ZArith QArith Qround Qabs Qpower Lia Lqa.
From Stdlib Require Import Uint63 PrimFloat SpecFloat FloatOps.
From stdpp Require Import base option list sorting strings pretty gmap fin_sets fin_maps.

Local Open Scope Z_scope.
Set Warnings "-register-all,-clear-no-such-hyp".

(** ** 1. Distance-time converter *)

(** The finite binary64 numbers, as the rationals they denote. *)
Module Doble.

(** Nearest integer to a rational, ties to the even neighbour. *)
Definition redondeo_par (x : Q) : Z :=
  let f := Qfloor x in
  match Qcompare (x - inject_Z f) (1 # 2) with
  | Lt => f
  | Gt => f + 1
  | Eq => if Z.even f then f else f + 1
  end.

(** The integer part of the binary logarithm of a positive rational. *)
Definition piso_log2 (x : Q) : Z :=
  let k := Z.log2 (Qnum x) - Z.log2 (Z.pos (Qden x)) in
  if Qle_bool (2 ^ k) x then k else k - 1.

(** The exponent of the unit in the last place of the doubles around
    [x]: 53 bits of significand, and the fixed exponent -1074 of the
    subnormal numbers. *)
Definition exponente (x : Q) : Z := Z.max (piso_log2 (Qabs x) - 52) (-1074).

(** The double nearest to [x], ties to the even significand: the result
    of every float operation whose exact value is [x], as long as it does
    not overflow. *)
Definition redondear (x : Q) : Q :=
  let e := exponente x in
  Qred (inject_Z (redondeo_par (x / 2 ^ e)) * 2 ^ e).

(** The largest finite double, [sys.float_info.max]. *)
Definition maximo : Q := Qred (inject_Z (2 ^ 53 - 1) * 2 ^ 971).

(** [a / b] and [a * b] on floats, for a divisor that is not zero. *)
Definition dividir (a b : Q) : Q := redondear (a / b).
Definition multiplicar (a b : Q) : Q := redondear (a * b).

(** Python's [round(x, ndigits)] on a float, for a non-negative
    [ndigits]: the decimal rounding of the exact value of [x], ties to
    even, converted back to the nearest double. *)
Definition round (x : Q) (ndigits : nat) : Q :=
  let p := inject_Z (10 ^ Z.of_nat ndigits) in
  redondear (inject_Z (redondeo_par (x * p)) / p).

End Doble.

Import Doble.

Module Conversor.

(** [velocidad_kmh = 30.0] *)
Definition velocidad_kmh : Q := 30.

(** [def metros_a_minutos(dist_m)], on a float [dist_m]. *)
Definition metros_a_minutos (dist_m : Q) : Q :=
  let distancia_km := dividir dist_m 1000 in
  let minutos := multiplicar (dividir distancia_km velocidad_kmh) 60 in
  round minutos 2.

End Conversor.

(** The converter on the primitive binary64 numbers of the machine, to
    compare with the model above on concrete lengths. *)
Module Binario64.

(** The exact value of a finite double. *)
Definition valor_exacto (x : float) : option Q :=
  match Prim2SF x with
  | S754_zero _ => Some 0%Q
  | S754_finite s m e =>
      let v := if 0 <=? e then inject_Z (Z.pos m * 2 ^ e)
               else (inject_Z (Z.pos m) / inject_Z (2 ^ (- e)))%Q in
      Some (if s then (- v)%Q else v)
  | S754_infinity _ | S754_nan => None
  end.

(** [round(x, 2)]: infinities and NaN round to themselves; a finite [x]
    goes to the double nearest to the hundredth nearest to its exact
    value.  From 2^46 on the doubles are more than a hundredth apart and
    [x] is its own rounding; below, the number of hundredths is an exact
    double and the division by 100 rounds correctly. *)
Definition round2 (x : float) : float :=
  match valor_exacto x with
  | None => x
  | Some q =>
      let n := Doble.redondeo_par (q * 100) in
      if Z.abs n <? 2 ^ 53 then
        let r := (of_uint63 (Uint63.of_Z (Z.abs n)) / 100)%float in
        if n <? 0 then (- r)%float else r
      else x
  end.

Definition velocidad_kmh : float := 30%float.

Definition metros_a_minutos (dist_m : float) : float :=
  let distancia_km := (dist_m / 1000)%float in
  let minutos := ((distancia_km / velocidad_kmh) * 60)%float in
  round2 minutos.

End Binario64.

(** ** 2. Python values held by the raw records *)

Module Py.

(** The attribute dictionaries of the raw nodes and edges hold arbitrary
    Python objects; these are the ones OSM data carries. *)
Inductive valor : Type :=
| PyNone
| PyBool (b : bool)
| PyInt (n : Z)
| PyFloat (q : Q)
| PyStr (s : string)
| PyList (l : list valor).

(** [bool] is a subclass of [int]; [int] and [float] compare by value. *)
Definition numero (a : valor) : option Q :=
  match a with
  | PyBool b => Some (if b then 1%Q else 0%Q)
  | PyInt n => Some (inject_Z n)
  | PyFloat q => Some q
  | _ => None
  end.

(** [a == b] *)
Fixpoint py_eq (a b : valor) : bool :=
  match a, b with
  | PyNone, PyNone => true
  | PyStr s, PyStr t => bool_decide (s = t)
  | PyList la, PyList lb =>
      (fix todos (la lb : list valor) : bool :=
         match la, lb with
         | [], [] => true
         | x :: la', y :: lb' => py_eq x y && todos la' lb'
         | _, _ => false
         end) la lb
  | _, _ =>
      match numero a, numero b with
      | Some p, Some q => Qeq_bool p q
      | _, _ => false
      end
  end.

(** [a in (t0, t1, ...)] *)
Definition py_in (a : valor) (tupla : list valor) : bool :=
  existsb (py_eq a) tupla.

(** Truth value of an object, [bool(a)]. *)
Definition py_bool (a : valor) : bool :=
  match a with
  | PyNone => false
  | PyBool b => b
  | PyInt n => negb (n =? 0)
  | PyFloat q => negb (Qeq_bool q 0)
  | PyStr s => negb (bool_decide (s = EmptyString))
  | PyList l => negb (bool_decide (length l = 0%nat))
  end.

(** [a is None] *)
Definition es_None (a : valor) : bool :=
  match a with PyNone => true | _ => false end.

(** The double a number stands for in float arithmetic: a [float] is
    itself, an [int] is rounded to the nearest double, and an [int]
    beyond the range of the doubles is an [OverflowError].  What is not a
    number is a [TypeError]. *)
Definition a_doble (a : valor) : option Q :=
  match a with
  | PyBool b => Some (if b then 1%Q else 0%Q)
  | PyInt n =>
      let x := redondear (inject_Z n) in
      if Qle_bool (Qabs x) maximo then Some x else None
  | PyFloat q => Some q
  | _ => None
  end.

(** [float(a)].  Strings are not parsed: the arithmetic of
    [metros_a_minutos] has already rejected them. *)
Definition py_float (a : valor) : option Q := a_doble a.

(** [data.get(clave, defecto)] *)
Definition get (data : gmap string valor) (clave : string) (defecto : valor) : valor :=
  default defecto (data !! clave).

End Py.

Import Py.

Import Conversor.

(** ** 3. Adjacency builder *)

(** An adjacency entry [(vecino, distancia_metros, tiempo_minutos)]. *)
Definition entrada : Type := Z * Q * Q.

(** A raw node [(nodo, data)] of [grafo_osm.nodes(data=True)]. *)
Record nodo_osm : Type := NodoOSM {
  n_nodo : Z;
  n_data : gmap string valor
}.

(** A raw edge [(u, v, key, data)] of [grafo_osm.edges(data=True, keys=True)]. *)
Record arista_osm : Type := AristaOSM {
  a_u : Z;
  a_v : Z;
  a_key : Z;
  a_data : gmap string valor
}.

(** The two dictionaries the script builds. *)
Record grafo : Type := Grafo {
  nodos_info : gmap Z (valor * valor);
  lista_ady : gmap Z (list entrada)
}.

Module Constructor.

(** Body of the loop [for nodo, data in grafo_osm.nodes(data=True)]. *)
Definition paso_nodo (g : grafo) (r : nodo_osm) : grafo :=
  let nodo := n_nodo r in
  let data := n_data r in
  let x := get data "x" (PyFloat 0) in
  let y := get data "y" (PyFloat 0) in
  {| nodos_info := <[nodo := (x, y)]> (nodos_info g);
     lista_ady := <[nodo := []]> (lista_ady g) |}.

Definition extraer_nodos (nodos : list nodo_osm) : grafo :=
  fold_left paso_nodo nodos {| nodos_info := ∅; lista_ady := ∅ |}.

(** [lista_ady[k].append(e)]; a missing key is a [KeyError]. *)
Definition ady_append (ady : gmap Z (list entrada)) (k : Z) (e : entrada)
  : option (gmap Z (list entrada)) :=
  l ← ady !! k; Some (<[k := l ++ [e]]> ady).

(** The tuple of the test [oneway in (False, 'false', 'False', 0, None)]. *)
Definition no_oneway : list valor :=
  [PyBool false; PyStr "false"; PyStr "False"; PyInt 0; PyNone].

(** The length after the default has been substituted. *)
Definition longitud (data : gmap string valor) : valor :=
  let length := get data "length" PyNone in
  if es_None length then PyFloat 100 else length.

(** [metros_a_minutos(length)] on a Python object: the division by
    [1000.0] takes its operand as a double, and raises on anything that is
    not a number and on an [int] beyond the doubles. *)
Definition metros_a_minutos_py (length : valor) : option Q :=
  dist_m ← a_doble length; Some (metros_a_minutos dist_m).

(** Body of the loop [for u, v, key, data in grafo_osm.edges(...)]. *)
Definition paso_arista (ady : gmap Z (list entrada)) (a : arista_osm)
  : option (gmap Z (list entrada)) :=
  let u := a_u a in
  let v := a_v a in
  let data := a_data a in
  let length := longitud data in
  tiempo ← metros_a_minutos_py length;
  largo ← py_float length;
  ady ← ady_append ady u (v, largo, tiempo);
  let oneway := get data "oneway" PyNone in
  if py_in oneway no_oneway
  then ady_append ady v (u, largo, tiempo)
  else Some ady.

Fixpoint extraer_aristas (ady : gmap Z (list entrada)) (aristas : list arista_osm)
  : option (gmap Z (list entrada)) :=
  match aristas with
  | [] => Some ady
  | a :: resto => ady' ← paso_arista ady a; extraer_aristas ady' resto
  end.

(** Steps 1 and 2 of the script. *)
Definition construir (nodos : list nodo_osm) (aristas : list arista_osm) : option grafo :=
  let g := extraer_nodos nodos in
  ady ← extraer_aristas (lista_ady g) aristas;
  Some {| nodos_info := nodos_info g; lista_ady := ady |}.

End Constructor.

Import Constructor.

(** ** 4. Component finder *)

Module Componentes.

(** Every node a traversal of [grafo_adj] can meet: the keys and the
    neighbours of the entries. *)
Definition vecinos_de (l : list entrada) : gset Z :=
  list_to_set (map (λ e : entrada, e.1.1) l).

Definition universo (grafo_adj : gmap Z (list entrada)) : gset Z :=
  dom grafo_adj ∪ ⋃ (vecinos_de <$> (map_to_list grafo_adj).*2).

(** Body of [for vecino_info in grafo_adj.get(nodo, [])], on the pair
    (queue, visited set). *)
Definition visitar (st : list Z * gset Z) (vecino_info : entrada) : list Z * gset Z :=
  let vecino := vecino_info.1.1 in
  if decide (vecino ∈ st.2) then st
  else (st.1 ++ [vecino], {[vecino]} ∪ st.2).

(** The loop [while colaAuxiliar:], one unit of fuel per dequeued node. *)
Fixpoint BFS_bucle (fuel : nat) (grafo_adj : gmap Z (list entrada))
    (colaAuxiliar : list Z) (visitados : gset Z) : option (gset Z) :=
  match colaAuxiliar with
  | [] => Some visitados
  | nodo :: resto =>
      match fuel with
      | O => None
      | S fuel' =>
          let '(cola', visitados') :=
            fold_left visitar (default [] (grafo_adj !! nodo)) (resto, visitados) in
          BFS_bucle fuel' grafo_adj cola' visitados'
      end
  end.

(** [def BFS_componente(grafo_adj, inicio)] *)
Definition BFS_componente (grafo_adj : gmap Z (list entrada)) (inicio : Z)
  : option (gset Z) :=
  BFS_bucle (S (size (universo grafo_adj))) grafo_adj [inicio] {[inicio]}.

(** Body of [for nodo in todos_nodos], on (componentes, visitados_global). *)
Definition paso_descubrir (grafo_adj : gmap Z (list entrada))
    (st : list (gset Z) * gset Z) (nodo : Z) : option (list (gset Z) * gset Z) :=
  if decide (nodo ∈ st.2) then Some st
  else comp ← BFS_componente grafo_adj nodo; Some (st.1 ++ [comp], st.2 ∪ comp).

Fixpoint descubrir_bucle (grafo_adj : gmap Z (list entrada))
    (st : list (gset Z) * gset Z) (todos_nodos : list Z)
  : option (list (gset Z) * gset Z) :=
  match todos_nodos with
  | [] => Some st
  | nodo :: resto =>
      st' ← paso_descubrir grafo_adj st nodo; descubrir_bucle grafo_adj st' resto
  end.

(** The component discovery loop; [todos_nodos] enumerates the set of
    the keys of [lista_ady] in the order the set is iterated. *)
Definition descubrir (grafo_adj : gmap Z (list entrada)) (todos_nodos : list Z)
  : option (list (gset Z)) :=
  st ← descubrir_bucle grafo_adj ([], ∅) todos_nodos; Some st.1.

(** [todos_nodos] is an enumeration of the keys, each once. *)
Definition enumera (todos_nodos : list Z) (grafo_adj : gmap Z (list entrada)) : Prop :=
  NoDup todos_nodos ∧ list_to_set todos_nodos = dom grafo_adj.

End Componentes.

Import Componentes.

(** ** 5. Graph reducer *)

Module Reductor.

(** [a < b] on the tuples [(len(comp), comp)]: the first components
    decide unless they are equal; then the sets are compared, and [<] on
    sets is proper inclusion. *)
Definition tupla_lt (a b : nat * gset Z) : bool :=
  if decide (a.1 = b.1)
  then if decide (a.2 = b.2) then false else bool_decide (a.2 ⊂ b.2)
  else bool_decide (a.1 < b.1)%nat.

(** A stable sort with [<] as its only comparison, as [list.sort] is. *)
Fixpoint insertar (x : nat * gset Z) (l : list (nat * gset Z)) : list (nat * gset Z) :=
  match l with
  | [] => [x]
  | y :: l' => if tupla_lt y x then y :: insertar x l' else x :: y :: l'
  end.

Fixpoint ordenar (l : list (nat * gset Z)) : list (nat * gset Z) :=
  match l with
  | [] => []
  | x :: l' => insertar x (ordenar l')
  end.

(** [l.sort(reverse=True)]: the list is reversed, sorted and reversed
    again, which keeps the sort stable. *)
Definition sort_reverse (l : list (nat * gset Z)) : list (nat * gset Z) :=
  reverse (ordenar (reverse l)).

(** The components ordered by size, largest first. *)
Definition ordenar_componentes (componentes : list (gset Z)) : list (gset Z) :=
  let componentes_con_tamanio := map (λ comp, (size comp, comp)) componentes in
  map snd (sort_reverse componentes_con_tamanio).

(** [componentes[0]] if there is one, else [set()], on the sorted list. *)
Definition primera (componentes : list (gset Z)) : gset Z :=
  match componentes with
  | comp :: _ => comp
  | [] => ∅
  end.

(** The main component of the components in discovery order. *)
Definition componente_principal (componentes : list (gset Z)) : gset Z :=
  primera (ordenar_componentes componentes).

(** Inner loop of the reduction: the entries of [nodo] whose neighbour
    is in the component, in their order. *)
Definition filtrar_vecinos (comp : gset Z) (vecinos : list entrada) : list entrada :=
  fold_left (λ acc vecino_info,
               let '(vecino, length, tiempo) := vecino_info in
               if decide (vecino ∈ comp) then acc ++ [(vecino, length, tiempo)] else acc)
            vecinos [].

(** [for nodo in componente_principal: nueva_lista_ady[nodo] = ...];
    [lista_ady[nodo]] raises on a missing key.  [nodos] lists the
    component; the dictionary built does not depend on the order. *)
Fixpoint nueva_lista_ady (comp : gset Z) (ady : gmap Z (list entrada))
    (nodos : list Z) (nueva : gmap Z (list entrada)) : option (gmap Z (list entrada)) :=
  match nodos with
  | [] => Some nueva
  | nodo :: resto =>
      vecinos ← ady !! nodo;
      nueva_lista_ady comp ady resto (<[nodo := filtrar_vecinos comp vecinos]> nueva)
  end.

(** [for nodo in componente_principal: nueva_nodos_info[nodo] = nodos_info[nodo]] *)
Fixpoint nueva_nodos_info (info : gmap Z (valor * valor))
    (nodos : list Z) (nueva : gmap Z (valor * valor)) : option (gmap Z (valor * valor)) :=
  match nodos with
  | [] => Some nueva
  | nodo :: resto =>
      c ← info !! nodo; nueva_nodos_info info resto (<[nodo := c]> nueva)
  end.

(** Section 3 of the script after the discovery: choose the main
    component and, when there are several, restrict both dictionaries to
    it.  Returns the graph and the main component. *)
Definition reducir_con (componentes : list (gset Z)) (g : grafo) : option (grafo * gset Z) :=
  let componentes := ordenar_componentes componentes in
  let componente_principal := primera componentes in
  if decide (length componentes ≤ 1)%nat then Some (g, componente_principal)
  else
    ady ← nueva_lista_ady componente_principal (lista_ady g)
            (elements componente_principal) ∅;
    info ← nueva_nodos_info (nodos_info g) (elements componente_principal) ∅;
    Some ({| nodos_info := info; lista_ady := ady |}, componente_principal).

(** Discovery followed by reduction. *)
Definition reducir (todos_nodos : list Z) (g : grafo) : option (grafo * gset Z) :=
  componentes ← descubrir (lista_ady g) todos_nodos;
  reducir_con componentes g.

End Reductor.

Import Reductor.

(** ** 6. Subgraph sampler *)

(** The random source of the script, [random.choice] and
    [random.shuffle], as an interface over an explicit generator state.
    [choice] is only called on non-empty lists. *)
Class Azar (G : Type) : Type := {
  choice : G → list Z → Z * G;
  shuffle : G → list Z → list Z * G;
  choice_elem : ∀ s l, l ≠ [] → (choice s l).1 ∈ l;
  shuffle_perm : ∀ s l, (shuffle s l).1 ≡ₚ l
}.

Module Muestreador.

Section Muestreo.
Context {G : Type} `{!Azar G}.

(** [random.choice(lista_nodos)]; an empty list is an [IndexError]. *)
Definition random_choice (s : G) (lista_nodos : list Z) : option (Z * G) :=
  match lista_nodos with
  | [] => None
  | _ => Some (choice s lista_nodos)
  end.

(** Body of [for vec in vecinos]; [largo] is [len(subgrafo_nodos)]. *)
Definition encolar (largo : nat) (st : list Z * gset Z) (vec : Z) : list Z * gset Z :=
  let '(cola, visitados_local) := st in
  if decide ((vec ∉ visitados_local) ∧ (largo + length cola < 1000)%nat)
  then (cola ++ [vec], {[vec]} ∪ visitados_local)
  else st.

(** [while len(colaAuxiliar) > 0 and len(subgrafo_nodos) < 100] *)
Fixpoint muestreo_bucle (fuel : nat) (ady : gmap Z (list entrada)) (s : G)
    (colaAuxiliar : list Z) (visitados_local : gset Z) (subgrafo_nodos : list Z)
  : option (list Z * G) :=
  match colaAuxiliar with
  | [] => Some (subgrafo_nodos, s)
  | nodo :: resto =>
      if decide (length subgrafo_nodos < 100)%nat then
        match fuel with
        | O => None
        | S fuel' =>
            let subgrafo_nodos := subgrafo_nodos ++ [nodo] in
            let vecinos := map (λ vecino_info : entrada, vecino_info.1.1)
                               (default [] (ady !! nodo)) in
            let '(vecinos, s) := shuffle s vecinos in
            let '(cola', visitados') :=
              fold_left (encolar (length subgrafo_nodos)) vecinos (resto, visitados_local) in
            muestreo_bucle fuel' ady s cola' visitados' subgrafo_nodos
        end
      else Some (subgrafo_nodos, s)
  end.

(** [if len(subgrafo_nodos) < 100:] fill with shuffled nodes not yet chosen. *)
Definition completar (s : G) (claves subgrafo_nodos : list Z) : list Z * G :=
  if decide (length subgrafo_nodos < 100)%nat then
    let faltan := (100 - length subgrafo_nodos)%nat in
    let extras := filter (λ n, n ∉ subgrafo_nodos) claves in
    let '(extras, s) := shuffle s extras in
    (subgrafo_nodos ++ take (faltan `min` length extras) extras, s)
  else (subgrafo_nodos, s).

(** Section 5.2 of the script: the list [subgrafo_nodos].  [claves] is
    [lista_ady.keys()] in the order the dictionary yields them. *)
Definition subgrafo_nodos (ady : gmap Z (list entrada)) (claves : list Z) (s : G)
  : option (list Z * G) :=
  if decide (size ady ≤ 100)%nat then Some (claves, s)
  else
    '(nodo_inicio, s) ← random_choice s claves;
    '(sub, s) ← muestreo_bucle 100 ady s [nodo_inicio] {[nodo_inicio]} [];
    Some (completar s claves sub).

End Muestreo.

End Muestreador.

Import Muestreador.

(** ** 7. Vocabulary of the properties *)

(** The local variable [minutos] of [metros_a_minutos], and the number
    of hundredths [round(minutos, 2)] picks. *)
Definition minutos (dist_m : Q) : Q :=
  multiplicar (dividir (dividir dist_m 1000) velocidad_kmh) 60.

Definition centesimas (dist_m : Q) : Z := redondeo_par (minutos dist_m * 100).


(** What [paso_arista] does once the length and the time are known. *)
Definition insertar_arista (ady : gmap Z (list entrada)) (u v : Z) (largo tiempo : Q)
    (doble : bool) : option (gmap Z (list entrada)) :=
  ady ← ady_append ady u (v, largo, tiempo);
  if doble then ady_append ady v (u, largo, tiempo) else Some ady.

(** The values of the one-way attribute for which the reverse entry is
    inserted: absent or [None], the strings ['false'] and ['False'], and
    the numbers equal to zero ([False], [0], [0.0]). *)
Definition dos_sentidos (oneway : valor) : Prop :=
  oneway = PyNone ∨ oneway = PyStr "false" ∨ oneway = PyStr "False"
  ∨ ∃ q, numero oneway = Some q ∧ q == 0.

(** An arc of the adjacency, and the adjacency maps the builder
    produces: every neighbour is itself a key. *)
Definition arco (grafo_adj : gmap Z (list entrada)) (a b : Z) : Prop :=
  ∃ l, grafo_adj !! a = Some l ∧ b ∈ vecinos_de l.

Definition cerrado (grafo_adj : gmap Z (list entrada)) : Prop :=
  ∀ a b, arco grafo_adj a b → b ∈ dom grafo_adj.

(** The raw edges join declared nodes, as the edges of the downloaded
    graph do. *)
Definition bien_formado (nodos : list nodo_osm) (aristas : list arista_osm) : Prop :=
  Forall (λ a, a_u a ∈ n_nodo <$> nodos ∧ a_v a ∈ n_nodo <$> nodos) aristas.

(** The state of the sampling walk: the sample and the queue hold
    distinct visited nodes taken from [S], and the sample has not
    outgrown the target. *)
Definition estado_ok (S : gset Z) (cola : list Z) (vis : gset Z) (sub : list Z) : Prop :=
  NoDup (sub ++ cola) ∧ (∀ x, x ∈ sub ++ cola → x ∈ vis) ∧
  (length sub ≤ 100)%nat ∧ (∀ x, x ∈ sub ++ cola → x ∈ S).

(** A family of sets partitions [nodos]: its union is [nodos] and its
    members are pairwise disjoint. *)
Definition particion (componentes : list (gset Z)) (nodos : gset Z) : Prop :=
  ⋃ componentes = nodos ∧
  ∀ i j ci cj, i ≠ j → componentes !! i = Some ci → componentes !! j = Some cj →
               ci ## cj.

(** The nodes are mutually reachable: the full node set is one
    component. *)
Definition conexo (grafo_adj : gmap Z (list entrada)) : Prop :=
  ∀ a b, a ∈ dom grafo_adj → b ∈ dom grafo_adj → rtc (arco grafo_adj) a b.

(** Every arc has its reverse: all the streets are two-way. *)
Definition simetrico (grafo_adj : gmap Z (list entrada)) : Prop :=
  ∀ a b, arco grafo_adj a b → arco grafo_adj b a.

(** ** 8. Concrete inputs *)

(** The first edge of the end-to-end scenario: A = 1, B = 2. *)
Definition ady_AB : gmap Z (list entrada) := {[ 1 := []; 2 := [] ]}.
Definition arista_AB : arista_osm :=
  AristaOSM 1 2 0 {[ "length" := PyInt 1000; "oneway" := PyBool false ]}.

(** The end-to-end scenario of the specification, with A = 1, B = 2 and
    C = 3. *)
Definition nodos_ABC : list nodo_osm :=
  [ NodoOSM 1 {[ "x" := PyFloat (-77); "y" := PyFloat (-12) ]};
    NodoOSM 2 {[ "x" := PyFloat (-76); "y" := PyFloat (-12) ]};
    NodoOSM 3 {[ "x" := PyFloat (-76); "y" := PyFloat (-11) ]} ].

Definition aristas_ABC : list arista_osm :=
  [ AristaOSM 1 2 0 {[ "length" := PyFloat 1000; "oneway" := PyBool false ]};
    AristaOSM 2 3 0 {[ "length" := PyFloat 2000; "oneway" := PyBool true ]} ].

Definition grafo_ABC : grafo :=
  {| nodos_info :=
       {[ 1 := (PyFloat (-77), PyFloat (-12));
          2 := (PyFloat (-76), PyFloat (-12));
          3 := (PyFloat (-76), PyFloat (-11)) ]};
     lista_ady :=
       {[ 1 := [(2, 1000%Q, metros_a_minutos 1000)];
          2 := [(1, 1000%Q, metros_a_minutos 1000); (3, 2000%Q, metros_a_minutos 2000)];
          3 := [] ]} |}.

(** A deterministic random source: [choice] takes the first element,
    [shuffle] reverses the list. *)
Definition choice_fijo (s : unit) (l : list Z) : Z * unit := (default 0 (head l), s).
Definition shuffle_fijo (s : unit) (l : list Z) : list Z * unit := (reverse l, s).

Lemma choice_fijo_elem (s : unit) (l : list Z) : l ≠ [] → (choice_fijo s l).1 ∈ l.
Proof. destruct l as [|x l]; [congruence|]. intros _. cbn. left. Qed.

Lemma shuffle_fijo_perm (s : unit) (l : list Z) : (shuffle_fijo s l).1 ≡ₚ l.
Proof. cbn. apply reverse_Permutation. Qed.

Definition azar_fijo : Azar unit :=
  {| choice := choice_fijo; shuffle := shuffle_fijo;
     choice_elem := choice_fijo_elem; shuffle_perm := shuffle_fijo_perm |}.

(** A ring of [n] two-way streets of 10 m. *)
Definition anillo (n : nat) : gmap Z (list entrada) :=
  list_to_map
    (map (λ i : Z, (i, [((i + 1) `mod` Z.of_nat n, 10%Q, metros_a_minutos 10);
                        ((i - 1) `mod` Z.of_nat n, 10%Q, metros_a_minutos 10)]))
         (seqZ 0 (Z.of_nat n))).

(** One one-way street from node 2 to node 1. *)
Definition nodos_via : list nodo_osm := [ NodoOSM 1 ∅; NodoOSM 2 ∅ ].
Definition aristas_via : list arista_osm :=
  [ AristaOSM 2 1 0 {[ "length" := PyFloat 50; "oneway" := PyBool true ]} ].
Definition grafo_via : grafo :=
  {| nodos_info := {[ 1 := (PyFloat 0, PyFloat 0); 2 := (PyFloat 0, PyFloat 0) ]};
     lista_ady := {[ 1 := []; 2 := [(1, 50%Q, metros_a_minutos 50)] ]} |}.

(** Two separate two-way streets, 1 - 2 and 3 - 4. *)
Definition nodos_islas : list nodo_osm :=
  [ NodoOSM 1 ∅; NodoOSM 2 ∅; NodoOSM 3 ∅; NodoOSM 4 ∅ ].
Definition aristas_islas : list arista_osm :=
  [ AristaOSM 1 2 0 {[ "length" := PyFloat 100 ]};
    AristaOSM 3 4 0 {[ "length" := PyFloat 250; "oneway" := PyBool false ]} ].
Definition grafo_islas : grafo :=
  {| nodos_info := {[ 1 := (PyFloat 0, PyFloat 0); 2 := (PyFloat 0, PyFloat 0);
                      3 := (PyFloat 0, PyFloat 0); 4 := (PyFloat 0, PyFloat 0) ]};
     lista_ady := {[ 1 := [(2, 100%Q, metros_a_minutos 100)];
                     2 := [(1, 100%Q, metros_a_minutos 100)];
                     3 := [(4, 250%Q, metros_a_minutos 250)];
                     4 := [(3, 250%Q, metros_a_minutos 250)] ]} |}.

(** The first of them alone: what the reducer keeps of [grafo_islas]. *)
Definition grafo_isla_12 : grafo :=
  {| nodos_info := {[ 1 := (PyFloat 0, PyFloat 0); 2 := (PyFloat 0, PyFloat 0) ]};
     lista_ady := {[ 1 := [(2, 100%Q, metros_a_minutos 100)];
                     2 := [(1, 100%Q, metros_a_minutos 100)] ]} |}.

(** One named two-way street, recorded from node 2 to node 1. *)
Definition nodos_calle : list nodo_osm := [ NodoOSM 1 ∅; NodoOSM 2 ∅ ].
Definition aristas_calle : list arista_osm :=
  [ AristaOSM 2 1 0 {[ "length" := PyFloat 80; "name" := PyStr "Los Jardines" ]} ].
Definition grafo_calle : grafo :=
  {| nodos_info := {[ 1 := (PyFloat 0, PyFloat 0); 2 := (PyFloat 0, PyFloat 0) ]};
     lista_ady := {[ 1 := [(2, 80%Q, metros_a_minutos 80)];
                     2 := [(1, 80%Q, metros_a_minutos 80)] ]} |}.

(** Two nodes whose numerals compare differently as strings and as
    numbers, joined by a two-way street of 50.9 metres. *)
Definition ady_9_10 : gmap Z (list entrada) :=
  {[ 9 := [(10, (509 # 10)%Q, metros_a_minutos (509 # 10))];
     10 := [(9, (509 # 10)%Q, metros_a_minutos (509 # 10))] ]}.

(** ** 9. Counts, exports and the induced subgraph *)

Module Exportacion.

(** [for nodo in lista_ady: total = total + len(lista_ady[nodo])], the
    loop of [num_aristas] and of [suma_grados]; [claves] is the order in
    which the dictionary yields its keys. *)
Fixpoint sumar_grados (ady : gmap Z (list entrada)) (claves : list Z) (total : nat)
  : option nat :=
  match claves with
  | [] => Some total
  | nodo :: resto =>
      vecs ← ady !! nodo; sumar_grados ady resto (total + length vecs)
  end.

(** [num_aristas = num_aristas // 2] after the loop. *)
Definition num_aristas (ady : gmap Z (list entrada)) (claves : list Z) : option nat :=
  total ← sumar_grados ady claves 0; Some (total / 2)%nat.

(** A row of [aristas_reg]. *)
Record fila_arista : Type := FilaArista {
  f_origen : Z;
  f_destino : Z;
  f_distancia_metros : Q;
  f_tiempo_minutos : Q;
  f_nombre_calle : valor
}.

(** [grafo_osm.get_edge_data(u, v)]: the attribute dictionaries of the
    raw edges from [u] to [v], by key, in the order the graph holds them,
    which is the order in which [grafo_osm.edges] yields them; no edge is
    [None]. *)
Definition get_edge_data (aristas : list arista_osm) (u v : Z)
  : list (Z * gmap string valor) :=
  map (λ a, (a_key a, a_data a))
      (filter (λ a, a_u a = u ∧ a_v a = v) aristas).

(** The street name looked up for the pair met as [(u, v)]. *)
Definition nombre_de (aristas : list arista_osm) (u v : Z) : valor :=
  let nombre :=
    match get_edge_data aristas u v with
    | [] => PyNone
    | (primera_key, first) :: _ => get first "name" PyNone
    end in
  if es_None nombre then PyStr "Sin nombre" else nombre.

(** Body of [for vecino_info in lista_vec], on ([aristas_reg], [visto]). *)
Definition paso_fila (aristas : list arista_osm) (u : Z)
    (st : list fila_arista * gset (Z * Z)) (vecino_info : entrada)
  : list fila_arista * gset (Z * Z) :=
  let '(v, length, tiempo) := vecino_info in
  let par := if bool_decide (u ≤ v) then (u, v) else (v, u) in
  if decide (par ∈ st.2) then st
  else (st.1 ++ [ {| f_origen := par.1; f_destino := par.2;
                     f_distancia_metros := length; f_tiempo_minutos := tiempo;
                     f_nombre_calle := nombre_de aristas u v |} ],
        {[par]} ∪ st.2).

(** [for u in lista_ady:] of the edge export. *)
Fixpoint filas_aristas (aristas : list arista_osm) (ady : gmap Z (list entrada))
    (claves : list Z) (st : list fila_arista * gset (Z * Z))
  : option (list fila_arista * gset (Z * Z)) :=
  match claves with
  | [] => Some st
  | u :: resto =>
      lista_vec ← ady !! u;
      filas_aristas aristas ady resto (fold_left (paso_fila aristas u) lista_vec st)
  end.

(** The rows written to [grafo_sjl_osm.csv]. *)
Definition aristas_reg (aristas : list arista_osm) (ady : gmap Z (list entrada))
    (claves : list Z) : option (list fila_arista) :=
  st ← filas_aristas aristas ady claves ([], ∅); Some st.1.

(** A row of [nodos_reg]. *)
Record fila_nodo : Type := FilaNodo {
  f_nodo_id : Z;
  f_latitud : valor;
  f_longitud : valor
}.

(** The rows written to [nodos_sjl_osm.csv]; [claves] is the order of
    the keys of [nodos_info]. *)
Fixpoint nodos_reg (info : gmap Z (valor * valor)) (claves : list Z)
  : option (list fila_nodo) :=
  match claves with
  | [] => Some []
  | nodo :: resto =>
      coordenadas ← info !! nodo;
      filas ← nodos_reg info resto;
      Some ({| f_nodo_id := nodo; f_latitud := coordenadas.2;
               f_longitud := coordenadas.1 |} :: filas)
  end.

(** [subgrafo_ady]: the adjacency induced on the sampled nodes. *)
Definition subgrafo_ady (ady : gmap Z (list entrada)) (subgrafo_nodos : list Z)
  : gmap Z (list entrada) :=
  let conjunto_subgrafo : gset Z := list_to_set subgrafo_nodos in
  fold_left
    (λ acc n, <[n := filtrar_vecinos conjunto_subgrafo (default [] (ady !! n))]> acc)
    subgrafo_nodos ∅.

(** [str(n)] and [int(x)]: the decimal numeral, and the truncation of a
    number towards zero. *)
Definition py_str (n : Z) : string := pretty n.
Definition py_int (x : Q) : Z := (Qnum x `quot` Z.pos (Qden x))%Z.

(** Body of the loop that draws the edges, on (calls of [g.edge],
    [agregado]); the pair is ordered by the numerals as strings. *)
Definition paso_dibujo (u : Z) (st : list (string * string * string) * gset (Z * Z))
    (vecino_info : entrada) : list (string * string * string) * gset (Z * Z) :=
  let '(v, length, tiempo) := vecino_info in
  let par := if String.leb (py_str u) (py_str v) then (u, v) else (v, u) in
  if decide (par ∈ st.2) then st
  else
    let etiqueta := (py_str (py_int length) +:+ " m")%string in
    (st.1 ++ [(py_str par.1, py_str par.2, etiqueta)], {[par]} ∪ st.2).

(** [for u in subgrafo_ady:] of the drawing. *)
Fixpoint dibujar_aristas (sub_ady : gmap Z (list entrada)) (claves : list Z)
    (st : list (string * string * string) * gset (Z * Z))
  : option (list (string * string * string) * gset (Z * Z)) :=
  match claves with
  | [] => Some st
  | u :: resto =>
      vecinos ← sub_ady !! u;
      dibujar_aristas sub_ady resto (fold_left (paso_dibujo u) vecinos st)
  end.

End Exportacion.

Import Exportacion.

(** ** 10. Vocabulary of the further properties *)

(** The raw edge is inserted in both directions. *)
Definition es_doble (a : arista_osm) : bool :=
  py_in (get (a_data a) "oneway" PyNone) no_oneway.

(** The entries a raw edge contributes to the adjacency list of [n]: the
    forward entry if [n] is its origin, then the reverse entry if the edge
    is two-way and [n] is its destination. *)
Definition entradas_de (a : arista_osm) (n : Z) : list entrada :=
  match py_float (longitud (a_data a)) with
  | Some largo =>
      (if decide (a_u a = n) then [(a_v a, largo, metros_a_minutos largo)] else [])
      ++ (if decide (es_doble a = true ∧ a_v a = n)
          then [(a_u a, largo, metros_a_minutos largo)] else [])
  | None => []
  end.

(** The sum of the lengths of the lists of the listed nodes. *)
Fixpoint grados (ady : gmap Z (list entrada)) (claves : list Z) : nat :=
  match claves with
  | [] => 0
  | n :: resto => length (default [] (ady !! n)) + grados ady resto
  end.

(** The unordered pair of two nodes, smaller first. *)
Definition par_de (u v : Z) : Z * Z := (Z.min u v, Z.max u v).

(** The adjacency entries in the order in which the export loops meet
    them, each with the key of its list. *)
Definition recorrido (ady : gmap Z (list entrada)) (claves : list Z)
  : list (Z * entrada) :=
  flat_map (λ u, map (λ e, (u, e)) (default [] (ady !! u))) claves.

(** The pair of an entry met, and the row the export writes for it. *)
Definition par_arco (ue : Z * entrada) : Z * Z := par_de ue.1 ue.2.1.1.

Definition fila_de (aristas : list arista_osm) (ue : Z * entrada) : fila_arista :=
  {| f_origen := (par_arco ue).1; f_destino := (par_arco ue).2;
     f_distancia_metros := ue.2.1.2; f_tiempo_minutos := ue.2.2;
     f_nombre_calle := nombre_de aristas ue.1 ue.2.1.1 |}.

(** The pair of a row. *)
Definition par_fila (f : fila_arista) : Z * Z := (f_origen f, f_destino f).

(** [u] comes before [v] in the list. *)
Definition antes (claves : list Z) (u v : Z) : Prop :=
  ∃ l1 l2 l3, claves = l1 ++ u :: l2 ++ v :: l3.

(** The pair of an entry met by the drawing, ordered by the numerals of
    its nodes as strings, and the call of [g.edge] made for it. *)
Definition par_texto (ue : Z * entrada) : Z * Z :=
  if String.leb (py_str ue.1) (py_str ue.2.1.1) then (ue.1, ue.2.1.1) else (ue.2.1.1, ue.1).

Definition linea_de (ue : Z * entrada) : string * string * string :=
  (py_str (par_texto ue).1, py_str (par_texto ue).2,
   (py_str (py_int ue.2.1.2) +:+ " m")%string).

(** The two node names of a call of [g.edge]. *)
Definition extremos (c : string * string * string) : string * string := c.1.

(** The names of the two nodes of a pair. *)
Definition par_nombres (p : Z * Z) : string * string := (py_str p.1, py_str p.2).

(** * Properties *)

(** ** Distance-time converter *)

Section RedondeoPar.

Lemma redondeo_par_comp (x y : Q) : x == y → redondeo_par x = redondeo_par y.
Proof.
  intros E. unfold redondeo_par.
  rewrite <- (Qfloor_comp _ _ E).
  assert (Ec : Qcompare (x - inject_Z (Qfloor x)) (1 # 2)
             = Qcompare (y - inject_Z (Qfloor x)) (1 # 2)).
  { apply Qcompare_comp; lra. }
  now rewrite Ec.
Qed.

(** The rounded value is at most one half away, on either side. *)
Lemma redondeo_par_cota (x : Q) :
  (inject_Z (redondeo_par x) - x <= 1 # 2)%Q ∧ (x - inject_Z (redondeo_par x) <= 1 # 2)%Q.
Proof.
  unfold redondeo_par.
  pose proof (Qfloor_le x) as Hl. pose proof (Qlt_floor x) as Hu.
  rewrite inject_Z_plus in Hu.
  destruct (Qcompare (x - inject_Z (Qfloor x)) (1 # 2)) eqn:E.
  - apply Qeq_alt in E.
    destruct (Z.even (Qfloor x)); [|rewrite inject_Z_plus];
      change (inject_Z 1) with 1%Q in *; split; lra.
  - apply Qlt_alt in E. split; lra.
  - apply Qgt_alt in E. rewrite inject_Z_plus.
    change (inject_Z 1) with 1%Q in *. split; lra.
Qed.

(** On a tie the even neighbour is taken. *)
Lemma redondeo_par_empate (x : Q) :
  (Qabs (inject_Z (redondeo_par x) - x) == 1 # 2)%Q → Z.even (redondeo_par x) = true.
Proof.
  unfold redondeo_par.
  pose proof (Qfloor_le x) as Hl. pose proof (Qlt_floor x) as Hu.
  rewrite inject_Z_plus in Hu.
  destruct (Qcompare (x - inject_Z (Qfloor x)) (1 # 2)) eqn:E.
  - intros _. destruct (Z.even (Qfloor x)) eqn:Ev; [exact Ev|].
    rewrite Z.even_add, Ev. reflexivity.
  - apply Qlt_alt in E. intros Ha. exfalso.
    revert Ha. apply Qabs_case; intros; lra.
  - apply Qgt_alt in E. rewrite inject_Z_plus.
    change (inject_Z 1) with 1%Q in *. intros Ha. exfalso.
    revert Ha. apply Qabs_case; intros; lra.
Qed.


Lemma redondeo_par_no_negativo (x : Q) : (0 <= x)%Q → 0 <= redondeo_par x.
Proof.
  intros Hx. unfold redondeo_par.
  assert (0 <= Qfloor x).
  { change 0 with (Qfloor 0). now apply Qfloor_resp_le. }
  destruct (Qcompare _ _); [destruct (Z.even _)| |]; lia.
Qed.



End RedondeoPar.



Section Conversion.

Local Open Scope Q_scope.

(** *** Rounding to a double *)


(** The rounding to an integer is monotone. *)
Lemma redondeo_par_mono (x y : Q) : x <= y -> (redondeo_par x <= redondeo_par y)%Z.
Proof.
  intros Hxy.
  destruct (Z_le_gt_dec (redondeo_par x) (redondeo_par y)) as [|Hgt]; [assumption|exfalso].
  destruct (redondeo_par_cota x) as [H1 H2]. destruct (redondeo_par_cota y) as [H3 H4].
  set (a := redondeo_par x) in *. set (b := redondeo_par y) in *.
  assert (Hab : (b + 1 <= a)%Z) by lia.
  rewrite Zle_Qle, inject_Z_plus in Hab. change (inject_Z 1) with 1 in Hab.
  (* a - 1/2 <= x <= y <= b + 1/2 <= a - 1/2: all equal, both ties *)
  assert (Ex : x == inject_Z a - (1 # 2)) by lra.
  assert (Ey : y == inject_Z b + (1 # 2)) by lra.
  assert (Eab : inject_Z a == inject_Z b + 1) by lra.
  assert (Exy : x == y) by lra.
  pose proof (redondeo_par_comp x y Exy) as E. fold a b in E. lia.
Qed.


Lemma pot2_pos (e : Z) : 0 < 2 ^ e.
Proof. apply Qpower_0_lt. reflexivity. Qed.







Lemma redondear_valor (x : Q) :
  redondear x == inject_Z (redondeo_par (x / 2 ^ exponente x)) * 2 ^ exponente x.
Proof. unfold redondear. cbv zeta. apply Qred_correct. Qed.







Lemma redondear_no_negativo (x : Q) : 0 <= x -> 0 <= redondear x.
Proof.
  intros Hx. rewrite redondear_valor.
  pose proof (pot2_pos (exponente x)) as Pe.
  assert (0 <= inject_Z (redondeo_par (x / 2 ^ exponente x))).
  { change 0 with (inject_Z 0). rewrite <- Zle_Qle. apply redondeo_par_no_negativo.
    apply Qle_shift_div_l; [exact Pe|]. lra. }
  nra.
Qed.










(** *** The converter *)

Lemma metros_a_minutos_centesimas (d : Q) :
  metros_a_minutos d = redondear (inject_Z (centesimas d) / 100).
Proof.
  unfold metros_a_minutos, round, centesimas, minutos.
  change (inject_Z (10 ^ Z.of_nat 2)) with 100. reflexivity.
Qed.

Lemma minutos_no_negativo (d : Q) : 0 <= d -> 0 <= minutos d.
Proof.
  intros Hd. unfold minutos, multiplicar, dividir, velocidad_kmh.
  apply redondear_no_negativo.
  assert (H1 : 0 <= redondear (d / 1000)).
  { apply redondear_no_negativo. apply Qle_shift_div_l; lra. }
  assert (H2 : 0 <= redondear (redondear (d / 1000) / 30)).
  { apply redondear_no_negativo. apply Qle_shift_div_l; lra. }
  revert H2. generalize (redondear (redondear (d / 1000) / 30)). intros b Hb. lra.
Qed.








Lemma centesimas_no_negativo (d : Q) : 0 <= d -> (0 <= centesimas d)%Z.
Proof.
  intros Hd. unfold centesimas. apply redondeo_par_no_negativo.
  pose proof (minutos_no_negativo d Hd) as H. revert H. generalize (minutos d).
  intros m H. lra.
Qed.


Lemma metros_a_minutos_no_negativo (d : Q) : 0 <= d -> 0 <= metros_a_minutos d.
Proof.
  intros Hd. rewrite metros_a_minutos_centesimas. apply redondear_no_negativo.
  pose proof (centesimas_no_negativo d Hd) as H.
  rewrite Zle_Qle in H. change (inject_Z 0) with 0 in H.
  apply Qle_shift_div_l; lra.
Qed.







(** The values of the scenario, and 3 m and 6 m, which take the same
    hundredth. *)
Example metros_a_minutos_1000 : metros_a_minutos 1000 = 2.
Proof. vm_compute. reflexivity. Qed.

Example metros_a_minutos_3 : metros_a_minutos 3 = redondear (1 # 100).
Proof. vm_compute. reflexivity. Qed.

Example metros_a_minutos_6 : metros_a_minutos 6 = redondear (1 # 100).
Proof. vm_compute. reflexivity. Qed.

(** The same values on the floats of the machine: 3 m and 6 m both give
    the double of 0.01, 100 m gives that of 0.2, 1000 m gives 2. *)
Example binario64_3_y_6 :
  Binario64.metros_a_minutos 3 = (1 / 100)%float ∧
  Binario64.metros_a_minutos 6 = (1 / 100)%float ∧
  PrimFloat.eqb (Binario64.metros_a_minutos 6) (2 * Binario64.metros_a_minutos 3) = false.
Proof. vm_compute. repeat split. Qed.

Example binario64_100_y_1000 :
  Binario64.metros_a_minutos 100 = (2 / 10)%float ∧
  Binario64.metros_a_minutos 1000 = 2%float ∧
  Binario64.metros_a_minutos 0 = 0%float.
Proof. vm_compute. repeat split. Qed.

(** Where the exact time lies midway between two hundredths the error of
    the float operations decides the direction: 2.5 m, 7.5 m and 12.5 m
    give 0.01, 0.01 and 0.03, and not the even hundredths 0.00, 0.02 and
    0.02 of the exact time. *)
Example empates :
  metros_a_minutos (5 # 2) = redondear (1 # 100) ∧
  metros_a_minutos (15 # 2) = redondear (1 # 100) ∧
  metros_a_minutos (25 # 2) = redondear (3 # 100).
Proof. vm_compute. repeat split. Qed.

(** The model and the floats of the machine give the same double on every
    length of the list. *)
Example acuerdo_binario64 :
  forallb
    (λ p : float * Q,
       match Binario64.valor_exacto (Binario64.metros_a_minutos p.1) with
       | Some v => Qeq_bool v (metros_a_minutos p.2)
       | None => false
       end)
    [ (0%float, 0); (1%float, 1); ((5 / 2)%float, 5 # 2); (3%float, 3); (6%float, 6);
      ((15 / 2)%float, 15 # 2); (8%float, 8); ((25 / 2)%float, 25 # 2);
      (16%float, 16); (80%float, 80); (100%float, 100); ((1237 / 8)%float, 1237 # 8);
      (1000%float, 1000); (2000%float, 2000); ((98765 / 64)%float, 98765 # 64);
      (123456789%float, 123456789) ]
  = true.
Proof. vm_compute. reflexivity. Qed.







End Conversion.

(** ** Adjacency builder *)

Section Nodos.

Lemma extraer_nodos_snoc (nodos : list nodo_osm) (r : nodo_osm) :
  extraer_nodos (nodos ++ [r]) = paso_nodo (extraer_nodos nodos) r.
Proof. unfold extraer_nodos. now rewrite fold_left_app. Qed.

Lemma extraer_nodos_ady (nodos : list nodo_osm) (n : Z) :
  n ∈ n_nodo <$> nodos → lista_ady (extraer_nodos nodos) !! n = Some [].
Proof.
  induction nodos as [|r nodos IH] using rev_ind; intros Hn.
  - inversion Hn.
  - rewrite extraer_nodos_snoc. cbn.
    destruct (decide (n_nodo r = n)) as [->|Hne].
    + apply lookup_insert_eq.
    + rewrite lookup_insert_ne by exact Hne. apply IH.
      rewrite fmap_app in Hn. apply elem_of_app in Hn as [Hn|Hn]; [exact Hn|].
      apply list_elem_of_singleton in Hn. congruence.
Qed.

Lemma extraer_nodos_dom (nodos : list nodo_osm) :
  dom (nodos_info (extraer_nodos nodos)) = dom (lista_ady (extraer_nodos nodos)).
Proof.
  induction nodos as [|r nodos IH] using rev_ind; [reflexivity|].
  rewrite extraer_nodos_snoc. cbn. rewrite !dom_insert_L. now rewrite IH.
Qed.

Lemma extraer_nodos_info (nodos : list nodo_osm) (r : nodo_osm) :
  NoDup (n_nodo <$> nodos) → r ∈ nodos →
  nodos_info (extraer_nodos nodos) !! n_nodo r
  = Some (get (n_data r) "x" (PyFloat 0), get (n_data r) "y" (PyFloat 0)).
Proof.
  induction nodos as [|r' nodos IH] using rev_ind; intros Hnd Hr.
  - inversion Hr.
  - rewrite extraer_nodos_snoc. cbn.
    rewrite fmap_app in Hnd. apply NoDup_app in Hnd as (Hnd & Hdis & _).
    apply elem_of_app in Hr as [Hr|Hr].
    + rewrite lookup_insert_ne; [now apply IH|].
      intros E. apply (Hdis (n_nodo r)).
      * apply list_elem_of_fmap. now exists r.
      * rewrite <- E. cbn. left.
    + apply list_elem_of_singleton in Hr. subst r'. apply lookup_insert_eq.
Qed.

End Nodos.

(** C10.  For every raw node record [r] of the node iterable: the loop
    body records the pair of its coordinates, 0.0 standing for a missing
    [x] or [y]; after the loop the node has an attribute entry and an empty
    adjacency list; and, the identifiers of the iterable being distinct,
    the attribute entry is that pair. *)
Theorem nodos_extraidos (nodos : list nodo_osm) (r : nodo_osm) :
  r ∈ nodos →
  let x := default (PyFloat 0) (n_data r !! "x") in
  let y := default (PyFloat 0) (n_data r !! "y") in
  (∀ g, nodos_info (paso_nodo g r) !! n_nodo r = Some (x, y)
        ∧ lista_ady (paso_nodo g r) !! n_nodo r = Some []) ∧
  is_Some (nodos_info (extraer_nodos nodos) !! n_nodo r) ∧
  lista_ady (extraer_nodos nodos) !! n_nodo r = Some [] ∧
  (NoDup (n_nodo <$> nodos) →
   nodos_info (extraer_nodos nodos) !! n_nodo r = Some (x, y)).
Proof.
  intros Hr x y.
  assert (Hn : n_nodo r ∈ n_nodo <$> nodos).
  { apply list_elem_of_fmap. now exists r. }
  split; [|split; [|split]].
  - intros g. cbn. split; apply lookup_insert_eq.
  - apply elem_of_dom. rewrite extraer_nodos_dom. apply elem_of_dom.
    rewrite (extraer_nodos_ady _ _ Hn). now eexists.
  - now apply extraer_nodos_ady.
  - intros Hnd. now apply extraer_nodos_info.
Qed.

Lemma nodos_extraidos_witness :
  let r := NodoOSM 7 {[ "y" := PyFloat (-12) ]} in
  nodos_info (extraer_nodos [NodoOSM 5 ∅; r]) !! 7 = Some (PyFloat 0, PyFloat (-12)).
Proof.
  intros r.
  refine (proj2 (proj2 (proj2 (nodos_extraidos [NodoOSM 5 ∅; r] r _))) _).
  - apply list_elem_of_In. simpl. right. left. reflexivity.
  - apply (bool_decide_unpack _). vm_compute. exact I.
Defined.

Section Aristas.

Lemma ady_append_Some (ady ady' : gmap Z (list entrada)) (k : Z) (e : entrada) :
  ady_append ady k e = Some ady' ↔
  ∃ l, ady !! k = Some l ∧ ady' = <[k := l ++ [e]]> ady.
Proof.
  unfold ady_append. destruct (ady !! k) as [l|]; cbn.
  - split.
    + intros [= E]. subst ady'. now exists l.
    + intros (l' & [= E] & ->). now subst l'.
  - split; [discriminate|]. intros (l' & [=] & _).
Qed.

Lemma ady_append_dom (ady ady' : gmap Z (list entrada)) (k : Z) (e : entrada) :
  ady_append ady k e = Some ady' → dom ady' = dom ady.
Proof.
  intros (l & Hl & ->)%ady_append_Some. rewrite dom_insert_L.
  assert (k ∈ dom ady) by (apply elem_of_dom; eauto). set_solver.
Qed.

Lemma ady_append_total (ady : gmap Z (list entrada)) (k : Z) (e : entrada) :
  k ∈ dom ady → is_Some (ady_append ady k e).
Proof.
  intros [l Hl]%elem_of_dom. unfold ady_append. rewrite Hl. cbn. now eexists.
Qed.

(** The test [oneway in (False, 'false', 'False', 0, None)] holds for
    [None], for the two strings, and for every number equal to zero
    ([False], [0], [0.0]); for nothing else. *)
Lemma py_in_no_oneway (oneway : valor) :
  py_in oneway no_oneway = true ↔
  oneway = PyNone ∨ oneway = PyStr "false" ∨ oneway = PyStr "False"
  ∨ ∃ q, numero oneway = Some q ∧ q == 0.
Proof.
  unfold py_in, no_oneway. cbn [existsb].
  destruct oneway as [|b|n|q|s|l]; cbn.
  - split; [now left|reflexivity].
  - destruct b; cbn; split; try discriminate; try reflexivity.
    + intros [|[|[|(q & [= <-] & Hq)]]]; discriminate.
    + intros _. do 3 right. now exists 0%Q.
  - rewrite !orb_false_r.
    split.
    + intros H. do 3 right. exists (inject_Z n). split; [reflexivity|].
      apply orb_true_iff in H as [H|H]; now apply Qeq_bool_iff in H.
    + intros [|[|[|(q & [= <-] & Hq)]]]; try discriminate.
      apply orb_true_iff. left. now apply Qeq_bool_iff.
  - rewrite !orb_false_r.
    split.
    + intros H. do 3 right. exists q. split; [reflexivity|].
      apply orb_true_iff in H as [H|H]; now apply Qeq_bool_iff in H.
    + intros [|[|[|(q' & [= <-] & Hq)]]]; try discriminate.
      apply orb_true_iff. left. now apply Qeq_bool_iff.
  - rewrite !orb_false_r. rewrite orb_true_iff, !bool_decide_eq_true.
    split.
    + intros [->| ->]; auto.
    + intros [|[[= ->]|[[= ->]|(q & [=] & _)]]]; try discriminate; auto.
  - split; [discriminate|].
    intros [|[|[|(q & [=] & _)]]]; discriminate.
Qed.

End Aristas.

Lemma paso_arista_insertar (ady : gmap Z (list entrada)) (a : arista_osm) (largo : Q) :
  py_float (longitud (a_data a)) = Some largo →
  paso_arista ady a
  = insertar_arista ady (a_u a) (a_v a) largo (metros_a_minutos largo)
      (py_in (get (a_data a) "oneway" PyNone) no_oneway).
Proof.
  intros Hl. unfold paso_arista, insertar_arista, metros_a_minutos_py. unfold py_float in *.
  rewrite Hl. reflexivity.
Qed.

Lemma insertar_arista_total (ady : gmap Z (list entrada)) u v largo tiempo doble :
  u ∈ dom ady → v ∈ dom ady → is_Some (insertar_arista ady u v largo tiempo doble).
Proof.
  intros Hu Hv. unfold insertar_arista.
  destruct (ady_append_total ady u (v, largo, tiempo) Hu) as [ady1 H1].
  rewrite H1. cbn. destruct doble; [|now eexists].
  apply ady_append_total. now rewrite (ady_append_dom _ _ _ _ H1).
Qed.

(** C9.  For every raw edge without a length attribute the builder takes
    100.0 m as the length and computes the time from it, the double 0.2: the
    edge is inserted exactly as an edge of length 100.0 would be, the
    inserted length is not zero, and the step does not fail when both
    endpoints are declared nodes. *)
Theorem longitud_por_defecto (ady : gmap Z (list entrada)) (a : arista_osm) :
  a_data a !! "length" = None →
  longitud (a_data a) = PyFloat 100 ∧
  metros_a_minutos 100 = redondear (1 # 5) ∧
  paso_arista ady a
  = insertar_arista ady (a_u a) (a_v a) 100 (metros_a_minutos 100)
      (py_in (get (a_data a) "oneway" PyNone) no_oneway) ∧
  (∀ ady', paso_arista ady a = Some ady' →
           ∃ l, ady' !! a_u a = Some l ∧ (a_v a, 100%Q, metros_a_minutos 100) ∈ l) ∧
  (a_u a ∈ dom ady → a_v a ∈ dom ady → is_Some (paso_arista ady a)).
Proof.
  intros Hl.
  assert (E : longitud (a_data a) = PyFloat 100).
  { unfold longitud, get. now rewrite Hl. }
  assert (Ep := paso_arista_insertar ady a 100). rewrite E in Ep.
  specialize (Ep eq_refl).
  split; [exact E|]. split; [vm_compute; reflexivity|]. split; [exact Ep|]. split.
  - intros ady'. rewrite Ep. unfold insertar_arista.
    generalize (py_in (get (a_data a) "oneway" PyNone) no_oneway). intros doble.
    destruct (ady_append ady (a_u a) _) as [ady1|] eqn:H1; [|discriminate]. cbn.
    apply ady_append_Some in H1 as (l & Hlu & ->).
    destruct doble.
    + intros (l' & Hl' & ->)%ady_append_Some.
      destruct (decide (a_v a = a_u a)) as [Euv|Huv].
      * rewrite Euv in *. rewrite lookup_insert_eq in Hl'. injection Hl' as <-.
        rewrite lookup_insert_eq. eexists; split; [reflexivity|].
        rewrite !elem_of_app, !list_elem_of_singleton. auto.
      * rewrite lookup_insert_ne by exact Huv. rewrite lookup_insert_eq.
        eexists; split; [reflexivity|].
        rewrite elem_of_app, list_elem_of_singleton. auto.
    + intros [= <-]. rewrite lookup_insert_eq. eexists; split; [reflexivity|].
      rewrite elem_of_app, list_elem_of_singleton. auto.
  - intros Hu Hv. rewrite Ep. now apply insertar_arista_total.
Qed.

Lemma longitud_por_defecto_witness :
  paso_arista {[ 1 := []; 2 := [] ]} (AristaOSM 1 2 0 {[ "oneway" := PyBool true ]})
  = insertar_arista {[ 1 := []; 2 := [] ]} 1 2 100 (metros_a_minutos 100) false.
Proof.
  refine (proj1 (proj2 (proj2
    (longitud_por_defecto {[ 1 := []; 2 := [] ]}
       (AristaOSM 1 2 0 {[ "oneway" := PyBool true ]}) _)))).
  vm_compute. reflexivity.
Defined.

(** C1, as stated, fails: the empty string is a falsy value of the
    one-way attribute, and the edge is inserted in one direction only. *)
Lemma reverso_falsy_contraejemplo :
  let a := AristaOSM 1 2 0 {[ "oneway" := PyStr EmptyString ]} in
  py_bool (get (a_data a) "oneway" PyNone) = false ∧
  ∃ ady', paso_arista {[ 1 := []; 2 := [] ]} a = Some ady' ∧
          ady' !! 1 = Some [(2, 100%Q, metros_a_minutos 100)] ∧
          ady' !! 2 = Some [].
Proof.
  intros a. split; [reflexivity|].
  eexists. split; [vm_compute; reflexivity|].
  split; vm_compute; reflexivity.
Qed.

(** C1, amended.  The step for a raw edge returns when both endpoints
    are declared nodes and the length is a number or is missing.  For
    every raw edge the builder processes, the forward tuple (destination,
    length, time) is appended to the origin's list, and the reverse tuple
    (origin, length, time) is appended to the destination's list if and
    only if the one-way attribute is absent or [None], is ['false'] or
    ['False'], or is a number equal to zero; then both directions are
    present with the same length and time. *)
Theorem arista_en_ambos_sentidos (ady : gmap Z (list entrada)) (a : arista_osm) :
  let oneway := get (a_data a) "oneway" PyNone in
  (a_u a ∈ dom ady → a_v a ∈ dom ady → is_Some (py_float (longitud (a_data a))) →
   is_Some (paso_arista ady a)) ∧
  ∀ ady', paso_arista ady a = Some ady' →
    ∃ largo l,
      py_float (longitud (a_data a)) = Some largo ∧ ady !! a_u a = Some l ∧
      let tiempo := metros_a_minutos largo in
      let ady1 := <[a_u a := l ++ [(a_v a, largo, tiempo)]]> ady in
      (dos_sentidos oneway →
         ∃ l', ady1 !! a_v a = Some l' ∧
               ady' = <[a_v a := l' ++ [(a_u a, largo, tiempo)]]> ady1) ∧
      (¬ dos_sentidos oneway → ady' = ady1) ∧
      (dos_sentidos oneway →
         ∃ lu lv, ady' !! a_u a = Some lu ∧ ady' !! a_v a = Some lv ∧
                  (a_v a, largo, tiempo) ∈ lu ∧ (a_u a, largo, tiempo) ∈ lv).
Proof.
  intros oneway. split.
  { intros Hu Hv [largo Hn]. rewrite (paso_arista_insertar ady a largo Hn).
    now apply insertar_arista_total. }
  intros ady' Hp.
  destruct (py_float (longitud (a_data a))) as [largo|] eqn:Hn.
  2:{ unfold paso_arista, metros_a_minutos_py in Hp. unfold py_float in Hn. rewrite Hn in Hp. discriminate. }
  rewrite (paso_arista_insertar ady a largo Hn) in Hp.
  fold oneway in Hp. unfold insertar_arista in Hp.
  pose proof (py_in_no_oneway oneway) as Hin. fold (dos_sentidos oneway) in Hin.
  destruct (ady_append ady (a_u a) _) as [ady1|] eqn:H1; [|discriminate].
  apply ady_append_Some in H1 as (l & Hlu & ->).
  exists largo, l. split; [reflexivity|]. split; [exact Hlu|]. cbv zeta.
  destruct (py_in oneway no_oneway); cbn in Hp.
  - apply ady_append_Some in Hp as (l' & Hl' & ->).
    assert (Hd : dos_sentidos oneway) by now apply Hin.
    split; [|split].
    + intros _. now exists l'.
    + intros Hnd. now destruct Hnd.
    + intros _. rewrite lookup_insert_eq.
      destruct (decide (a_v a = a_u a)) as [Euv|Huv].
      * rewrite Euv in *. rewrite lookup_insert_eq in Hl'. injection Hl' as <-.
        rewrite lookup_insert_eq. do 2 eexists. split; [reflexivity|].
        split; [reflexivity|].
        rewrite !elem_of_app, !list_elem_of_singleton. auto.
      * rewrite lookup_insert_ne by exact Huv. rewrite lookup_insert_eq.
        do 2 eexists. split; [reflexivity|]. split; [reflexivity|].
        rewrite !elem_of_app, !list_elem_of_singleton. auto.
  - injection Hp as <-.
    assert (Hd : ¬ dos_sentidos oneway).
    { intros Hd. apply Hin in Hd. discriminate. }
    split; [|split]; [intros Hd'; now destruct Hd | reflexivity | intros Hd'; now destruct Hd].
Qed.

Lemma arista_en_ambos_sentidos_witness :
  ∃ ady' lu lv,
    paso_arista ady_AB arista_AB = Some ady' ∧
    ady' !! 1 = Some lu ∧ ady' !! 2 = Some lv ∧
    (2, 1000%Q, metros_a_minutos 1000) ∈ lu ∧ (1, 1000%Q, metros_a_minutos 1000) ∈ lv.
Proof.
  destruct (arista_en_ambos_sentidos ady_AB arista_AB) as [Ht Hs].
  destruct Ht as [ady' E].
  - apply (bool_decide_unpack _). vm_compute. exact I.
  - apply (bool_decide_unpack _). vm_compute. exact I.
  - vm_compute. eexists. reflexivity.
  - destruct (Hs ady' E) as (largo & l & Hl & _ & _ & _ & H).
    injection Hl as <-. cbv zeta in H.
    destruct H as (lu & lv & H1 & H2 & H3 & H4).
    + do 3 right. exists 0%Q. split; reflexivity.
    + exists ady', lu, lv. auto.
Defined.

(** ** Graph reducer: the choice of the main component *)

Section Orden.

(** On the tuples the script sorts, [<] is the order of the sizes: two
    sets of one size are never properly included in one another. *)
Lemma tupla_lt_size (a b : gset Z) :
  tupla_lt (size a, a) (size b, b) = bool_decide (size a < size b)%nat.
Proof.
  unfold tupla_lt. cbn.
  destruct (decide (size a = size b)) as [E|E].
  - rewrite (bool_decide_eq_false_2 (size a < size b)%nat) by lia.
    destruct (decide (a = b)); [reflexivity|].
    apply bool_decide_eq_false_2. intros Hs%subset_size. lia.
  - apply bool_decide_ext. lia.
Qed.

Lemma insertar_perm (x : nat * gset Z) (l : list (nat * gset Z)) :
  insertar x l ≡ₚ x :: l.
Proof.
  induction l as [|y l IH]; cbn; [reflexivity|].
  destruct (tupla_lt y x); [|reflexivity].
  rewrite IH. apply Permutation_swap.
Qed.

Lemma ordenar_perm (l : list (nat * gset Z)) : ordenar l ≡ₚ l.
Proof.
  induction l as [|x l IH]; cbn; [reflexivity|].
  now rewrite insertar_perm, IH.
Qed.

(** The last element after an insertion: the new one when it is above
    all the others, else the old last one. *)
Lemma last_insertar (x : nat * gset Z) (l : list (nat * gset Z)) :
  last (insertar x l) = if forallb (λ z, tupla_lt z x) l then Some x else last l.
Proof.
  induction l as [|y l IH]; cbn [insertar forallb]; [reflexivity|].
  destruct (tupla_lt y x); cbn [andb].
  - rewrite last_cons, IH.
    destruct (forallb _ l) eqn:Hf; [reflexivity|].
    rewrite (last_cons y l). destruct (last l) eqn:Hl; [reflexivity|].
    apply last_None in Hl. subst l. discriminate.
  - now rewrite last_cons_cons.
Qed.

Lemma last_ordenar_cons (x : nat * gset Z) (l : list (nat * gset Z)) :
  last (ordenar (x :: l))
  = if forallb (λ z, tupla_lt z x) l then Some x else last (ordenar l).
Proof.
  cbn [ordenar]. rewrite last_insertar.
  assert (E : forallb (λ z, tupla_lt z x) (ordenar l) = forallb (λ z, tupla_lt z x) l).
  { apply eq_bool_prop_intro. rewrite !forallb_True. now rewrite ordenar_perm. }
  now rewrite E.
Qed.

Lemma length_ordenar_componentes (componentes : list (gset Z)) :
  length (ordenar_componentes componentes) = length componentes.
Proof.
  unfold ordenar_componentes, sort_reverse.
  rewrite length_map, length_reverse, (Permutation_length (ordenar_perm _)).
  now rewrite length_reverse, length_map.
Qed.

(** The main component as a fold from the left over the discovery list. *)
Lemma componente_principal_last (componentes : list (gset Z)) :
  componente_principal componentes
  = from_option snd ∅
      (last (ordenar (reverse (map (λ comp, (size comp, comp)) componentes)))).
Proof.
  unfold componente_principal, primera, ordenar_componentes, sort_reverse.
  rewrite <- head_reverse.
  destruct (reverse (ordenar _)); reflexivity.
Qed.

Lemma componente_principal_snoc (componentes : list (gset Z)) (comp : gset Z) :
  componente_principal (componentes ++ [comp])
  = if forallb (λ c, bool_decide (size c < size comp)%nat) componentes
    then comp else componente_principal componentes.
Proof.
  rewrite !componente_principal_last.
  rewrite map_app, reverse_app. cbn [map reverse app].
  change (reverse [(size comp, comp)]) with [(size comp, comp)]. cbn [app].
  rewrite last_ordenar_cons.
  assert (E : forallb (λ z, tupla_lt z (size comp, comp))
                (reverse (map (λ c, (size c, c)) componentes))
              = forallb (λ c, bool_decide (size c < size comp)%nat) componentes).
  { apply eq_bool_prop_intro. rewrite !forallb_True.
    rewrite Forall_reverse, Forall_fmap. apply Forall_iff. intros c. cbn.
    now rewrite tupla_lt_size. }
  rewrite E. now destruct (forallb _ componentes).
Qed.

End Orden.

(** C3.  For every non-empty list of discovered components the reducer
    selects a component of maximum cardinality, and among those of
    maximum cardinality the one that comes first in the discovery order:
    every component before it is strictly smaller. *)
Theorem principal_es_primer_maximo (componentes : list (gset Z)) :
  componentes ≠ [] →
  ∃ i : nat,
    componentes !! i = Some (componente_principal componentes) ∧
    (∀ c, c ∈ componentes → (size c ≤ size (componente_principal componentes))%nat) ∧
    (∀ j c, (j < i)%nat → componentes !! j = Some c →
            (size c < size (componente_principal componentes))%nat).
Proof.
  induction componentes as [|comp componentes IH] using rev_ind; [congruence|].
  intros _. rewrite componente_principal_snoc.
  destruct (forallb _ componentes) eqn:Hf.
  - apply Is_true_true_2, forallb_True in Hf. rewrite Forall_forall in Hf.
    exists (length componentes). split; [|split].
    + now rewrite lookup_app_r, Nat.sub_diag by lia.
    + intros c [Hc|Hc%list_elem_of_singleton]%elem_of_app.
      * apply Hf, bool_decide_unpack in Hc. lia.
      * subst c. lia.
    + intros j c Hj Hc. rewrite lookup_app_l in Hc by exact Hj.
      apply list_elem_of_lookup_2 in Hc. now apply Hf, bool_decide_unpack in Hc.
  - destruct componentes as [|c0 componentes']; [discriminate|].
    destruct IH as (i & Hi & Hmax & Hmin); [congruence|].
    set (L := c0 :: componentes') in *.
    exists i. split; [|split].
    + rewrite lookup_app_l; [exact Hi|]. now apply lookup_lt_Some in Hi.
    + intros c [Hc|Hc%list_elem_of_singleton]%elem_of_app; [now apply Hmax|].
      subst c.
      destruct (decide (size comp ≤ size (componente_principal L))%nat) as [|Hgt];
        [assumption|exfalso].
      assert (Hall : Forall (λ c, bool_decide (size c < size comp)%nat) L).
      { apply Forall_forall. intros c Hc. apply bool_decide_pack.
        specialize (Hmax c Hc). lia. }
      apply forallb_True, Is_true_true_1 in Hall. congruence.
    + intros j c Hj Hc. apply (Hmin j c Hj).
      rewrite lookup_app_l in Hc; [exact Hc|].
      apply lookup_lt_Some in Hi. lia.
Qed.

Lemma principal_es_primer_maximo_witness :
  ∃ i : nat,
    ([ {[1]}; {[2; 3]}; {[4; 5]} ] : list (gset Z)) !! i
    = Some (componente_principal [ {[1]}; {[2; 3]}; {[4; 5]} ]).
Proof.
  destruct (principal_es_primer_maximo [ {[1]}; {[2; 3]}; {[4; 5]} ]) as (i & Hi & _).
  - discriminate.
  - exists i. exact Hi.
Defined.

Example principal_empate :
  componente_principal [ {[1]}; {[2; 3]}; {[4; 5]} ] = {[2; 3]}.
Proof. vm_compute. reflexivity. Qed.

(** ** Component finder *)

Section BFS.

Context (grafo_adj : gmap Z (list entrada)).

Lemma elem_of_vecinos_de (l : list entrada) (x : Z) :
  x ∈ vecinos_de l ↔ ∃ e, e ∈ l ∧ e.1.1 = x.
Proof.
  unfold vecinos_de. rewrite elem_of_list_to_set, list_elem_of_fmap.
  split; intros (e & H1 & H2); exists e; auto.
Qed.

Lemma vecinos_en_universo (n : Z) (l : list entrada) :
  grafo_adj !! n = Some l → vecinos_de l ⊆ universo grafo_adj.
Proof.
  intros Hl x Hx. unfold universo. apply elem_of_union. right.
  apply elem_of_union_list. exists (vecinos_de l). split; [|exact Hx].
  apply list_elem_of_fmap. exists l. split; [reflexivity|].
  apply list_elem_of_fmap. exists (n, l). split; [reflexivity|].
  now apply elem_of_map_to_list.
Qed.

Lemma universo_spec (x : Z) :
  x ∈ universo grafo_adj ↔
  x ∈ dom grafo_adj ∨ ∃ n l, grafo_adj !! n = Some l ∧ x ∈ vecinos_de l.
Proof.
  split.
  - unfold universo. intros [Hx|Hx]%elem_of_union; [now left|right].
    apply elem_of_union_list in Hx as (X & HX & Hx).
    apply list_elem_of_fmap in HX as (l & -> & Hl).
    apply list_elem_of_fmap in Hl as ([n l'] & -> & Hl).
    apply elem_of_map_to_list in Hl. now exists n, l'.
  - intros [Hx|(n & l & Hl & Hx)].
    + unfold universo. set_solver.
    + now apply (vecinos_en_universo n l).
Qed.

(** The inner loop adds the neighbours to the visited set and appends
    to the queue those that were not yet visited, each once. *)
Lemma fold_visitar (l : list entrada) (cola : list Z) (vis : gset Z) :
  ∃ nuevos,
    fold_left visitar l (cola, vis) = (cola ++ nuevos, vis ∪ vecinos_de l) ∧
    NoDup nuevos ∧ ∀ x, x ∈ nuevos ↔ x ∈ vecinos_de l ∧ x ∉ vis.
Proof.
  revert cola vis. induction l as [|e l IH]; intros cola vis.
  - exists []. cbn. split; [|split].
    + rewrite app_nil_r. f_equal. unfold vecinos_de. cbn. set_solver.
    + constructor.
    + intros x. unfold vecinos_de. cbn. set_solver.
  - cbn [fold_left]. unfold visitar at 2. cbn [fst snd].
    destruct (decide (e.1.1 ∈ vis)) as [Hin|Hnin].
    + destruct (IH cola vis) as (nuevos & E & Hnd & Hn).
      exists nuevos. split; [|split; [exact Hnd|]].
      * rewrite E. f_equal. unfold vecinos_de. cbn. set_solver.
      * intros x. rewrite Hn. unfold vecinos_de. cbn. set_solver.
    + destruct (IH (cola ++ [e.1.1]) ({[e.1.1]} ∪ vis)) as (nuevos & E & Hnd & Hn).
      exists (e.1.1 :: nuevos). split; [|split].
      * rewrite E, <- app_assoc. cbn. f_equal. unfold vecinos_de. cbn. set_solver.
      * constructor; [|exact Hnd]. rewrite Hn. set_solver.
      * intros x. rewrite elem_of_cons, Hn. unfold vecinos_de. cbn.
        destruct (decide (x = e.1.1)); set_solver.
Qed.

(** Every dequeued node uses up one unit of [size (universo ∖ visitados)
    + length cola]; the fuel [BFS_componente] starts with is enough. *)
Lemma BFS_bucle_total (fuel : nat) (cola : list Z) (vis : gset Z) :
  (size (universo grafo_adj ∖ vis) + length cola ≤ fuel)%nat →
  is_Some (BFS_bucle fuel grafo_adj cola vis).
Proof.
  revert cola vis. induction fuel as [|fuel IH]; intros cola vis Hm.
  - destruct cola; [now eexists|]. cbn in Hm. lia.
  - destruct cola as [|nodo resto]; [now eexists|]. cbn [BFS_bucle].
    destruct (fold_visitar (default [] (grafo_adj !! nodo)) resto vis)
      as (nuevos & E & Hnd & Hn).
    rewrite E. apply IH.
    assert (Hsub : list_to_set nuevos ⊆ universo grafo_adj ∖ vis).
    { intros x Hx. apply elem_of_list_to_set, Hn in Hx as [Hx Hv].
      apply elem_of_difference. split; [|exact Hv].
      destruct (grafo_adj !! nodo) as [l|] eqn:Hl; cbn in Hx.
      - now apply (vecinos_en_universo nodo l).
      - unfold vecinos_de in Hx. cbn in Hx. set_solver. }
    assert (Hin : ∀ x, x ∈ nuevos → x ∈ vecinos_de (default [] (grafo_adj !! nodo)))
      by (intros x Hx; now apply Hn).
    assert (Ed : universo grafo_adj ∖ (vis ∪ vecinos_de (default [] (grafo_adj !! nodo)))
                 = (universo grafo_adj ∖ vis) ∖ list_to_set nuevos).
    { apply set_eq. intros x. rewrite !elem_of_difference, elem_of_union.
      rewrite elem_of_list_to_set, Hn. 
      destruct (decide (x ∈ vis)); tauto. }
    rewrite Ed, size_difference by exact Hsub.
    rewrite size_list_to_set by exact Hnd.
    apply subseteq_size in Hsub. rewrite size_list_to_set in Hsub by exact Hnd.
    rewrite length_app. cbn in Hm. lia.
Qed.

Lemma BFS_componente_total (inicio : Z) : is_Some (BFS_componente grafo_adj inicio).
Proof.
  unfold BFS_componente. apply BFS_bucle_total. cbn.
  pose proof (subseteq_size (universo grafo_adj ∖ {[inicio]}) (universo grafo_adj)) as H.
  assert (universo grafo_adj ∖ {[inicio]} ⊆ universo grafo_adj) by set_solver.
  specialize (H ltac:(assumption)). lia.
Qed.

(** Induction over the run of the loop. *)
Lemma BFS_bucle_inv (P : list Z → gset Z → Prop) :
  (∀ nodo resto vis nuevos,
     P (nodo :: resto) vis →
     NoDup nuevos →
     (∀ x, x ∈ nuevos ↔ x ∈ vecinos_de (default [] (grafo_adj !! nodo)) ∧ x ∉ vis) →
     P (resto ++ nuevos) (vis ∪ vecinos_de (default [] (grafo_adj !! nodo)))) →
  ∀ fuel cola vis r,
    P cola vis → BFS_bucle fuel grafo_adj cola vis = Some r → P [] r.
Proof.
  intros Hstep fuel. induction fuel as [|fuel IH]; intros cola vis r HP Hr.
  - destruct cola; [|discriminate]. now injection Hr as <-.
  - destruct cola as [|nodo resto]; [now injection Hr as <-|].
    cbn [BFS_bucle] in Hr.
    destruct (fold_visitar (default [] (grafo_adj !! nodo)) resto vis)
      as (nuevos & E & Hnd & Hn).
    rewrite E in Hr. eapply IH; [|exact Hr]. now apply Hstep.
Qed.

End BFS.

Section Alcance.

Context (grafo_adj : gmap Z (list entrada)).

Lemma vecinos_default (nodo x : Z) :
  x ∈ vecinos_de (default [] (grafo_adj !! nodo)) ↔ arco grafo_adj nodo x.
Proof.
  unfold arco. destruct (grafo_adj !! nodo) as [l|]; cbn.
  - split; [intros H; now exists l|]. now intros (l' & [= <-] & H).
  - split; [|now intros (l' & [=] & _)].
    unfold vecinos_de. cbn. set_solver.
Qed.

(** [BFS_componente] returns the set of the nodes reachable from
    [inicio] along the arcs. *)
Lemma BFS_componente_alcanzables (inicio : Z) (comp : gset Z) :
  BFS_componente grafo_adj inicio = Some comp →
  ∀ x, x ∈ comp ↔ rtc (arco grafo_adj) inicio x.
Proof.
  intros Hb.
  pose (P := λ (cola : list Z) (vis : gset Z),
          inicio ∈ vis ∧ (∀ x, x ∈ cola → x ∈ vis) ∧
          (∀ x, x ∈ vis → rtc (arco grafo_adj) inicio x) ∧
          (∀ x, x ∈ vis → x ∈ cola ∨ ∀ y, arco grafo_adj x y → y ∈ vis)).
  assert (HP : P [] comp).
  { unfold BFS_componente in Hb.
    refine (BFS_bucle_inv grafo_adj P _ _ _ _ comp _ Hb).
    - intros nodo resto vis nuevos (Hi & Hc & Hr & Hcl) Hnd Hn.
      split; [|split; [|split]].
      + set_solver.
      + intros x [Hx|Hx]%elem_of_app.
        * apply elem_of_union. left. apply Hc. now right.
        * apply elem_of_union. right. now apply Hn.
      + intros x [Hx|Hx]%elem_of_union; [now apply Hr|].
        apply vecinos_default in Hx.
        eapply rtc_r; [|exact Hx]. apply Hr, Hc. left.
      + intros x [Hx|Hx]%elem_of_union.
        * destruct (Hcl x Hx) as [Hq|Hs].
          -- apply elem_of_cons in Hq as [->|Hq].
             ++ right. intros y Hy. apply elem_of_union. right.
                now apply vecinos_default.
             ++ left. apply elem_of_app. now left.
          -- right. intros y Hy. apply elem_of_union. left. now apply Hs.
        * destruct (decide (x ∈ vis)) as [Hv|Hv].
          -- destruct (Hcl x Hv) as [Hq|Hs].
             ++ apply elem_of_cons in Hq as [->|Hq].
                ** right. intros y Hy. apply elem_of_union. right.
                   now apply vecinos_default.
                ** left. apply elem_of_app. now left.
             ++ right. intros y Hy. apply elem_of_union. left. now apply Hs.
          -- left. apply elem_of_app. right. now apply Hn.
    - split; [set_solver|]. split; [set_solver|]. split.
      + intros x ->%elem_of_singleton. apply rtc_refl.
      + intros x ->%elem_of_singleton. left. left. }
  destruct HP as (Hi & _ & Hr & Hcl).
  intros x. split; [apply Hr|].
  revert x. apply (rtc_ind_r (λ x, x ∈ comp)); [exact Hi|].
  intros y z _ Hyz Hy.
  destruct (Hcl y Hy) as [Hq|Hs]; [inversion Hq|]. now apply Hs.
Qed.

Lemma BFS_componente_inicio (inicio : Z) (comp : gset Z) :
  BFS_componente grafo_adj inicio = Some comp → inicio ∈ comp.
Proof. intros Hb. apply (BFS_componente_alcanzables _ _ Hb). apply rtc_refl. Qed.

Lemma alcanzable_en_dom (a b : Z) :
  cerrado grafo_adj → a ∈ dom grafo_adj → rtc (arco grafo_adj) a b → b ∈ dom grafo_adj.
Proof.
  intros Hc Ha Hr. induction Hr as [|a b c Hab _ IH]; [exact Ha|].
  apply IH. now apply (Hc a b).
Qed.

Lemma BFS_componente_en_dom (inicio : Z) (comp : gset Z) :
  cerrado grafo_adj → inicio ∈ dom grafo_adj →
  BFS_componente grafo_adj inicio = Some comp → comp ⊆ dom grafo_adj.
Proof.
  intros Hc Hi Hb x Hx. apply (alcanzable_en_dom inicio x Hc Hi).
  now apply (BFS_componente_alcanzables _ _ Hb).
Qed.

End Alcance.

Section Descubrir.

Context (grafo_adj : gmap Z (list entrada)).

(** The discovery loop never fails.  It appends to [componentes] the
    traversals from the nodes that were not yet in [visitados_global] at
    their turn, and [visitados_global] grows by their union. *)
Lemma descubrir_bucle_spec (orden : list Z) (comps : list (gset Z)) (vg : gset Z) :
  ∃ nuevas,
    descubrir_bucle grafo_adj (comps, vg) orden = Some (comps ++ nuevas, vg ∪ ⋃ nuevas) ∧
    (∀ n, n ∈ orden → n ∈ vg ∪ ⋃ nuevas) ∧
    (∀ i c, nuevas !! i = Some c →
            ∃ n, n ∈ orden ∧ (n ∉ vg ∪ ⋃ take i nuevas) ∧
                 BFS_componente grafo_adj n = Some c).
Proof.
  revert comps vg. induction orden as [|n orden IH]; intros comps vg.
  - exists []. cbn. split; [|split].
    + rewrite app_nil_r. do 2 f_equal. set_solver.
    + intros n Hn. inversion Hn.
    + intros i c Hc. destruct i; discriminate.
  - cbn [descubrir_bucle]. unfold paso_descubrir. cbn [fst snd].
    destruct (decide (n ∈ vg)) as [Hin|Hnin]; cbn [mbind option_bind].
    + destruct (IH comps vg) as (nuevas & E & Hcub & Hor).
      exists nuevas. split; [exact E|]. split.
      * intros m [->|Hm]%elem_of_cons; [set_solver|now apply Hcub].
      * intros i c Hc. destruct (Hor i c Hc) as (m & Hm & Hm' & Hb).
        exists m. split; [now right|]. now split.
    + destruct (BFS_componente_total grafo_adj n) as [c Hc]. rewrite Hc.
      cbn [mbind option_bind].
      destruct (IH (comps ++ [c]) (vg ∪ c)) as (nuevas & E & Hcub & Hor).
      exists (c :: nuevas). split; [|split].
      * rewrite E. f_equal. rewrite <- app_assoc. cbn. f_equal.
        apply set_eq. intros x. cbn. set_solver.
      * pose proof (BFS_componente_inicio grafo_adj n c Hc) as Hn.
        intros m [->|Hm]%elem_of_cons; cbn; [set_solver|].
        specialize (Hcub m Hm). set_solver.
      * intros [|i] c' Hc'.
        -- injection Hc' as <-. exists n. split; [left|]. split; [|exact Hc].
           cbn. set_solver.
        -- cbn in Hc'. destruct (Hor i c' Hc') as (m & Hm & Hm' & Hb).
           exists m. split; [now right|]. split; [|exact Hb].
           cbn. set_solver.
Qed.

Lemma descubrir_spec (orden : list Z) :
  ∃ componentes,
    descubrir grafo_adj orden = Some componentes ∧
    (∀ n, n ∈ orden → n ∈ ⋃ componentes) ∧
    (∀ i c, componentes !! i = Some c →
            ∃ n, n ∈ orden ∧ (n ∉ ⋃ take i componentes) ∧
                 BFS_componente grafo_adj n = Some c).
Proof.
  destruct (descubrir_bucle_spec orden [] ∅) as (nuevas & E & Hcub & Hor).
  exists nuevas. unfold descubrir. rewrite E. cbn. split; [reflexivity|]. split.
  - intros n Hn. specialize (Hcub n Hn). set_solver.
  - intros i c Hc. destruct (Hor i c Hc) as (n & Hn & Hn' & Hb).
    exists n. split; [exact Hn|]. split; [set_solver|exact Hb].
Qed.

(** On an adjacency whose neighbours are keys, the components found
    from keys are sets of keys. *)
Lemma descubrir_en_dom (orden : list Z) (componentes : list (gset Z)) :
  cerrado grafo_adj → (∀ n, n ∈ orden → n ∈ dom grafo_adj) →
  descubrir grafo_adj orden = Some componentes →
  ∀ c, c ∈ componentes → c ⊆ dom grafo_adj.
Proof.
  intros Hce Hor Hd c Hc.
  destruct (descubrir_spec orden) as (cs & E & _ & Hsp).
  rewrite Hd in E. injection E as <-.
  apply list_elem_of_lookup in Hc as [i Hi].
  destruct (Hsp i c Hi) as (n & Hn & _ & Hb).
  eapply BFS_componente_en_dom; eauto.
Qed.

End Descubrir.

(** ** Invariants of the builder *)

Section InvarianteConstructor.

Lemma extraer_nodos_claves (nodos : list nodo_osm) :
  dom (lista_ady (extraer_nodos nodos)) = list_to_set (n_nodo <$> nodos).
Proof.
  induction nodos as [|r nodos IH] using rev_ind; [reflexivity|].
  rewrite extraer_nodos_snoc. cbn. rewrite dom_insert_L, IH, fmap_app.
  rewrite list_to_set_app_L. cbn. set_solver.
Qed.

Lemma extraer_nodos_cerrado (nodos : list nodo_osm) :
  cerrado (lista_ady (extraer_nodos nodos)).
Proof.
  intros a b (l & Hl & Hb).
  assert (Ha : a ∈ n_nodo <$> nodos).
  { apply (elem_of_list_to_set (C := gset Z)). rewrite <- extraer_nodos_claves.
    apply elem_of_dom. now exists l. }
  rewrite (extraer_nodos_ady _ _ Ha) in Hl. injection Hl as <-.
  unfold vecinos_de in Hb. cbn in Hb. set_solver.
Qed.

Lemma ady_append_cerrado (ady ady' : gmap Z (list entrada)) (k : Z) (e : entrada) :
  ady_append ady k e = Some ady' → e.1.1 ∈ dom ady → cerrado ady → cerrado ady'.
Proof.
  intros Ha He Hc a b (l & Hl & Hb).
  rewrite (ady_append_dom _ _ _ _ Ha).
  apply ady_append_Some in Ha as (l0 & Hl0 & ->).
  destruct (decide (k = a)) as [->|Hne].
  - rewrite lookup_insert_eq in Hl. injection Hl as <-.
    apply elem_of_vecinos_de in Hb as (e' & [He'|He']%elem_of_app & <-).
    + apply (Hc a). exists l0. split; [exact Hl0|].
      apply elem_of_vecinos_de. now exists e'.
    + apply list_elem_of_singleton in He'. now subst e'.
  - rewrite lookup_insert_ne in Hl by exact Hne.
    apply (Hc a). now exists l.
Qed.

Lemma insertar_arista_inv (ady ady' : gmap Z (list entrada)) u v largo tiempo doble :
  insertar_arista ady u v largo tiempo doble = Some ady' →
  dom ady' = dom ady ∧ (v ∈ dom ady → cerrado ady → cerrado ady').
Proof.
  unfold insertar_arista.
  destruct (ady_append ady u (v, largo, tiempo)) as [ady1|] eqn:H1; [|discriminate].
  cbn [mbind option_bind].
  assert (Hu : u ∈ dom ady).
  { apply ady_append_Some in H1 as (l & Hl & _). apply elem_of_dom. now exists l. }
  pose proof (ady_append_dom _ _ _ _ H1) as Hd1.
  destruct doble.
  - intros H2. pose proof (ady_append_dom _ _ _ _ H2) as Hd2. split; [congruence|].
    intros Hv Hc. apply (ady_append_cerrado _ _ _ _ H2); [cbn; congruence|].
    now apply (ady_append_cerrado _ _ _ _ H1).
  - intros [= <-]. split; [exact Hd1|].
    intros Hv Hc. now apply (ady_append_cerrado _ _ _ _ H1).
Qed.

Lemma paso_arista_inv (ady ady' : gmap Z (list entrada)) (a : arista_osm) :
  paso_arista ady a = Some ady' →
  dom ady' = dom ady ∧ (a_v a ∈ dom ady → cerrado ady → cerrado ady').
Proof.
  intros Hp.
  destruct (py_float (longitud (a_data a))) as [largo|] eqn:Hn.
  - rewrite (paso_arista_insertar ady a largo Hn) in Hp.
    now apply insertar_arista_inv in Hp.
  - unfold paso_arista, metros_a_minutos_py in Hp. unfold py_float in Hn. rewrite Hn in Hp. discriminate.
Qed.

Lemma extraer_aristas_inv (aristas : list arista_osm) (ady ady' : gmap Z (list entrada)) :
  extraer_aristas ady aristas = Some ady' →
  dom ady' = dom ady ∧
  ((∀ a, a ∈ aristas → a_v a ∈ dom ady) → cerrado ady → cerrado ady').
Proof.
  revert ady. induction aristas as [|a aristas IH]; intros ady; cbn [extraer_aristas].
  - intros [= <-]. auto.
  - destruct (paso_arista ady a) as [ady1|] eqn:Hp; [|discriminate].
    cbn [mbind option_bind]. intros He.
    destruct (paso_arista_inv _ _ _ Hp) as [Hd1 Hc1].
    destruct (IH _ He) as [Hd Hc]. split; [congruence|].
    intros Hv Hce. apply Hc.
    + intros a' Ha'. rewrite Hd1. apply Hv. now right.
    + apply Hc1; [|exact Hce]. apply Hv. left.
Qed.

Lemma construir_inv (nodos : list nodo_osm) (aristas : list arista_osm) (g : grafo) :
  construir nodos aristas = Some g →
  dom (nodos_info g) = dom (lista_ady g) ∧
  dom (lista_ady g) = list_to_set (n_nodo <$> nodos) ∧
  (bien_formado nodos aristas → cerrado (lista_ady g)).
Proof.
  unfold construir.
  destruct (extraer_aristas _ aristas) as [ady|] eqn:He; [|discriminate].
  intros [= <-]. cbn.
  destruct (extraer_aristas_inv _ _ _ He) as [Hd Hc].
  split; [|split].
  - now rewrite Hd, extraer_nodos_dom.
  - now rewrite Hd, extraer_nodos_claves.
  - intros Hbf. apply Hc; [|apply extraer_nodos_cerrado].
    intros a Ha. rewrite extraer_nodos_claves. apply elem_of_list_to_set.
    unfold bien_formado in Hbf. rewrite Forall_forall in Hbf. now apply Hbf.
Qed.

End InvarianteConstructor.

(** ** Graph reducer: the restriction to the main component *)

Section Reduccion.

Lemma filtrar_vecinos_filter (comp : gset Z) (vecinos : list entrada) :
  filtrar_vecinos comp vecinos = filter (λ e : entrada, e.1.1 ∈ comp) vecinos.
Proof.
  unfold filtrar_vecinos.
  enough (H : ∀ acc, fold_left
             (λ acc (vecino_info : entrada),
                let '(vecino, length, tiempo) := vecino_info in
                if decide (vecino ∈ comp) then acc ++ [(vecino, length, tiempo)] else acc)
             vecinos acc = acc ++ filter (λ e : entrada, e.1.1 ∈ comp) vecinos)
    by apply (H []).
  induction vecinos as [|[[v l] t] vecinos IH]; intros acc; cbn [fold_left].
  - now rewrite app_nil_r.
  - rewrite IH, filter_cons. cbn [fst].
    destruct (decide (v ∈ comp)); [|reflexivity].
    now rewrite <- app_assoc.
Qed.

Lemma nueva_lista_ady_spec (comp : gset Z) (ady : gmap Z (list entrada))
    (nodos : list Z) (nueva r : gmap Z (list entrada)) :
  nueva_lista_ady comp ady nodos nueva = Some r →
  ∀ n, r !! n = if decide (n ∈ nodos) then filtrar_vecinos comp <$> ady !! n
                else nueva !! n.
Proof.
  revert nueva. induction nodos as [|n0 nodos IH]; intros nueva; cbn [nueva_lista_ady].
  - intros [= <-] n. destruct (decide (n ∈ [])) as [H|]; [inversion H|reflexivity].
  - destruct (ady !! n0) as [v|] eqn:Hv; [|discriminate]. cbn [mbind option_bind].
    intros Hr n. rewrite (IH _ Hr n).
    destruct (decide (n = n0)) as [->|Hne].
    + rewrite (decide_True (P := n0 ∈ n0 :: nodos)) by left.
      destruct (decide (n0 ∈ nodos)); [reflexivity|].
      now rewrite lookup_insert_eq, Hv.
    + rewrite lookup_insert_ne by congruence.
      destruct (decide (n ∈ nodos)) as [Hin|Hnin].
      * now rewrite (decide_True (P := n ∈ n0 :: nodos)) by now right.
      * rewrite (decide_False (P := n ∈ n0 :: nodos)); [reflexivity|].
        intros [?|?]%elem_of_cons; contradiction.
Qed.

Lemma nueva_lista_ady_total (comp : gset Z) (ady : gmap Z (list entrada))
    (nodos : list Z) (nueva : gmap Z (list entrada)) :
  (∀ n, n ∈ nodos → n ∈ dom ady) → is_Some (nueva_lista_ady comp ady nodos nueva).
Proof.
  revert nueva. induction nodos as [|n0 nodos IH]; intros nueva Hd; cbn [nueva_lista_ady].
  - now eexists.
  - destruct (proj1 (elem_of_dom ady n0) (Hd n0 ltac:(left))) as [v Hv].
    rewrite Hv. cbn [mbind option_bind]. apply IH. intros n Hn. apply Hd. now right.
Qed.

Lemma nueva_nodos_info_spec (info : gmap Z (valor * valor))
    (nodos : list Z) (nueva r : gmap Z (valor * valor)) :
  nueva_nodos_info info nodos nueva = Some r →
  ∀ n, r !! n = if decide (n ∈ nodos) then info !! n else nueva !! n.
Proof.
  revert nueva. induction nodos as [|n0 nodos IH]; intros nueva; cbn [nueva_nodos_info].
  - intros [= <-] n. destruct (decide (n ∈ [])) as [H|]; [inversion H|reflexivity].
  - destruct (info !! n0) as [v|] eqn:Hv; [|discriminate]. cbn [mbind option_bind].
    intros Hr n. rewrite (IH _ Hr n).
    destruct (decide (n = n0)) as [->|Hne].
    + rewrite (decide_True (P := n0 ∈ n0 :: nodos)) by left.
      destruct (decide (n0 ∈ nodos)); [reflexivity|].
      now rewrite lookup_insert_eq, Hv.
    + rewrite lookup_insert_ne by congruence.
      destruct (decide (n ∈ nodos)) as [Hin|Hnin].
      * now rewrite (decide_True (P := n ∈ n0 :: nodos)) by now right.
      * rewrite (decide_False (P := n ∈ n0 :: nodos)); [reflexivity|].
        intros [?|?]%elem_of_cons; contradiction.
Qed.

Lemma nueva_nodos_info_total (info : gmap Z (valor * valor))
    (nodos : list Z) (nueva : gmap Z (valor * valor)) :
  (∀ n, n ∈ nodos → n ∈ dom info) → is_Some (nueva_nodos_info info nodos nueva).
Proof.
  revert nueva. induction nodos as [|n0 nodos IH]; intros nueva Hd; cbn [nueva_nodos_info].
  - now eexists.
  - destruct (proj1 (elem_of_dom info n0) (Hd n0 ltac:(left))) as [v Hv].
    rewrite Hv. cbn [mbind option_bind]. apply IH. intros n Hn. apply Hd. now right.
Qed.

Lemma componente_principal_elem (componentes : list (gset Z)) :
  componentes ≠ [] → componente_principal componentes ∈ componentes.
Proof.
  induction componentes as [|comp componentes IH] using rev_ind; [congruence|].
  intros _. rewrite componente_principal_snoc.
  destruct (forallb _ componentes) eqn:Hf.
  - apply elem_of_app. right. left.
  - apply elem_of_app. left. apply IH. intros ->. discriminate.
Qed.

Lemma componente_principal_uno (comp : gset Z) : componente_principal [comp] = comp.
Proof. apply (componente_principal_snoc [] comp). Qed.

(** The reduction on a graph whose dictionaries have the same keys and
    whose neighbours are keys, for components that are sets of keys
    covering the keys. *)
Lemma reducir_con_spec (componentes : list (gset Z)) (g : grafo) :
  dom (nodos_info g) = dom (lista_ady g) →
  cerrado (lista_ady g) →
  (∀ c, c ∈ componentes → c ⊆ dom (lista_ady g)) →
  dom (lista_ady g) ⊆ ⋃ componentes →
  ∃ g',
    reducir_con componentes g = Some (g', componente_principal componentes) ∧
    dom (lista_ady g') = componente_principal componentes ∧
    dom (nodos_info g') = componente_principal componentes ∧
    (∀ a b, arco (lista_ady g') a b → b ∈ componente_principal componentes).
Proof.
  intros Hdom Hce Hsub Hcub. unfold reducir_con. cbv zeta.
  rewrite length_ordenar_componentes. fold (componente_principal componentes).
  set (principal := componente_principal componentes).
  destruct (decide (length componentes ≤ 1)%nat) as [Hle|Hgt].
  - exists g. split; [reflexivity|].
    assert (Hp : dom (lista_ady g) = principal).
    { destruct componentes as [|c [|c' cs]]; [| |cbn in Hle; lia].
      - cbn in Hcub. apply set_eq. intros x. unfold principal.
        change (componente_principal []) with (∅ : gset Z). set_solver.
      - unfold principal. rewrite componente_principal_uno.
        cbn in Hcub. specialize (Hsub c ltac:(left)). set_solver. }
    split; [exact Hp|]. split; [congruence|].
    intros a b Hab. rewrite <- Hp. now apply (Hce a b).
  - assert (Hin : principal ∈ componentes).
    { apply componente_principal_elem. intros ->. cbn in Hgt. lia. }
    assert (Hpd : ∀ n, n ∈ elements principal → n ∈ dom (lista_ady g)).
    { intros n Hn%elem_of_elements. now apply (Hsub principal Hin). }
    destruct (nueva_lista_ady_total principal (lista_ady g) (elements principal) ∅ Hpd)
      as [ady Hady].
    destruct (nueva_nodos_info_total (nodos_info g) (elements principal) ∅)
      as [info Hinfo].
    { intros n Hn. rewrite Hdom. now apply Hpd. }
    rewrite Hady, Hinfo. cbn [mbind option_bind].
    eexists. split; [reflexivity|]. cbn [lista_ady nodos_info].
    pose proof (nueva_lista_ady_spec _ _ _ _ _ Hady) as Sa.
    pose proof (nueva_nodos_info_spec _ _ _ _ Hinfo) as Si.
    split; [|split].
    + apply set_eq. intros n. rewrite elem_of_dom, Sa.
      destruct (decide (n ∈ elements principal)) as [Hn|Hn].
      * split; [intros _; now apply elem_of_elements|intros _].
        apply Hpd, elem_of_dom in Hn as [v ->]. now eexists.
      * rewrite lookup_empty. split; [intros [? [=]]|].
        intros Hn'. destruct Hn. now apply elem_of_elements.
    + apply set_eq. intros n. rewrite elem_of_dom, Si.
      destruct (decide (n ∈ elements principal)) as [Hn|Hn].
      * split; [intros _; now apply elem_of_elements|intros _].
        apply Hpd in Hn. rewrite <- Hdom in Hn. now apply elem_of_dom.
      * rewrite lookup_empty. split; [intros [? [=]]|].
        intros Hn'. destruct Hn. now apply elem_of_elements.
    + intros a b (l & Hl & Hb). rewrite Sa in Hl.
      destruct (decide (a ∈ elements principal)) as [_|_];
        [|now rewrite lookup_empty in Hl].
      destruct (lista_ady g !! a) as [v|]; [|discriminate].
      injection Hl as <-. rewrite filtrar_vecinos_filter in Hb.
      apply elem_of_vecinos_de in Hb as (e' & He & <-).
      now apply list_elem_of_filter in He as [He _].
Qed.

End Reduccion.

Lemma enumera_elem (todos_nodos : list Z) (grafo_adj : gmap Z (list entrada)) (n : Z) :
  enumera todos_nodos grafo_adj → n ∈ todos_nodos ↔ n ∈ dom grafo_adj.
Proof. intros [_ <-]. now rewrite elem_of_list_to_set. Qed.

Example construir_ABC : construir nodos_ABC aristas_ABC = Some grafo_ABC.
Proof. vm_compute. reflexivity. Qed.

Example tiempos_ABC : metros_a_minutos 1000 == 2 ∧ metros_a_minutos 2000 == 4.
Proof. split; reflexivity. Qed.

Example descubrir_ABC : descubrir (lista_ady grafo_ABC) [1; 2; 3] = Some [ {[1; 2; 3]} ].
Proof. vm_compute. reflexivity. Qed.

(** C6.  For raw records whose edges join declared nodes: after the
    builder the nodes with adjacency entries are nodes of the
    node-attribute map (any prefix of the edges is such an input, so this
    holds after each edge); the reducer returns, and after it the key sets
    of the adjacency map and of the node-attribute map are both exactly the
    chosen component and every neighbour in an adjacency entry belongs to
    it. *)
Theorem invariante_de_claves (nodos : list nodo_osm) (aristas : list arista_osm)
    (g : grafo) (todos_nodos : list Z) :
  bien_formado nodos aristas →
  construir nodos aristas = Some g →
  enumera todos_nodos (lista_ady g) →
  dom (lista_ady g) ⊆ dom (nodos_info g) ∧
  ∃ componentes g',
    descubrir (lista_ady g) todos_nodos = Some componentes ∧
    reducir todos_nodos g = Some (g', componente_principal componentes) ∧
    dom (lista_ady g') ⊆ dom (nodos_info g') ∧
    dom (lista_ady g') = componente_principal componentes ∧
    dom (nodos_info g') = componente_principal componentes ∧
    (∀ n l e, lista_ady g' !! n = Some l → e ∈ l →
              e.1.1 ∈ componente_principal componentes).
Proof.
  intros Hbf Hc Hen.
  destruct (construir_inv _ _ _ Hc) as (Hdom & _ & Hce). specialize (Hce Hbf).
  split; [now rewrite Hdom|].
  destruct (descubrir_spec (lista_ady g) todos_nodos) as (componentes & Hd & Hcub & _).
  assert (Hsub : ∀ c, c ∈ componentes → c ⊆ dom (lista_ady g)).
  { apply (descubrir_en_dom (lista_ady g) todos_nodos); [exact Hce| |exact Hd].
    intros n Hn. now apply (enumera_elem todos_nodos). }
  destruct (reducir_con_spec componentes g Hdom Hce Hsub) as (g' & Hr & Ha & Hi & Hv).
  { intros n Hn. apply Hcub. now apply (enumera_elem _ _ _ Hen). }
  exists componentes, g'. split; [exact Hd|]. split.
  { unfold reducir. rewrite Hd. exact Hr. }
  split; [now rewrite Ha, Hi|]. split; [exact Ha|]. split; [exact Hi|].
  intros n l e Hl He. apply (Hv n). exists l. split; [exact Hl|].
  apply elem_of_vecinos_de. now exists e.
Qed.

Lemma invariante_de_claves_witness :
  dom (lista_ady grafo_ABC) ⊆ dom (nodos_info grafo_ABC) ∧
  ∃ componentes g',
    descubrir (lista_ady grafo_ABC) [1; 2; 3] = Some componentes ∧
    reducir [1; 2; 3] grafo_ABC = Some (g', componente_principal componentes).
Proof.
  destruct (invariante_de_claves nodos_ABC aristas_ABC grafo_ABC [1; 2; 3])
    as (H1 & componentes & g' & H2 & H3 & _).
  - apply (bool_decide_unpack _). vm_compute. exact I.
  - vm_compute. reflexivity.
  - apply (bool_decide_unpack _). vm_compute. exact I.
  - split; [exact H1|]. exists componentes, g'. now split.
Defined.

(** When every node can be reached from the first one iterated, the
    discovery finds exactly one component. *)
Lemma descubrir_bucle_visitados (grafo_adj : gmap Z (list entrada))
    (cs : list (gset Z)) (vg : gset Z) (orden : list Z) :
  (∀ n, n ∈ orden → n ∈ vg) → descubrir_bucle grafo_adj (cs, vg) orden = Some (cs, vg).
Proof.
  induction orden as [|n orden IH]; intros Hv; cbn [descubrir_bucle]; [reflexivity|].
  unfold paso_descubrir. cbn [fst snd].
  rewrite decide_True by (apply Hv; left). cbn [mbind option_bind].
  apply IH. intros m Hm. apply Hv. now right.
Qed.

Lemma descubrir_conexo (grafo_adj : gmap Z (list entrada)) (n0 : Z) (resto : list Z) :
  (∀ n, n ∈ resto → rtc (arco grafo_adj) n0 n) →
  ∃ c, BFS_componente grafo_adj n0 = Some c ∧
       descubrir grafo_adj (n0 :: resto) = Some [c].
Proof.
  intros Hr. destruct (BFS_componente_total grafo_adj n0) as [c Hc].
  exists c. split; [exact Hc|].
  unfold descubrir. cbn [descubrir_bucle]. unfold paso_descubrir. cbn [fst snd].
  rewrite decide_False by set_solver. rewrite Hc. cbn [mbind option_bind app].
  rewrite descubrir_bucle_visitados; [reflexivity|].
  intros n Hn. apply elem_of_union. right.
  apply (BFS_componente_alcanzables _ _ _ Hc). now apply Hr.
Qed.

Lemma reducir_una (todos_nodos : list Z) (g : grafo) (componentes : list (gset Z)) :
  descubrir (lista_ady g) todos_nodos = Some componentes →
  (length componentes ≤ 1)%nat →
  reducir todos_nodos g = Some (g, componente_principal componentes).
Proof.
  intros Hd Hl. unfold reducir. rewrite Hd. cbn [mbind option_bind].
  unfold reducir_con. cbv zeta.
  now rewrite length_ordenar_componentes, decide_True by exact Hl.
Qed.

(** C7.  If the full node set forms exactly one component, be it that
    the discovery finds exactly one component or that the nodes are
    mutually reachable, the reducer returns the node-attribute map and the
    adjacency map unchanged; hence running it a second time on its own
    result gives the same maps as running it once. *)
Theorem reductor_identidad (todos_nodos : list Z) (g : grafo) :
  (∃ comp, descubrir (lista_ady g) todos_nodos = Some [comp])
  ∨ (enumera todos_nodos (lista_ady g) ∧ conexo (lista_ady g)) →
  (∃ principal, reducir todos_nodos g = Some (g, principal)) ∧
  (reducir todos_nodos g ≫= λ r, reducir todos_nodos r.1) = reducir todos_nodos g.
Proof.
  intros H.
  assert (Hc : ∃ componentes, descubrir (lista_ady g) todos_nodos = Some componentes
                              ∧ (length componentes ≤ 1)%nat).
  { destruct H as [[comp Hd]|[Hen Hcx]].
    - exists [comp]. split; [exact Hd|]. cbn. lia.
    - destruct todos_nodos as [|n0 resto].
      + exists []. split; [reflexivity|]. cbn. lia.
      + destruct (descubrir_conexo (lista_ady g) n0 resto) as (c & _ & Hd).
        * intros n Hn. apply Hcx; apply (enumera_elem _ _ _ Hen); [left|now right].
        * exists [c]. split; [exact Hd|]. cbn. lia. }
  destruct Hc as (componentes & Hd & Hl).
  pose proof (reducir_una todos_nodos g componentes Hd Hl) as E.
  split; [eexists; exact E|]. rewrite E. cbn [mbind option_bind fst]. exact E.
Qed.

Lemma reductor_identidad_witness :
  ∃ principal, reducir [1; 2; 3] grafo_ABC = Some (grafo_ABC, principal).
Proof.
  apply (reductor_identidad [1; 2; 3] grafo_ABC).
  left. exists {[1; 2; 3]}. vm_compute. reflexivity.
Defined.

(** ** Subgraph sampler *)

Section MuestreoProps.

Context {G : Type} `{!Azar G}.
Context (ady : gmap Z (list entrada)).

(** The inner loop appends to the queue nodes that were not visited,
    each once, and marks them visited; they are among the neighbours
    offered. *)
Lemma fold_encolar (largo : nat) (vecinos cola : list Z) (vis : gset Z) :
  ∃ nuevos,
    fold_left (encolar largo) vecinos (cola, vis)
    = (cola ++ nuevos, list_to_set nuevos ∪ vis) ∧
    NoDup nuevos ∧ ∀ x, x ∈ nuevos → x ∈ vecinos ∧ x ∉ vis.
Proof.
  revert cola vis. induction vecinos as [|v vecinos IH]; intros cola vis.
  - exists []. cbn. split; [|split].
    + rewrite app_nil_r. f_equal. set_solver.
    + constructor.
    + intros x Hx. inversion Hx.
  - cbn [fold_left]. unfold encolar at 2.
    destruct (decide ((v ∉ vis) ∧ (largo + length cola < 1000)%nat)) as [[Hv _]|_].
    + destruct (IH (cola ++ [v]) ({[v]} ∪ vis)) as (nuevos & E & Hnd & Hn).
      exists (v :: nuevos). split; [|split].
      * rewrite E, <- app_assoc. cbn. f_equal. set_solver.
      * constructor; [|exact Hnd]. intros Hin. apply Hn in Hin. set_solver.
      * intros x [->|Hx]%elem_of_cons; [split; [left|exact Hv]|].
        apply Hn in Hx as [Hx Hx']. split; [now right|set_solver].
    + destruct (IH cola vis) as (nuevos & E & Hnd & Hn).
      exists nuevos. split; [exact E|]. split; [exact Hnd|].
      intros x Hx. apply Hn in Hx as [Hx Hx']. split; [now right|exact Hx'].
Qed.

Lemma muestreo_bucle_spec (S : gset Z) (fuel : nat) (s : G)
    (cola : list Z) (vis : gset Z) (sub : list Z) :
  (∀ a b, a ∈ S → arco ady a b → b ∈ S) →
  estado_ok S cola vis sub →
  (100 - length sub ≤ fuel)%nat →
  ∃ sub' s',
    muestreo_bucle fuel ady s cola vis sub = Some (sub', s') ∧
    NoDup sub' ∧ (length sub' ≤ 100)%nat ∧ (∀ x, x ∈ sub' → x ∈ S).
Proof.
  intros HS. revert s cola vis sub.
  induction fuel as [|fuel IH]; intros s cola vis sub (Hnd & Hvis & Hlen & Hin) Hf.
  - assert (length sub = 100)%nat by lia.
    exists sub, s. split.
    + destruct cola; cbn; [reflexivity|]. now rewrite decide_False by lia.
    + split; [now apply NoDup_app in Hnd as [? _]|]. split; [lia|].
      intros x Hx. apply Hin, elem_of_app. now left.
  - destruct cola as [|nodo resto]; cbn [muestreo_bucle].
    { exists sub, s. split; [reflexivity|]. rewrite app_nil_r in *. auto. }
    destruct (decide (length sub < 100)%nat) as [Hlt|Hge].
    2:{ exists sub, s. split; [reflexivity|].
        split; [now apply NoDup_app in Hnd as [? _]|]. split; [lia|].
        intros x Hx. apply Hin, elem_of_app. now left. }
    set (vecinos := map (λ vecino_info : entrada, vecino_info.1.1)
                        (default [] (ady !! nodo))).
    pose proof (shuffle_perm s vecinos) as Hperm.
    destruct (shuffle s vecinos) as [vecinos' s1]. cbn [fst] in Hperm.
    destruct (fold_encolar (length (sub ++ [nodo])) vecinos' resto vis)
      as (nuevos & E & Hnn & Hn).
    rewrite E. apply IH.
    + assert (Hnodo : nodo ∈ S) by (apply Hin; set_solver).
      assert (Hnv : ∀ x, x ∈ nuevos → (x ∉ vis) ∧ x ∈ S).
      { intros x Hx. apply Hn in Hx as [Hx Hx']. split; [exact Hx'|].
        rewrite Hperm in Hx. unfold vecinos in Hx.
        apply (HS nodo x Hnodo). apply vecinos_default.
        unfold vecinos_de. now apply elem_of_list_to_set. }
      assert (Ea : (sub ++ [nodo]) ++ resto ++ nuevos = (sub ++ nodo :: resto) ++ nuevos)
        by (now rewrite <- !app_assoc).
      unfold estado_ok. rewrite Ea.
      split; [|split; [|split]].
      * apply NoDup_app. split; [exact Hnd|]. split; [|exact Hnn].
        intros x Hx Hx'. apply Hnv in Hx' as [Hx' _]. now apply Hx', Hvis.
      * intros x Hx.
        apply elem_of_app in Hx as [Hx|Hx].
        -- apply elem_of_union. right. now apply Hvis.
        -- apply elem_of_union. left. now apply elem_of_list_to_set.
      * rewrite length_app. cbn. lia.
      * intros x Hx.
        apply elem_of_app in Hx as [Hx|Hx]; [now apply Hin|now apply Hnv].
    + rewrite length_app. cbn. lia.
Qed.

(** Distinct keys that are not in the sample are at least as many as the
    keys beyond the size of the sample. *)
Lemma extras_suficientes (claves sub : list Z) :
  NoDup claves →
  (length claves ≤ length (filter (λ n, n ∉ sub) claves) + length sub)%nat.
Proof.
  intros Hnd.
  pose proof (filter_app_complement (λ n, n ∈ sub) claves) as Hp.
  apply Permutation_length in Hp. rewrite length_app in Hp.
  assert (Hle : (length (filter (λ n, n ∈ sub) claves) ≤ length sub)%nat).
  { apply submseteq_length, NoDup_submseteq.
    - now apply NoDup_filter.
    - intros x Hx. now apply list_elem_of_filter in Hx as [Hx _]. }
  lia.
Qed.

Lemma completar_spec (s : G) (claves sub : list Z) :
  NoDup claves → NoDup sub → (length sub ≤ 100)%nat → (100 < length claves)%nat →
  let r := (completar s claves sub).1 in
  length r = 100%nat ∧ NoDup r ∧ ∀ x, x ∈ r → x ∈ sub ∨ x ∈ claves.
Proof.
  intros Hc Hs Hl Hn. unfold completar.
  destruct (decide (length sub < 100)%nat) as [Hlt|Hge].
  2:{ cbn. split; [lia|]. split; [exact Hs|]. auto. }
  pose proof (shuffle_perm s (filter (λ n, n ∉ sub) claves)) as Hperm.
  destruct (shuffle s (filter (λ n, n ∉ sub) claves)) as [extras s1].
  cbn [fst] in *.
  pose proof (extras_suficientes claves sub Hc) as He.
  rewrite <- (Permutation_length Hperm) in He.
  rewrite Nat.min_l by lia.
  split; [|split].
  - rewrite length_app, length_take. lia.
  - apply NoDup_app. split; [exact Hs|]. split.
    + intros x Hx Hx'%subseteq_take. rewrite Hperm in Hx'.
      now apply list_elem_of_filter in Hx' as [Hx' _].
    + apply (sublist_NoDup _ extras); [|apply sublist_take].
      rewrite Hperm. now apply NoDup_filter.
  - intros x [Hx|Hx%subseteq_take]%elem_of_app; [now left|right].
    rewrite Hperm in Hx. now apply list_elem_of_filter in Hx as [_ Hx].
Qed.

End MuestreoProps.

Lemma universo_cerrado (ady : gmap Z (list entrada)) :
  cerrado ady → universo ady = dom ady.
Proof.
  intros Hc. apply set_eq. intros x. rewrite universo_spec.
  split; [|now left]. intros [Hx|(n & l & Hl & Hx)]; [exact Hx|].
  apply (Hc n x). now exists l.
Qed.

Lemma enumera_length (claves : list Z) (ady : gmap Z (list entrada)) :
  enumera claves ady → length claves = size ady.
Proof.
  intros [Hnd He]. rewrite <- size_dom, <- He. symmetry. now apply size_list_to_set.
Qed.

(** C2.  For every adjacency map, every order of its keys and every
    random source, the sampler returns a list of distinct nodes; it has
    exactly 100 nodes when the graph has at least 100, and it is the list
    of all the keys when the graph has fewer (the empty list for the empty
    graph).  On an adjacency whose neighbours are keys the sample is a
    subset of the keys. *)
Theorem tamanio_de_la_muestra {G : Type} `{!Azar G}
    (ady : gmap Z (list entrada)) (claves : list Z) (s : G) :
  enumera claves ady →
  ∃ sub s',
    subgrafo_nodos ady claves s = Some (sub, s') ∧ NoDup sub ∧
    ((100 ≤ size ady)%nat → length sub = 100%nat) ∧
    ((size ady < 100)%nat → sub = claves ∧ list_to_set sub = dom ady) ∧
    (size ady = 0%nat → sub = []) ∧
    (cerrado ady → ∀ x, x ∈ sub → x ∈ dom ady).
Proof.
  intros Hen. pose proof (enumera_length _ _ Hen) as Hlen.
  destruct Hen as [Hnd Hdom]. unfold subgrafo_nodos. rewrite <- Hlen.
  destruct (decide (length claves ≤ 100)%nat) as [Hle|Hgt].
  - exists claves, s. split; [reflexivity|]. split; [exact Hnd|].
    split; [lia|]. split; [auto|]. split.
    + intros H0. rewrite H0 in Hlen. now apply nil_length_inv.
    + intros _ x Hx. rewrite <- Hdom. now apply elem_of_list_to_set.
  - assert (Hne : claves ≠ []) by (intros ->; cbn in Hgt; lia).
    pose proof (choice_elem s claves Hne) as Hch.
    unfold random_choice. destruct claves as [|k claves']; [congruence|].
    set (claves := k :: claves') in *.
    destruct (choice s claves) as [nodo_inicio s1]. cbn [fst] in Hch.
    cbn [mbind option_bind].
    assert (Hi : nodo_inicio ∈ universo ady).
    { apply universo_spec. left. rewrite <- Hdom. now apply elem_of_list_to_set. }
    destruct (muestreo_bucle_spec ady (universo ady) 100 s1 [nodo_inicio]
                {[nodo_inicio]} [])
      as (sub & s2 & E & Hsnd & Hsl & Hsin).
    { intros a b _ (l & Hl & Hb). now apply (vecinos_en_universo ady a l). }
    { split; [|split; [|split]]; cbn.
      - apply NoDup_singleton.
      - intros x ->%list_elem_of_singleton. now apply elem_of_singleton.
      - lia.
      - intros x ->%list_elem_of_singleton. exact Hi. }
    { cbn. lia. }
    rewrite E. cbn [mbind option_bind].
    destruct (completar_spec s2 claves sub Hnd Hsnd Hsl ltac:(lia)) as (Hr1 & Hr2 & Hr3).
    destruct (completar s2 claves sub) as [r s3]. cbn [fst] in *.
    exists r, s3. split; [reflexivity|]. split; [exact Hr2|].
    split; [auto|]. split; [lia|]. split; [lia|].
    intros Hce x Hx. destruct (Hr3 x Hx) as [Hs|Hc].
    + rewrite <- (universo_cerrado ady Hce). now apply Hsin.
    + rewrite <- Hdom. now apply elem_of_list_to_set.
Qed.

Lemma tamanio_de_la_muestra_witness :
  ∃ sub s',
    subgrafo_nodos (Azar0 := azar_fijo) (anillo 150) (seqZ 0 150) tt = Some (sub, s') ∧
    NoDup sub ∧ length sub = 100%nat.
Proof.
  destruct (tamanio_de_la_muestra (Azar0 := azar_fijo) (anillo 150) (seqZ 0 150) tt)
    as (sub & s' & E & Hnd & H100 & _).
  - apply (bool_decide_unpack _). vm_compute. exact I.
  - exists sub, s'. split; [exact E|]. split; [exact Hnd|].
    apply H100. apply (bool_decide_unpack _). vm_compute. exact I.
Defined.

Example muestra_pequena :
  subgrafo_nodos (Azar0 := azar_fijo) (lista_ady grafo_ABC) [1; 2; 3] tt
  = Some ([1; 2; 3], tt).
Proof. reflexivity. Qed.

Example muestra_vacia :
  subgrafo_nodos (Azar0 := azar_fijo) ∅ [] tt = Some ([], tt).
Proof. reflexivity. Qed.

(** ** Component finder: the family of components *)

Section Particion.

Context (grafo_adj : gmap Z (list entrada)).
Hypothesis Hsim : simetrico grafo_adj.

Lemma alcanzable_sim (a b : Z) :
  rtc (arco grafo_adj) a b → rtc (arco grafo_adj) b a.
Proof.
  induction 1 as [|a b c Hab _ IH]; [apply rtc_refl|].
  eapply rtc_r; [exact IH|]. now apply Hsim.
Qed.

(** On a symmetric adjacency the traversals from two nodes are equal or
    disjoint. *)
Lemma BFS_clases (n m : Z) (cn cm : gset Z) (x : Z) :
  BFS_componente grafo_adj n = Some cn → BFS_componente grafo_adj m = Some cm →
  x ∈ cn → x ∈ cm → cn = cm.
Proof.
  intros Hn Hm Hxn Hxm.
  pose proof (BFS_componente_alcanzables _ _ _ Hn) as Rn.
  pose proof (BFS_componente_alcanzables _ _ _ Hm) as Rm.
  apply Rn in Hxn. apply Rm in Hxm.
  assert (Hnm : rtc (arco grafo_adj) n m).
  { etrans; [exact Hxn|]. now apply alcanzable_sim. }
  apply set_eq. intros y. rewrite Rn, Rm. split; intros Hy.
  - etrans; [|exact Hy]. now apply alcanzable_sim.
  - etrans; [exact Hnm|exact Hy].
Qed.

(** On a symmetric adjacency whose neighbours are keys the discovered
    components partition the keys, whatever the order of iteration. *)
Lemma particion_si_simetrico (orden : list Z) (componentes : list (gset Z)) :
  cerrado grafo_adj → enumera orden grafo_adj →
  descubrir grafo_adj orden = Some componentes →
  particion componentes (dom grafo_adj).
Proof.
  intros Hce Hen Hd.
  destruct (descubrir_spec grafo_adj orden) as (cs & E & Hcub & Hsp).
  rewrite Hd in E. injection E as <-.
  split.
  - apply set_eq. intros x. split.
    + intros (c & Hc & Hx)%elem_of_union_list.
      eapply (descubrir_en_dom grafo_adj orden); eauto.
      intros n Hn. now apply (enumera_elem orden).
    + intros Hx. apply Hcub. now apply (enumera_elem orden grafo_adj).
  - assert (Hlt : ∀ i j ci cj, (i < j)%nat → componentes !! i = Some ci →
                               componentes !! j = Some cj → ci ## cj).
    { intros i j ci cj Hij Hi Hj x Hxi Hxj.
      destruct (Hsp i ci Hi) as (m & _ & _ & Hm).
      destruct (Hsp j cj Hj) as (n & _ & Hfresh & Hn).
      rewrite (BFS_clases m n ci cj x Hm Hn Hxi Hxj) in Hi.
      apply Hfresh. apply elem_of_union_list. exists cj. split.
      - apply list_elem_of_lookup. exists i. now rewrite lookup_take_lt.
      - now apply (BFS_componente_inicio grafo_adj n). }
    intros i j ci cj Hne Hi Hj.
    destruct (Nat.lt_total i j) as [Hij|[Hij|Hij]]; [eauto|congruence|].
    symmetry. eauto.
Qed.

(** The family found does not depend on the order of iteration. *)
Lemma componentes_sin_orden (orden1 orden2 : list Z) (cs1 cs2 : list (gset Z)) :
  enumera orden1 grafo_adj → enumera orden2 grafo_adj →
  descubrir grafo_adj orden1 = Some cs1 → descubrir grafo_adj orden2 = Some cs2 →
  ∀ c, c ∈ cs1 → c ∈ cs2.
Proof.
  intros He1 He2 Hd1 Hd2 c Hc.
  destruct (descubrir_spec grafo_adj orden1) as (cs & E & _ & Hsp1).
  rewrite Hd1 in E. injection E as <-.
  destruct (descubrir_spec grafo_adj orden2) as (cs & E & Hcub2 & Hsp2).
  rewrite Hd2 in E. injection E as <-.
  apply list_elem_of_lookup in Hc as [i Hi].
  destruct (Hsp1 i c Hi) as (n & Hn & _ & Hb).
  assert (Hn2 : n ∈ orden2).
  { apply (enumera_elem orden2 grafo_adj n He2).
    now apply (enumera_elem orden1 grafo_adj n He1). }
  apply Hcub2, elem_of_union_list in Hn2 as (c' & Hc' & Hnc').
  assert (Hc'' := Hc'). apply list_elem_of_lookup in Hc'' as [j Hj].
  destruct (Hsp2 j c' Hj) as (m & _ & _ & Hm).
  pose proof (BFS_componente_inicio grafo_adj n c Hb) as Hnc.
  now rewrite (BFS_clases n m c c' n Hb Hm Hnc Hnc').
Qed.

End Particion.

(** C5 fails on the code.  With one one-way street from node 2 to node 1
    the discovery in the order 1, 2 returns the components {1} and {1, 2},
    which overlap; in the order 2, 1 it returns the single component
    {1, 2}. *)
Theorem componentes_solapadas :
  construir nodos_via aristas_via = Some grafo_via ∧
  descubrir (lista_ady grafo_via) [1; 2] = Some [ {[1]}; {[1; 2]} ] ∧
  descubrir (lista_ady grafo_via) [2; 1] = Some [ {[1; 2]} ] ∧
  ¬ particion [ {[1]}; {[1; 2]} ] (dom (lista_ady grafo_via)).
Proof.
  split; [vm_compute; reflexivity|].
  split; [vm_compute; reflexivity|].
  split; [vm_compute; reflexivity|].
  intros [_ Hdis].
  specialize (Hdis 0%nat 1%nat {[1]} {[1; 2]} ltac:(lia) eq_refl eq_refl).
  apply (Hdis 1); set_solver.
Qed.


(** * Further properties *)

(** ** Builder: failure, result and content *)

Section ConstructorMas.



Lemma paso_arista_entradas (ady ady' : gmap Z (list entrada)) (a : arista_osm) (n : Z) :
  paso_arista ady a = Some ady' →
  ady' !! n = (λ l, l ++ entradas_de a n) <$> ady !! n.
Proof.
  intros Hp. unfold entradas_de.
  destruct (py_float (longitud (a_data a))) as [largo|] eqn:Hn.
  2:{ unfold paso_arista, metros_a_minutos_py in Hp. unfold py_float in Hn. rewrite Hn in Hp. discriminate. }
  rewrite (paso_arista_insertar ady a largo Hn) in Hp. fold (es_doble a) in Hp.
  unfold insertar_arista in Hp.
  destruct (ady_append ady (a_u a) _) as [ady1|] eqn:H1; [|discriminate].
  apply ady_append_Some in H1 as (l & Hl & ->). cbn [mbind option_bind] in Hp.
  destruct (es_doble a) eqn:Hd.
  - apply ady_append_Some in Hp as (l' & Hl' & ->).
    destruct (decide (a_v a = n)) as [Hv|Hv].
    + rewrite Hv in *. rewrite lookup_insert_eq.
      rewrite (decide_True (P := true = true ∧ n = n)) by auto.
      destruct (decide (a_u a = n)) as [Hu|Hu].
      * rewrite Hu in *. rewrite lookup_insert_eq in Hl'. injection Hl' as <-.
        rewrite Hl. cbn. now rewrite <- app_assoc.
      * rewrite lookup_insert_ne in Hl' by exact Hu. now rewrite Hl'.
    + rewrite lookup_insert_ne by exact Hv.
      rewrite (decide_False (P := true = true ∧ a_v a = n)) by tauto.
      rewrite app_nil_r.
      destruct (decide (a_u a = n)) as [Hu|Hu].
      * rewrite Hu in *. now rewrite lookup_insert_eq, Hl.
      * rewrite lookup_insert_ne by exact Hu.
        destruct (ady !! n); cbn; [now rewrite app_nil_r|reflexivity].
  - injection Hp as <-.
    rewrite (decide_False (P := false = true ∧ a_v a = n)) by (intros [? _]; discriminate).
    rewrite app_nil_r.
    destruct (decide (a_u a = n)) as [Hu|Hu].
    + rewrite Hu in *. now rewrite lookup_insert_eq, Hl.
    + rewrite lookup_insert_ne by exact Hu.
      destruct (ady !! n); cbn; [now rewrite app_nil_r|reflexivity].
Qed.

Lemma extraer_aristas_entradas (aristas : list arista_osm)
    (ady ady' : gmap Z (list entrada)) (n : Z) :
  extraer_aristas ady aristas = Some ady' →
  ady' !! n = (λ l, l ++ flat_map (λ a, entradas_de a n) aristas) <$> ady !! n.
Proof.
  revert ady. induction aristas as [|a aristas IH]; intros ady; cbn [extraer_aristas].
  - intros [= <-]. cbn. destruct (ady !! n); cbn; [now rewrite app_nil_r|reflexivity].
  - destruct (paso_arista ady a) as [ady1|] eqn:Hp; [|discriminate].
    cbn [mbind option_bind]. intros He.
    rewrite (IH _ He), (paso_arista_entradas _ _ _ n Hp).
    destruct (ady !! n); cbn; [now rewrite <- app_assoc|reflexivity].
Qed.


End ConstructorMas.




Lemma construir_entradas (nodos : list nodo_osm) (aristas : list arista_osm)
    (g : grafo) (n : Z) :
  construir nodos aristas = Some g →
  lista_ady g !! n
  = if decide (n ∈ n_nodo <$> nodos)
    then Some (flat_map (λ a, entradas_de a n) aristas) else None.
Proof.
  unfold construir.
  destruct (extraer_aristas _ aristas) as [ady|] eqn:He; [|discriminate].
  intros [= <-]. cbn [lista_ady].
  rewrite (extraer_aristas_entradas _ _ _ n He).
  destruct (decide (n ∈ n_nodo <$> nodos)) as [Hn|Hn].
  - now rewrite (extraer_nodos_ady _ _ Hn).
  - assert (Hd : n ∉ dom (lista_ady (extraer_nodos nodos))).
    { rewrite extraer_nodos_claves. now rewrite elem_of_list_to_set. }
    apply not_elem_of_dom in Hd. now rewrite Hd.
Qed.

(** X3.  In the graph the builder returns, the adjacency list of a
    declared node [n] is, in the order of the raw edges, the forward entry
    of every edge leaving [n] and the reverse entry of every two-way edge
    arriving at [n]; parallel edges are kept.  Undeclared nodes have no
    list. *)
Theorem lista_ady_contenido (nodos : list nodo_osm) (aristas : list arista_osm)
    (g : grafo) (n : Z) :
  construir nodos aristas = Some g →
  lista_ady g !! n
  = if decide (n ∈ n_nodo <$> nodos)
    then Some (flat_map (λ a, entradas_de a n) aristas) else None.
Proof. apply construir_entradas. Qed.

Lemma lista_ady_contenido_witness :
  lista_ady grafo_ABC !! 2
  = Some (flat_map (λ a, entradas_de a 2) aristas_ABC).
Proof.
  apply (lista_ady_contenido nodos_ABC aristas_ABC grafo_ABC 2).
  vm_compute. reflexivity.
Defined.

(** X4.  The builder fabricates no entry: every entry [(v, length, time)]
    of the list of [n] comes from a raw edge between [n] and [v], leaving
    [n] or two-way and arriving at [n], whose length it carries; its time
    is the conversion of its length, and is not negative when the length
    is not. *)
Theorem entradas_provienen (nodos : list nodo_osm) (aristas : list arista_osm)
    (g : grafo) (n : Z) (l : list entrada) (e : entrada) :
  construir nodos aristas = Some g →
  lista_ady g !! n = Some l → e ∈ l →
  e.2 = metros_a_minutos e.1.2 ∧
  ((0 <= e.1.2)%Q → (0 <= e.2)%Q) ∧
  ∃ a, a ∈ aristas ∧ py_float (longitud (a_data a)) = Some e.1.2 ∧
       ((a_u a = n ∧ a_v a = e.1.1)
        ∨ (a_v a = n ∧ a_u a = e.1.1 ∧ es_doble a = true)).
Proof.
  intros Hc Hl He. rewrite (construir_entradas _ _ _ n Hc) in Hl.
  destruct (decide (n ∈ n_nodo <$> nodos)) as [_|_]; [|discriminate].
  injection Hl as <-.
  apply list_elem_of_In, in_flat_map in He as (a & Ha & He).
  apply list_elem_of_In in Ha, He. unfold entradas_de in He.
  destruct (py_float (longitud (a_data a))) as [largo|] eqn:Hn; [|inversion He].
  assert (Ht : e.2 = metros_a_minutos e.1.2 ∧
               ((a_u a = n ∧ a_v a = e.1.1 ∧ e.1.2 = largo)
                ∨ (a_v a = n ∧ a_u a = e.1.1 ∧ es_doble a = true ∧ e.1.2 = largo))).
  { apply elem_of_app in He as [He|He].
    - destruct (decide (a_u a = n)); [|inversion He].
      apply list_elem_of_singleton in He. subst e. cbn. auto.
    - destruct (decide (es_doble a = true ∧ a_v a = n)) as [[Hd Hv]|]; [|inversion He].
      apply list_elem_of_singleton in He. subst e. cbn. auto 10. }
  destruct Ht as [Ht Hor]. split; [exact Ht|]. split.
  - intros Hpos. rewrite Ht. now apply metros_a_minutos_no_negativo.
  - exists a. split; [exact Ha|].
    destruct Hor as [(Hu & Hv & ->)|(Hv & Hu & Hd & ->)]; auto.
Qed.

Lemma entradas_provienen_witness :
  ∃ a, a ∈ aristas_ABC ∧ py_float (longitud (a_data a)) = Some 1000%Q ∧
       ((a_u a = 1 ∧ a_v a = 2) ∨ (a_v a = 1 ∧ a_u a = 2 ∧ es_doble a = true)).
Proof.
  refine (proj2 (proj2 (entradas_provienen nodos_ABC aristas_ABC grafo_ABC 1
                          [(2, 1000%Q, metros_a_minutos 1000)]
                          (2, 1000%Q, metros_a_minutos 1000) _ _ _))).
  - vm_compute. reflexivity.
  - vm_compute. reflexivity.
  - apply list_elem_of_singleton. reflexivity.
Defined.

(** ** The count of the edges *)

Section Grados.

Lemma sumar_grados_grados (ady : gmap Z (list entrada)) (claves : list Z) (total : nat) :
  (∀ n, n ∈ claves → n ∈ dom ady) →
  sumar_grados ady claves total = Some (total + grados ady claves)%nat.
Proof.
  revert total. induction claves as [|n claves IH]; intros total Hd; cbn.
  - f_equal. lia.
  - destruct (proj1 (elem_of_dom ady n) (Hd n ltac:(left))) as [l Hl].
    rewrite Hl. cbn. rewrite IH by (intros m Hm; apply Hd; now right).
    f_equal. lia.
Qed.

Lemma grados_insert_fuera (ady : gmap Z (list entrada)) (claves : list Z) k l :
  k ∉ claves → grados (<[k := l]> ady) claves = grados ady claves.
Proof.
  induction claves as [|n claves IH]; intros Hk; cbn; [reflexivity|].
  rewrite lookup_insert_ne by (intros ->; apply Hk; left).
  rewrite IH; [reflexivity|]. intros Hin. apply Hk. now right.
Qed.

Lemma grados_append (ady ady' : gmap Z (list entrada)) (claves : list Z) k e :
  NoDup claves → k ∈ claves → ady_append ady k e = Some ady' →
  grados ady' claves = S (grados ady claves).
Proof.
  intros Hnd Hk (l & Hl & ->)%ady_append_Some.
  induction claves as [|n claves IH]; [inversion Hk|].
  apply NoDup_cons in Hnd as [Hn Hnd]. cbn.
  destruct (decide (n = k)) as [->|Hne].
  - rewrite lookup_insert_eq, Hl. cbn. rewrite length_app. cbn.
    rewrite grados_insert_fuera by exact Hn. lia.
  - rewrite lookup_insert_ne by congruence.
    apply elem_of_cons in Hk as [->|Hk]; [congruence|].
    rewrite IH by assumption. lia.
Qed.

Lemma grados_paso_arista (ady ady' : gmap Z (list entrada)) (claves : list Z)
    (a : arista_osm) :
  enumera claves ady → paso_arista ady a = Some ady' →
  grados ady' claves
  = (grados ady claves + 1 + (if es_doble a then 1 else 0))%nat.
Proof.
  intros Hen Hp.
  destruct (py_float (longitud (a_data a))) as [largo|] eqn:Hn.
  2:{ unfold paso_arista, metros_a_minutos_py in Hp. unfold py_float in Hn. rewrite Hn in Hp. discriminate. }
  rewrite (paso_arista_insertar ady a largo Hn) in Hp. fold (es_doble a) in Hp.
  unfold insertar_arista in Hp.
  destruct (ady_append ady (a_u a) _) as [ady1|] eqn:H1; [|discriminate].
  cbn [mbind option_bind] in Hp.
  pose proof (ady_append_dom _ _ _ _ H1) as Hd1.
  assert (Hu : a_u a ∈ claves).
  { apply (enumera_elem _ _ _ Hen).
    apply ady_append_Some in H1 as (l & Hl & _). apply elem_of_dom. now exists l. }
  pose proof (grados_append _ _ claves _ _ (proj1 Hen) Hu H1) as E1.
  destruct (es_doble a).
  - assert (Hv : a_v a ∈ claves).
    { apply (enumera_elem _ _ _ Hen). rewrite <- Hd1.
      apply ady_append_Some in Hp as (l & Hl & _). apply elem_of_dom. now exists l. }
    rewrite (grados_append _ _ claves _ _ (proj1 Hen) Hv Hp), E1. lia.
  - injection Hp as <-. rewrite E1. lia.
Qed.

Lemma grados_extraer_aristas (aristas : list arista_osm)
    (ady ady' : gmap Z (list entrada)) (claves : list Z) :
  enumera claves ady → extraer_aristas ady aristas = Some ady' →
  grados ady' claves
  = (grados ady claves + length aristas
     + length (filter (λ a, es_doble a = true) aristas))%nat.
Proof.
  revert ady. induction aristas as [|a aristas IH]; intros ady Hen; cbn [extraer_aristas].
  - intros [= <-]. cbn. lia.
  - destruct (paso_arista ady a) as [ady1|] eqn:Hp; [|discriminate].
    cbn [mbind option_bind]. intros He.
    assert (Hen1 : enumera claves ady1).
    { destruct Hen as [Hnd Hd]. split; [exact Hnd|].
      destruct (paso_arista_inv _ _ _ Hp) as [Hd1 _]. congruence. }
    rewrite (IH _ Hen1 He), (grados_paso_arista _ _ _ _ Hen Hp).
    rewrite filter_cons. cbn [length].
    destruct (es_doble a); cbn.
    + rewrite decide_True by reflexivity. cbn. lia.
    + rewrite decide_False by discriminate. lia.
Qed.

Lemma grados_extraer_nodos (nodos : list nodo_osm) (claves : list Z) :
  grados (lista_ady (extraer_nodos nodos)) claves = 0%nat.
Proof.
  induction claves as [|n claves IH]; cbn; [reflexivity|]. rewrite IH.
  destruct (lista_ady (extraer_nodos nodos) !! n) as [l|] eqn:Hl; cbn; [|reflexivity].
  assert (Hn : n ∈ n_nodo <$> nodos).
  { apply (elem_of_list_to_set (C := gset Z)). rewrite <- extraer_nodos_claves.
    apply elem_of_dom. now exists l. }
  rewrite (extraer_nodos_ady _ _ Hn) in Hl. now injection Hl as <-.
Qed.

End Grados.

(** X5.  On the graph the builder returns, the sum of the lengths of the
    adjacency lists is the number of raw edges plus the number of two-way
    raw edges; [num_aristas] is half of it, rounded down: the number of raw
    edges when all are two-way, and fewer as soon as two are one-way. *)
Theorem num_aristas_cuenta (nodos : list nodo_osm) (aristas : list arista_osm)
    (g : grafo) (claves : list Z) :
  construir nodos aristas = Some g →
  enumera claves (lista_ady g) →
  let dobles := length (filter (λ a, es_doble a = true) aristas) in
  sumar_grados (lista_ady g) claves 0 = Some (length aristas + dobles)%nat ∧
  num_aristas (lista_ady g) claves = Some ((length aristas + dobles) / 2)%nat ∧
  (dobles = length aristas → num_aristas (lista_ady g) claves = Some (length aristas)) ∧
  ((dobles + 2 ≤ length aristas)%nat →
   ∃ k, num_aristas (lista_ady g) claves = Some k ∧ (k < length aristas)%nat).
Proof.
  intros Hc Hen dobles.
  assert (Hs : sumar_grados (lista_ady g) claves 0 = Some (length aristas + dobles)%nat).
  { rewrite sumar_grados_grados
      by (intros n Hn; now apply (enumera_elem _ _ _ Hen)).
    unfold construir in Hc.
    destruct (extraer_aristas _ aristas) as [ady|] eqn:He; [|discriminate].
    injection Hc as <-. cbn [lista_ady] in *.
    assert (Hen0 : enumera claves (lista_ady (extraer_nodos nodos))).
    { destruct Hen as [Hnd Hd]. split; [exact Hnd|].
      destruct (extraer_aristas_inv _ _ _ He) as [Hd' _]. congruence. }
    rewrite (grados_extraer_aristas _ _ _ _ Hen0 He), grados_extraer_nodos.
    reflexivity. }
  assert (Hn : num_aristas (lista_ady g) claves
               = Some ((length aristas + dobles) / 2)%nat).
  { unfold num_aristas. now rewrite Hs. }
  split; [exact Hs|]. split; [exact Hn|]. split.
  - intros E. rewrite Hn, E. f_equal.
    replace (length aristas + length aristas)%nat with (length aristas * 2)%nat by lia.
    now apply Nat.div_mul.
  - intros Hle. eexists. split; [exact Hn|].
    apply Nat.Div0.div_lt_upper_bound. lia.
Qed.

Lemma num_aristas_cuenta_witness :
  num_aristas (lista_ady grafo_ABC) [1; 2; 3] = Some ((2 + 1) / 2)%nat.
Proof.
  refine (proj1 (proj2 (num_aristas_cuenta nodos_ABC aristas_ABC grafo_ABC [1; 2; 3] _ _))).
  - vm_compute. reflexivity.
  - apply (bool_decide_unpack _). vm_compute. exact I.
Defined.

(** ** Traversal and discovery *)

Example construir_islas : construir nodos_islas aristas_islas = Some grafo_islas.
Proof. vm_compute. reflexivity. Qed.

(** X6.  [BFS_componente] always returns, and what it returns is the set
    of the nodes that can be reached from [inicio] along the adjacency
    entries; from a node without adjacency list it is that node alone. *)
Theorem BFS_componente_correcto (grafo_adj : gmap Z (list entrada)) (inicio : Z) :
  ∃ comp,
    BFS_componente grafo_adj inicio = Some comp ∧
    (∀ x, x ∈ comp ↔ rtc (arco grafo_adj) inicio x) ∧
    (grafo_adj !! inicio = None → comp = {[inicio]}).
Proof.
  destruct (BFS_componente_total grafo_adj inicio) as [comp Hc].
  pose proof (BFS_componente_alcanzables _ _ _ Hc) as Hr.
  exists comp. split; [exact Hc|]. split; [exact Hr|].
  intros Hn. apply set_eq. intros x. rewrite Hr, elem_of_singleton. split.
  - intros Hx. destruct Hx as [|a b c (l & Hl & _) _]; [reflexivity|congruence].
  - intros ->. apply rtc_refl.
Qed.

Section DescubrirMas.

Context (grafo_adj : gmap Z (list entrada)).

Lemma descubrir_bucle_length (orden : list Z) (st st' : list (gset Z) * gset Z) :
  descubrir_bucle grafo_adj st orden = Some st' →
  (length st'.1 ≤ length st.1 + length orden)%nat.
Proof.
  revert st. induction orden as [|n orden IH]; intros st; cbn [descubrir_bucle].
  - intros [= <-]. lia.
  - unfold paso_descubrir. destruct (decide (n ∈ st.2)); cbn [mbind option_bind].
    + intros H. apply IH in H. cbn. lia.
    + destruct (BFS_componente grafo_adj n) as [c|]; [|discriminate].
      cbn [mbind option_bind]. intros H. apply IH in H.
      cbn [fst] in H. rewrite length_app in H. cbn in *. lia.
Qed.

End DescubrirMas.

(** X7.  The discovery loop always returns.  Every node iterated belongs
    to some component; every component is the set of the nodes reachable
    from one of the iterated nodes, which it contains; and there are at
    most as many components as nodes. *)
Theorem descubrir_cubre (grafo_adj : gmap Z (list entrada)) (todos_nodos : list Z) :
  ∃ componentes,
    descubrir grafo_adj todos_nodos = Some componentes ∧
    (∀ n, n ∈ todos_nodos → ∃ c, c ∈ componentes ∧ n ∈ c) ∧
    (∀ c, c ∈ componentes →
          ∃ n, n ∈ todos_nodos ∧ n ∈ c ∧ ∀ x, x ∈ c ↔ rtc (arco grafo_adj) n x) ∧
    (length componentes ≤ length todos_nodos)%nat.
Proof.
  destruct (descubrir_spec grafo_adj todos_nodos) as (cs & Hd & Hcub & Hsp).
  exists cs. split; [exact Hd|]. split; [|split].
  - intros n Hn. apply Hcub, elem_of_union_list in Hn as (c & Hc & Hn). now exists c.
  - intros c [i Hi]%list_elem_of_lookup.
    destruct (Hsp i c Hi) as (n & Hn & _ & Hb). exists n. split; [exact Hn|].
    split; [now apply (BFS_componente_inicio grafo_adj)|].
    now apply BFS_componente_alcanzables.
  - unfold descubrir in Hd.
    destruct (descubrir_bucle grafo_adj ([], ∅) todos_nodos) as [st|] eqn:Hb;
      [|discriminate].
    injection Hd as <-. apply descubrir_bucle_length in Hb. cbn in Hb. lia.
Qed.

Section DosSentidos.

Context (nodos : list nodo_osm) (aristas : list arista_osm) (g : grafo).
Hypothesis Hbf : bien_formado nodos aristas.
Hypothesis Hdob : Forall (λ a, es_doble a = true) aristas.
Hypothesis Hc : construir nodos aristas = Some g.

(** With two-way streets only, every entry has its reverse, with the
    same length and time. *)
Lemma construir_reverso (n : Z) (l : list entrada) (e : entrada) :
  lista_ady g !! n = Some l → e ∈ l →
  ∃ l', lista_ady g !! e.1.1 = Some l' ∧ (n, e.1.2, e.2) ∈ l'.
Proof.
  intros Hl He. rewrite (construir_entradas _ _ _ n Hc) in Hl.
  destruct (decide (n ∈ n_nodo <$> nodos)) as [_|_]; [|discriminate].
  injection Hl as <-.
  apply list_elem_of_In, in_flat_map in He as (a & Ha & He).
  apply list_elem_of_In in Ha, He.
  unfold bien_formado in Hbf. rewrite Forall_forall in Hbf, Hdob.
  destruct (Hbf a Ha) as [Hu Hv]. pose proof (Hdob a Ha) as Hd.
  assert (Hin : e.1.1 ∈ n_nodo <$> nodos ∧ (n, e.1.2, e.2) ∈ entradas_de a e.1.1).
  { unfold entradas_de in *.
    destruct (py_float (longitud (a_data a))) as [largo|]; [|inversion He].
    apply elem_of_app in He as [He|He].
    - destruct (decide (a_u a = n)) as [<-|]; [|inversion He].
      apply list_elem_of_singleton in He. subst e. cbn. split; [exact Hv|].
      apply elem_of_app. right.
      rewrite decide_True by auto. left.
    - destruct (decide (es_doble a = true ∧ a_v a = n)) as [[_ <-]|]; [|inversion He].
      apply list_elem_of_singleton in He. subst e. cbn. split; [exact Hu|].
      apply elem_of_app. left. rewrite decide_True by reflexivity. left. }
  destruct Hin as [Hin1 Hin2].
  rewrite (construir_entradas _ _ _ e.1.1 Hc), decide_True by exact Hin1.
  eexists. split; [reflexivity|].
  apply list_elem_of_In, in_flat_map. exists a. split; now apply list_elem_of_In.
Qed.

Lemma construir_simetrico : simetrico (lista_ady g).
Proof.
  intros a b (l & Hl & Hb). apply elem_of_vecinos_de in Hb as (e & He & <-).
  destruct (construir_reverso a l e Hl He) as (l' & Hl' & Hin).
  exists l'. split; [exact Hl'|]. apply elem_of_vecinos_de.
  exists (a, e.1.2, e.2). split; [exact Hin|reflexivity].
Qed.

Lemma construir_cerrado : cerrado (lista_ady g).
Proof. now apply (construir_inv nodos aristas g Hc). Qed.

End DosSentidos.

(** X8.  When every raw edge is two-way, every adjacency entry has its
    reverse: if [(v, length, time)] is in the list of [n], then
    [(n, length, time)] is in the list of [v]. *)
Theorem entradas_reversas (nodos : list nodo_osm) (aristas : list arista_osm)
    (g : grafo) (n : Z) (l : list entrada) (e : entrada) :
  bien_formado nodos aristas →
  Forall (λ a, es_doble a = true) aristas →
  construir nodos aristas = Some g →
  lista_ady g !! n = Some l → e ∈ l →
  ∃ l', lista_ady g !! e.1.1 = Some l' ∧ (n, e.1.2, e.2) ∈ l'.
Proof. intros Hbf Hdob Hc. now apply (construir_reverso nodos aristas g). Qed.

Lemma entradas_reversas_witness :
  ∃ l', lista_ady grafo_islas !! 4 = Some l' ∧ (3, 250%Q, metros_a_minutos 250) ∈ l'.
Proof.
  apply (entradas_reversas nodos_islas aristas_islas grafo_islas 3
           [(4, 250%Q, metros_a_minutos 250)] (4, 250%Q, metros_a_minutos 250)).
  - apply (bool_decide_unpack _). vm_compute. exact I.
  - apply (bool_decide_unpack _). vm_compute. exact I.
  - vm_compute. reflexivity.
  - vm_compute. reflexivity.
  - apply list_elem_of_singleton. reflexivity.
Defined.

(** X9.  When every raw edge is two-way, the components the discovery
    finds partition the node set: their union is the set of the keys and
    they are pairwise disjoint, in whatever order the nodes are
    iterated. *)
Theorem componentes_particion (nodos : list nodo_osm) (aristas : list arista_osm)
    (g : grafo) (todos_nodos : list Z) (componentes : list (gset Z)) :
  bien_formado nodos aristas →
  Forall (λ a, es_doble a = true) aristas →
  construir nodos aristas = Some g →
  enumera todos_nodos (lista_ady g) →
  descubrir (lista_ady g) todos_nodos = Some componentes →
  particion componentes (dom (lista_ady g)).
Proof.
  intros Hbf Hdob Hc Hen Hd.
  apply (particion_si_simetrico (lista_ady g)) with (orden := todos_nodos);
    [now apply (construir_simetrico nodos aristas)
    |now apply (construir_cerrado nodos aristas)|exact Hen|exact Hd].
Qed.

Lemma componentes_particion_witness :
  particion [ {[1; 2]}; {[3; 4]} ] (dom (lista_ady grafo_islas)).
Proof.
  apply (componentes_particion nodos_islas aristas_islas grafo_islas [1; 2; 3; 4]).
  - apply (bool_decide_unpack _). vm_compute. exact I.
  - apply (bool_decide_unpack _). vm_compute. exact I.
  - vm_compute. reflexivity.
  - apply (bool_decide_unpack _). vm_compute. exact I.
  - vm_compute. reflexivity.
Defined.

(** X10.  When every raw edge is two-way, two iteration orders of the
    nodes give the same components, up to their order in the list. *)
Theorem componentes_mismo_conjunto (nodos : list nodo_osm) (aristas : list arista_osm)
    (g : grafo) (orden1 orden2 : list Z) (cs1 cs2 : list (gset Z)) :
  bien_formado nodos aristas →
  Forall (λ a, es_doble a = true) aristas →
  construir nodos aristas = Some g →
  enumera orden1 (lista_ady g) → enumera orden2 (lista_ady g) →
  descubrir (lista_ady g) orden1 = Some cs1 →
  descubrir (lista_ady g) orden2 = Some cs2 →
  cs1 ≡ₚ cs2.
Proof.
  intros Hbf Hdob Hc He1 He2 Hd1 Hd2.
  pose proof (construir_simetrico nodos aristas g Hbf Hdob Hc) as Hsim.
  pose proof (construir_cerrado nodos aristas g Hbf Hc) as Hce.
  assert (Hnd : ∀ orden cs, enumera orden (lista_ady g) →
                            descubrir (lista_ady g) orden = Some cs → NoDup cs).
  { intros orden cs He Hd.
    destruct (particion_si_simetrico _ Hsim orden cs Hce He Hd) as [_ Hdis].
    destruct (descubrir_spec (lista_ady g) orden) as (cs' & E & _ & Hsp).
    rewrite Hd in E. injection E as <-.
    apply NoDup_alt. intros i j c Hi Hj.
    destruct (decide (i = j)) as [|Hne]; [assumption|exfalso].
    destruct (Hsp i c Hi) as (n & _ & _ & Hb).
    apply (Hdis i j c c Hne Hi Hj n); now apply (BFS_componente_inicio (lista_ady g)). }
  apply NoDup_Permutation; [now apply (Hnd orden1)|now apply (Hnd orden2)|].
  intros c. split.
  - now apply (componentes_sin_orden (lista_ady g) Hsim orden1 orden2).
  - now apply (componentes_sin_orden (lista_ady g) Hsim orden2 orden1).
Qed.

Lemma componentes_mismo_conjunto_witness :
  ([ {[1; 2]}; {[3; 4]} ] : list (gset Z)) ≡ₚ [ {[3; 4]}; {[1; 2]} ].
Proof.
  apply (componentes_mismo_conjunto nodos_islas aristas_islas grafo_islas
           [1; 2; 3; 4] [4; 3; 2; 1]).
  - apply (bool_decide_unpack _). vm_compute. exact I.
  - apply (bool_decide_unpack _). vm_compute. exact I.
  - vm_compute. reflexivity.
  - apply (bool_decide_unpack _). vm_compute. exact I.
  - apply (bool_decide_unpack _). vm_compute. exact I.
  - vm_compute. reflexivity.
  - vm_compute. reflexivity.
Defined.

(** ** The sort of the components *)

Section OrdenCompleto.

(** The tuples the script sorts: the first component is the size of the
    second. *)
Local Abbreviation bien_formada := (Forall (λ p : nat * gset Z, p.1 = size p.2)).
Local Abbreviation menor := (λ p q : nat * gset Z, (size p.2 ≤ size q.2)%nat).

Lemma tupla_lt_bien_formada (p q : nat * gset Z) :
  p.1 = size p.2 → q.1 = size q.2 →
  tupla_lt p q = bool_decide (size p.2 < size q.2)%nat.
Proof.
  destruct p as [n a], q as [m b]. cbn. intros -> ->. apply tupla_lt_size.
Qed.

Lemma insertar_ordenada (x : nat * gset Z) (l : list (nat * gset Z)) :
  bien_formada (x :: l) → StronglySorted menor l → StronglySorted menor (insertar x l).
Proof.
  intros Hw Hs. apply Forall_cons in Hw as [Hx Hw].
  induction l as [|y l IH]; cbn [insertar].
  - repeat constructor.
  - apply Forall_cons in Hw as [Hy Hw].
    apply StronglySorted_inv in Hs as [Hs Hall].
    rewrite (tupla_lt_bien_formada y x Hy Hx).
    destruct (bool_decide (size y.2 < size x.2)%nat) eqn:Hlt.
    + apply bool_decide_eq_true in Hlt. constructor; [now apply IH|].
      rewrite insertar_perm. constructor; [cbn; lia|exact Hall].
    + apply bool_decide_eq_false in Hlt. constructor; [now constructor|].
      constructor; [cbn; lia|].
      eapply Forall_impl; [exact Hall|]. cbn. intros z Hz. lia.
Qed.

Lemma insertar_bien_formada (x : nat * gset Z) (l : list (nat * gset Z)) :
  bien_formada (x :: l) → bien_formada (insertar x l).
Proof. intros Hw. now rewrite insertar_perm. Qed.

Lemma ordenar_ordenada (l : list (nat * gset Z)) :
  bien_formada l → StronglySorted menor (ordenar l).
Proof.
  induction l as [|x l IH]; intros Hw; cbn [ordenar]; [constructor|].
  pose proof Hw as Hw'. apply Forall_cons in Hw' as [Hx Hl].
  apply insertar_ordenada; [|now apply IH].
  constructor; [exact Hx|]. now rewrite ordenar_perm.
Qed.

Lemma filter_insertar (k : nat) (x : nat * gset Z) (l : list (nat * gset Z)) :
  bien_formada (x :: l) →
  filter (λ p, size p.2 = k) (insertar x l) = filter (λ p, size p.2 = k) (x :: l).
Proof.
  intros Hw. apply Forall_cons in Hw as [Hx Hw].
  induction l as [|y l IH]; cbn [insertar]; [reflexivity|].
  apply Forall_cons in Hw as [Hy Hw].
  rewrite (tupla_lt_bien_formada y x Hy Hx).
  destruct (bool_decide (size y.2 < size x.2)%nat) eqn:Hlt; [|reflexivity].
  apply bool_decide_eq_true in Hlt.
  rewrite filter_cons, (IH Hw), !filter_cons.
  destruct (decide (size y.2 = k)), (decide (size x.2 = k)); try reflexivity. lia.
Qed.

Lemma filter_ordenar (k : nat) (l : list (nat * gset Z)) :
  bien_formada l →
  filter (λ p, size p.2 = k) (ordenar l) = filter (λ p, size p.2 = k) l.
Proof.
  induction l as [|x l IH]; intros Hw; cbn [ordenar]; [reflexivity|].
  pose proof Hw as Hw'. apply Forall_cons in Hw' as [Hx Hl].
  rewrite filter_insertar.
  - rewrite !filter_cons, (IH Hl). reflexivity.
  - constructor; [exact Hx|]. now rewrite ordenar_perm.
Qed.

Lemma StronglySorted_reverse {A : Type} (R : relation A) (l : list A) :
  StronglySorted R l → StronglySorted (flip R) (reverse l).
Proof.
  induction 1 as [|x l Hs IH Hall]; [constructor|].
  rewrite reverse_cons. apply StronglySorted_app_2; [|exact IH|repeat constructor].
  intros y z Hy ->%list_elem_of_singleton. cbn.
  rewrite Forall_forall in Hall. apply Hall. now apply elem_of_reverse.
Qed.

Lemma filter_fmap_snd (k : nat) (l : list (nat * gset Z)) :
  filter (λ c : gset Z, size c = k) (snd <$> l)
  = snd <$> filter (λ p : nat * gset Z, size p.2 = k) l.
Proof.
  induction l as [|p l IH]; [reflexivity|].
  rewrite fmap_cons, !filter_cons, IH.
  destruct (decide (size p.2 = k)); reflexivity.
Qed.

Lemma tuplas_bien_formadas (componentes : list (gset Z)) :
  bien_formada (reverse (map (λ comp, (size comp, comp)) componentes)).
Proof.
  apply Forall_reverse, Forall_fmap, Forall_forall. intros c _. reflexivity.
Qed.

Lemma fmap_snd_tuplas (componentes : list (gset Z)) :
  snd <$> map (λ comp : gset Z, (size comp, comp)) componentes = componentes.
Proof.
  induction componentes as [|c cs IH]; [reflexivity|].
  cbn [map]. rewrite fmap_cons. cbn [snd]. now rewrite IH.
Qed.

End OrdenCompleto.

(** X11.  The sort of the components returns the same components, from
    the largest to the smallest, and keeps the discovery order among the
    components of one size. *)
Theorem ordenar_componentes_ordena (componentes : list (gset Z)) :
  ordenar_componentes componentes ≡ₚ componentes ∧
  StronglySorted (λ a b : gset Z, (size b ≤ size a)%nat) (ordenar_componentes componentes) ∧
  ∀ k, filter (λ c : gset Z, size c = k) (ordenar_componentes componentes)
       = filter (λ c : gset Z, size c = k) componentes.
Proof.
  unfold ordenar_componentes, sort_reverse.
  set (M := reverse (map (λ comp : gset Z, (size comp, comp)) componentes)).
  pose proof (tuplas_bien_formadas componentes) as Hw. fold M in Hw.
  pose proof (fmap_snd_tuplas componentes) as Hid.
  split; [|split].
  - change (map snd ?l) with (snd <$> l).
    rewrite reverse_Permutation, ordenar_perm. unfold M.
    rewrite reverse_Permutation. now rewrite Hid.
  - change (map snd ?l) with (snd <$> l).
    apply (StronglySorted_fmap snd (flip (λ p q : nat * gset Z, (size p.2 ≤ size q.2)%nat))).
    + intros p q Hpq. exact Hpq.
    + apply StronglySorted_reverse. now apply ordenar_ordenada.
  - intros k. change (map snd ?l) with (snd <$> l).
    rewrite filter_fmap_snd, filter_reverse, (filter_ordenar k M Hw).
    unfold M. rewrite filter_reverse, reverse_involutive, <- filter_fmap_snd.
    now rewrite Hid.
Qed.

(** ** The reduction: content, failure, idempotence *)

Section ReduccionMas.

Lemma nueva_lista_ady_claves (comp : gset Z) (ady : gmap Z (list entrada))
    (nodos : list Z) (nueva r : gmap Z (list entrada)) :
  nueva_lista_ady comp ady nodos nueva = Some r → ∀ n, n ∈ nodos → n ∈ dom ady.
Proof.
  revert nueva. induction nodos as [|n0 nodos IH]; intros nueva; cbn [nueva_lista_ady].
  - intros _ n Hn. inversion Hn.
  - destruct (ady !! n0) as [v|] eqn:Hv; [|discriminate]. cbn [mbind option_bind].
    intros Hr n [->|Hn]%elem_of_cons; [apply elem_of_dom; now exists v|].
    now apply (IH _ Hr).
Qed.

Lemma nueva_nodos_info_claves (info : gmap Z (valor * valor))
    (nodos : list Z) (nueva r : gmap Z (valor * valor)) :
  nueva_nodos_info info nodos nueva = Some r → ∀ n, n ∈ nodos → n ∈ dom info.
Proof.
  revert nueva. induction nodos as [|n0 nodos IH]; intros nueva; cbn [nueva_nodos_info].
  - intros _ n Hn. inversion Hn.
  - destruct (info !! n0) as [v|] eqn:Hv; [|discriminate]. cbn [mbind option_bind].
    intros Hr n [->|Hn]%elem_of_cons; [apply elem_of_dom; now exists v|].
    now apply (IH _ Hr).
Qed.

(** What the reduction returns, branch by branch. *)
Lemma reducir_con_contenido (componentes : list (gset Z)) (g g' : grafo) (p : gset Z) :
  reducir_con componentes g = Some (g', p) →
  p = componente_principal componentes ∧
  ((length componentes ≤ 1)%nat → g' = g) ∧
  ((1 < length componentes)%nat →
   ∀ n, lista_ady g' !! n
        = (if decide (n ∈ p)
           then filter (λ e : entrada, e.1.1 ∈ p) <$> lista_ady g !! n else None)
        ∧ nodos_info g' !! n = (if decide (n ∈ p) then nodos_info g !! n else None)).
Proof.
  unfold reducir_con. cbv zeta. rewrite length_ordenar_componentes.
  fold (componente_principal componentes).
  set (principal := componente_principal componentes).
  destruct (decide (length componentes ≤ 1)%nat) as [Hle|Hgt].
  - intros [= <- <-]. split; [reflexivity|]. split; [reflexivity|lia].
  - destruct (nueva_lista_ady _ _ _ _) as [ady|] eqn:Ha; [|discriminate].
    destruct (nueva_nodos_info _ _ _) as [info|] eqn:Hi; [|discriminate].
    cbn [mbind option_bind]. intros [= <- <-]. split; [reflexivity|].
    split; [lia|]. intros _ n. cbn [lista_ady nodos_info].
    rewrite (nueva_lista_ady_spec _ _ _ _ _ Ha n), (nueva_nodos_info_spec _ _ _ _ Hi n).
    destruct (decide (n ∈ elements principal)) as [Hn|Hn];
      rewrite elem_of_elements in Hn.
    + destruct (decide (n ∈ principal)) as [_|[]]; [|exact Hn].
      split; [|reflexivity].
      destruct (lista_ady g !! n); cbn; [|reflexivity].
      now rewrite filtrar_vecinos_filter.
    + destruct (decide (n ∈ principal)) as [?|_]; [contradiction|].
      now rewrite !lookup_empty.
Qed.

Lemma componente_principal_max (componentes : list (gset Z)) (c : gset Z) :
  c ∈ componentes → (size c ≤ size (componente_principal componentes))%nat.
Proof.
  revert c.
  induction componentes as [|comp componentes IH] using rev_ind; intros c;
    [inversion 1|].
  rewrite componente_principal_snoc.
  destruct (forallb _ componentes) eqn:Hf.
  - apply Is_true_true_2, forallb_True in Hf. rewrite Forall_forall in Hf.
    intros [Hc|Hc%list_elem_of_singleton]%elem_of_app; [|subst c; lia].
    apply Hf, bool_decide_unpack in Hc. lia.
  - intros [Hc|Hc%list_elem_of_singleton]%elem_of_app; [now apply IH|]. subst c.
    destruct (decide (size comp ≤ size (componente_principal componentes))%nat)
      as [|Hgt]; [assumption|exfalso].
    assert (Hall : Forall (λ c, bool_decide (size c < size comp)%nat) componentes).
    { apply Forall_forall. intros c' Hc'. apply bool_decide_pack.
      specialize (IH c' Hc'). lia. }
    apply forallb_True, Is_true_true_1 in Hall. congruence.
Qed.

End ReduccionMas.

(** X12.  The reducer returns the main component it chose.  With at most
    one component it returns the graph as it is.  With several, the node
    attribute of every node of the main component is kept as it was, its
    adjacency list keeps, in their order, the entries whose neighbour is in
    the main component, and the other nodes have neither. *)
Theorem reduccion_contenido (componentes : list (gset Z)) (g g' : grafo) (p : gset Z) :
  reducir_con componentes g = Some (g', p) →
  p = componente_principal componentes ∧
  ((length componentes ≤ 1)%nat → g' = g) ∧
  ((1 < length componentes)%nat →
   ∀ n, lista_ady g' !! n
        = (if decide (n ∈ p)
           then filter (λ e : entrada, e.1.1 ∈ p) <$> lista_ady g !! n else None)
        ∧ nodos_info g' !! n = (if decide (n ∈ p) then nodos_info g !! n else None)).
Proof. apply reducir_con_contenido. Qed.

Lemma reduccion_contenido_witness :
  ∃ g' p, reducir_con [ {[1; 2]}; {[3; 4]} ] grafo_islas = Some (g', p) ∧
          p = componente_principal [ {[1; 2]}; {[3; 4]} ].
Proof.
  assert (E : is_Some (reducir_con [ {[1; 2]}; {[3; 4]} ] grafo_islas)).
  { vm_compute. eexists. reflexivity. }
  destruct E as [[g' p] E]. exists g', p. split; [exact E|].
  exact (proj1 (reduccion_contenido _ _ _ _ E)).
Defined.

(** X13.  The reduction fails exactly when there are several components
    and some node of the main component lacks an adjacency list or a node
    attribute. *)
Theorem reducir_con_falla (componentes : list (gset Z)) (g : grafo) :
  reducir_con componentes g = None ↔
  (1 < length componentes)%nat ∧
  ¬ (componente_principal componentes ⊆ dom (lista_ady g) ∧
     componente_principal componentes ⊆ dom (nodos_info g)).
Proof.
  unfold reducir_con. cbv zeta. rewrite length_ordenar_componentes.
  fold (componente_principal componentes).
  set (principal := componente_principal componentes).
  destruct (decide (length componentes ≤ 1)%nat) as [Hle|Hgt].
  - split; [discriminate|]. intros [? _]. lia.
  - destruct (nueva_lista_ady _ _ _ _) as [ady|] eqn:Ha; cbn [mbind option_bind].
    + pose proof (nueva_lista_ady_claves _ _ _ _ _ Ha) as Hka.
      destruct (nueva_nodos_info _ _ _) as [info|] eqn:Hi; cbn [mbind option_bind].
      * pose proof (nueva_nodos_info_claves _ _ _ _ Hi) as Hki.
        split; [discriminate|]. intros [_ Hno]. destruct Hno.
        split; intros n Hn%elem_of_elements; auto.
      * split; [|reflexivity]. intros _. split; [lia|]. intros [_ Hsi].
        destruct (nueva_nodos_info_total (nodos_info g) (elements principal) ∅)
          as [r Hr]; [|congruence].
        intros n Hn%elem_of_elements. now apply Hsi.
    + split; [|reflexivity]. intros _. split; [lia|]. intros [Hsa _].
      destruct (nueva_lista_ady_total principal (lista_ady g) (elements principal) ∅)
        as [r Hr]; [|congruence].
      intros n Hn%elem_of_elements. now apply Hsa.
Qed.

(** A one-way street to an undeclared node is accepted by the builder
    and makes the reduction fail. *)
Example reduccion_falla_nodo_no_declarado :
  ∃ g, construir [ NodoOSM 1 ∅; NodoOSM 2 ∅ ]
         [ AristaOSM 1 9 0 {[ "oneway" := PyBool true ]} ] = Some g ∧
       reducir [1; 2] g = None.
Proof. eexists. split; vm_compute; reflexivity. Qed.

Section Idempotencia.

Lemma filter_todos {A : Type} (P : A → Prop) `{!∀ x, Decision (P x)} (l : list A) :
  (∀ x, x ∈ l → P x) → filter P l = l.
Proof.
  induction l as [|x l IH]; intros Hall; [reflexivity|].
  rewrite filter_cons, decide_True by (apply Hall; left).
  f_equal. apply IH. intros y Hy. apply Hall. now right.
Qed.

(** The reducer applied to its own result, on a graph whose dictionaries
    have the same keys and whose neighbours are keys. *)
Lemma reducir_idem (g g1 : grafo) (orden1 orden2 : list Z) (p1 : gset Z) :
  dom (nodos_info g) = dom (lista_ady g) → cerrado (lista_ady g) →
  enumera orden1 (lista_ady g) → reducir orden1 g = Some (g1, p1) →
  enumera orden2 (lista_ady g1) → reducir orden2 g1 = Some (g1, p1).
Proof.
  intros Hdom Hce He1 Hr He2.
  destruct (descubrir_spec (lista_ady g) orden1) as (cs & Hd & Hcub & Hsp).
  unfold reducir in Hr. rewrite Hd in Hr. cbn [mbind option_bind] in Hr.
  assert (Hsub : ∀ c, c ∈ cs → c ⊆ dom (lista_ady g)).
  { apply (descubrir_en_dom (lista_ady g) orden1); [exact Hce| |exact Hd].
    intros n Hn. now apply (enumera_elem orden1). }
  destruct (reducir_con_spec cs g Hdom Hce Hsub) as (g' & Hr' & Ha & Hi & Hv).
  { intros n Hn. apply Hcub. now apply (enumera_elem _ _ _ He1). }
  rewrite Hr in Hr'. injection Hr' as <- Hp1.
  destruct (reducir_con_contenido _ _ _ _ Hr) as (_ & Hle & Hgt).
  rewrite <- Hp1 in Ha, Hi, Hv.
  assert (Hce1 : cerrado (lista_ady g1)).
  { intros a b Hab. rewrite Ha. now apply (Hv a b). }
  assert (Hdom1 : dom (nodos_info g1) = dom (lista_ady g1)) by congruence.
  assert (Harc : ∀ a b, a ∈ p1 → b ∈ p1 →
                        arco (lista_ady g) a b → arco (lista_ady g1) a b).
  { intros a b Hpa Hpb (l & Hl & Hb).
    destruct (decide (length cs ≤ 1)%nat) as [H1|H1].
    - rewrite (Hle H1). now exists l.
    - destruct (Hgt ltac:(lia) a) as [Hla _].
      rewrite decide_True, Hl in Hla by exact Hpa. cbn in Hla.
      eexists. split; [exact Hla|].
      apply elem_of_vecinos_de in Hb as (e & He & <-).
      apply elem_of_vecinos_de. exists e. split; [|reflexivity].
      apply list_elem_of_filter. now split. }
  destruct (descubrir_spec (lista_ady g1) orden2) as (cs2 & Hd2 & Hcub2 & Hsp2).
  assert (Hsub2 : ∀ c, c ∈ cs2 → c ⊆ p1).
  { intros c Hc. rewrite <- Ha.
    apply (descubrir_en_dom (lista_ady g1) orden2 cs2); [exact Hce1| |exact Hd2|exact Hc].
    intros n Hn. now apply (enumera_elem orden2). }
  assert (Hp2 : componente_principal cs2 = p1).
  { destruct cs as [|c0 cs'].
    - assert (E0 : p1 = ∅) by (rewrite Hp1; reflexivity).
      destruct cs2 as [|c cs2']; [now rewrite E0|].
      apply set_eq. intros x. rewrite E0. split; [|set_solver].
      intros Hx. rewrite <- E0.
      apply (Hsub2 (componente_principal (c :: cs2'))); [|exact Hx].
      now apply componente_principal_elem.
    - assert (Hin : p1 ∈ c0 :: cs').
      { rewrite Hp1. now apply componente_principal_elem. }
      apply list_elem_of_lookup in Hin as [i Hi'].
      destruct (Hsp i p1 Hi') as (r & _ & _ & Hb).
      pose proof (BFS_componente_alcanzables _ _ _ Hb) as Hreach.
      assert (Hreach1 : ∀ x, x ∈ p1 → rtc (arco (lista_ady g1)) r x).
      { intros x Hx. apply Hreach in Hx. revert x Hx.
        apply (rtc_ind_r (λ x, rtc (arco (lista_ady g1)) r x)); [apply rtc_refl|].
        intros y z Hy Hyz IH. eapply rtc_r; [exact IH|].
        apply Harc; [now apply Hreach| |exact Hyz].
        apply Hreach. eapply rtc_r; eauto. }
      assert (Hr1 : r ∈ p1) by (apply Hreach, rtc_refl).
      assert (Hr2 : r ∈ orden2).
      { apply (enumera_elem _ _ _ He2). now rewrite Ha. }
      apply Hcub2, elem_of_union_list in Hr2 as (c & Hc & Hrc).
      assert (Hc' := Hc). apply list_elem_of_lookup in Hc' as [j Hj].
      destruct (Hsp2 j c Hj) as (m & _ & _ & Hm).
      pose proof (BFS_componente_alcanzables _ _ _ Hm) as Hreach2.
      assert (Hcp : c = p1).
      { apply set_eq. intros x. split; [now apply Hsub2|]. intros Hx.
        apply (proj2 (Hreach2 x)).
        etrans; [exact (proj1 (Hreach2 r) Hrc)|now apply Hreach1]. }
      subst c.
      apply set_subseteq_size_eq.
      + apply Hsub2, componente_principal_elem. intros ->. inversion Hc.
      + now apply componente_principal_max. }
  destruct (reducir_con_spec cs2 g1 Hdom1 Hce1) as (g2 & Hr2 & _).
  { intros c Hc. rewrite Ha. now apply Hsub2. }
  { intros n Hn. apply Hcub2. now apply (enumera_elem _ _ _ He2). }
  unfold reducir. rewrite Hd2. cbn [mbind option_bind]. rewrite Hr2, Hp2.
  do 2 f_equal.
  destruct (reducir_con_contenido _ _ _ _ Hr2) as (_ & Hle2 & Hgt2).
  destruct (decide (length cs2 ≤ 1)%nat) as [H1|H1]; [now apply Hle2|].
  specialize (Hgt2 ltac:(lia)). rewrite Hp2 in Hgt2.
  assert (Ea : lista_ady g2 = lista_ady g1).
  { apply map_eq. intros n. destruct (Hgt2 n) as [-> _].
    destruct (decide (n ∈ p1)) as [Hn|Hn].
    - destruct (lista_ady g1 !! n) as [l|] eqn:Hl; [|reflexivity]. cbn. f_equal.
      apply filter_todos. intros e He. apply (Hv n). exists l. split; [exact Hl|].
      apply elem_of_vecinos_de. now exists e.
    - rewrite <- Ha in Hn. apply not_elem_of_dom in Hn. now rewrite Hn. }
  assert (Ei : nodos_info g2 = nodos_info g1).
  { apply map_eq. intros n. destruct (Hgt2 n) as [_ ->].
    destruct (decide (n ∈ p1)) as [Hn|Hn]; [reflexivity|].
    rewrite <- Hi in Hn. apply not_elem_of_dom in Hn. now rewrite Hn. }
  destruct g1, g2. cbn in *. congruence.
Qed.

End Idempotencia.

(** X14.  The reducer is idempotent on every graph the builder returns
    for edges that join declared nodes: applied to its own result, in
    whatever order the nodes are iterated, it returns the same two maps and
    the same main component. *)
Theorem reductor_idempotente (nodos : list nodo_osm) (aristas : list arista_osm)
    (g g1 : grafo) (orden1 orden2 : list Z) (p1 : gset Z) :
  bien_formado nodos aristas →
  construir nodos aristas = Some g →
  enumera orden1 (lista_ady g) →
  reducir orden1 g = Some (g1, p1) →
  enumera orden2 (lista_ady g1) →
  reducir orden2 g1 = Some (g1, p1).
Proof.
  intros Hbf Hc. destruct (construir_inv _ _ _ Hc) as (Hdom & _ & Hce).
  apply reducir_idem; [exact Hdom|now apply Hce].
Qed.

Lemma reductor_idempotente_witness :
  reducir [2; 1] grafo_isla_12 = Some (grafo_isla_12, {[1; 2]}).
Proof.
  apply (reductor_idempotente nodos_islas aristas_islas grafo_islas grafo_isla_12
           [1; 2; 3; 4] [2; 1] {[1; 2]}).
  - apply (bool_decide_unpack _). vm_compute. exact I.
  - vm_compute. reflexivity.
  - apply (bool_decide_unpack _). vm_compute. exact I.
  - vm_compute. reflexivity.
  - apply (bool_decide_unpack _). vm_compute. exact I.
Defined.

(** ** The sampler: the walk, the cap and the induced adjacency *)

Section Inducido.

Lemma fold_insert_lookup {A : Type} (F : Z → A) (l : list Z) (acc : gmap Z A) (n : Z) :
  fold_left (λ acc n, <[n := F n]> acc) l acc !! n
  = if decide (n ∈ l) then Some (F n) else acc !! n.
Proof.
  revert acc. induction l as [|m l IH]; intros acc; cbn [fold_left].
  - destruct (decide (n ∈ [])) as [H|_]; [inversion H|reflexivity].
  - rewrite IH. destruct (decide (n ∈ l)) as [Hl|Hl].
    + now rewrite decide_True by now right.
    + destruct (decide (n = m)) as [->|Hne].
      * rewrite decide_True by left. apply lookup_insert_eq.
      * rewrite lookup_insert_ne by congruence.
        rewrite decide_False; [reflexivity|].
        intros [?|?]%elem_of_cons; contradiction.
Qed.

End Inducido.

(** X15.  The adjacency induced on the sample has the sampled nodes as
    its keys; the list of a sampled node keeps, in their order, the
    entries of its list whose neighbour is sampled (none if the node has
    no list); so every neighbour in it is a key. *)
Theorem subgrafo_ady_inducido (ady : gmap Z (list entrada)) (subgrafo_nodos : list Z) :
  let conjunto : gset Z := list_to_set subgrafo_nodos in
  dom (subgrafo_ady ady subgrafo_nodos) = conjunto ∧
  (∀ n, n ∈ subgrafo_nodos →
        subgrafo_ady ady subgrafo_nodos !! n
        = Some (filter (λ e : entrada, e.1.1 ∈ conjunto) (default [] (ady !! n)))) ∧
  cerrado (subgrafo_ady ady subgrafo_nodos).
Proof.
  intros conjunto.
  assert (Hl : ∀ n, subgrafo_ady ady subgrafo_nodos !! n
                    = if decide (n ∈ subgrafo_nodos)
                      then Some (filter (λ e : entrada, e.1.1 ∈ conjunto)
                                        (default [] (ady !! n)))
                      else None).
  { intros n. unfold subgrafo_ady. cbv zeta. fold conjunto.
    rewrite (fold_insert_lookup
               (λ n, filtrar_vecinos conjunto (default [] (ady !! n)))).
    destruct (decide (n ∈ subgrafo_nodos)); [|apply lookup_empty].
    now rewrite filtrar_vecinos_filter. }
  assert (Hd : dom (subgrafo_ady ady subgrafo_nodos) = conjunto).
  { apply set_eq. intros n. rewrite elem_of_dom, Hl. unfold conjunto.
    rewrite elem_of_list_to_set.
    destruct (decide (n ∈ subgrafo_nodos)) as [Hn|Hn].
    - split; [intros _; exact Hn|intros _; now eexists].
    - split; [intros [? [=]]|intros Hn'; contradiction]. }
  split; [exact Hd|]. split.
  - intros n Hn. now rewrite Hl, decide_True by exact Hn.
  - intros a b (l & Hla & Hb). rewrite Hd. rewrite Hl in Hla.
    destruct (decide (a ∈ subgrafo_nodos)) as [_|_]; [|discriminate].
    injection Hla as <-. apply elem_of_vecinos_de in Hb as (e & He & <-).
    now apply list_elem_of_filter in He as [He _].
Qed.

Section Caminata.

Context {G : Type} `{!Azar G}.
Context (ady : gmap Z (list entrada)).




(** The cap of the inner loop. *)
Lemma fold_encolar_cota (largo : nat) (vecinos cola : list Z) (vis : gset Z) :
  let r := fold_left (encolar largo) vecinos (cola, vis) in
  (largo + length r.1 ≤ (largo + length cola) `max` 1000)%nat ∧
  ((largo + length cola + length vecinos ≤ 1000)%nat → ∀ x, x ∈ vecinos → x ∈ r.2).
Proof.
  revert cola vis. induction vecinos as [|v vecinos IH]; intros cola vis; cbn zeta.
  - cbn. split; [lia|]. intros _ x Hx. inversion Hx.
  - cbn [fold_left]. unfold encolar at 2 4.
    destruct (decide ((v ∉ vis) ∧ (largo + length cola < 1000)%nat)) as [[Hv Hc]|Hno].
    + destruct (IH (cola ++ [v]) ({[v]} ∪ vis)) as [H1 H2]. cbn zeta in H1, H2.
      rewrite length_app in H1, H2. cbn [length] in *. split; [lia|].
      intros Hle x [->|Hx]%elem_of_cons.
      * destruct (fold_encolar (largo) vecinos (cola ++ [v]) ({[v]} ∪ vis))
          as (nuevos & E & _). rewrite E. cbn. set_solver.
      * apply H2; [lia|exact Hx].
    + destruct (IH cola vis) as [H1 H2]. cbn zeta in H1, H2. split; [exact H1|].
      cbn [length]. intros Hle x [->|Hx]%elem_of_cons.
      * assert (Hv : v ∈ vis).
        { destruct (decide (v ∈ vis)) as [|Hv]; [assumption|].
          destruct Hno. split; [exact Hv|lia]. }
        destruct (fold_encolar largo vecinos cola vis) as (nuevos & E & _).
        rewrite E. cbn. set_solver.
      * apply H2; [lia|exact Hx].
Qed.

End Caminata.



(** X17.  The inner loop of the walk stops enqueueing once the sample and
    the queue together hold 1000 nodes: after it they hold at most 1000,
    or as many as before if that was more.  When all the neighbours fit
    under the cap, every one of them is visited after the loop. *)
Theorem tope_de_la_cola (largo : nat) (vecinos cola : list Z) (vis : gset Z) :
  let r := fold_left (encolar largo) vecinos (cola, vis) in
  (largo + length r.1 ≤ (largo + length cola) `max` 1000)%nat ∧
  ((largo + length cola + length vecinos ≤ 1000)%nat → ∀ x, x ∈ vecinos → x ∈ r.2).
Proof. apply fold_encolar_cota. Qed.

(** ** The export of the edges *)

Section ExportarAristas.

Context (aristas : list arista_osm).

Lemma paso_fila_fila_de (u : Z) (st : list fila_arista * gset (Z * Z)) (e : entrada) :
  paso_fila aristas u st e
  = if decide (par_arco (u, e) ∈ st.2) then st
    else (st.1 ++ [fila_de aristas (u, e)], {[par_arco (u, e)]} ∪ st.2).
Proof.
  destruct e as [[v l] t]. unfold paso_fila, fila_de, par_arco, par_de. cbn [fst snd].
  assert (E : (if bool_decide (u ≤ v) then (u, v) else (v, u)) = (Z.min u v, Z.max u v)).
  { case_bool_decide; f_equal; lia. }
  rewrite E. reflexivity.
Qed.

Lemma filas_aristas_fold (ady : gmap Z (list entrada)) (claves : list Z)
    (st : list fila_arista * gset (Z * Z)) :
  (∀ u, u ∈ claves → u ∈ dom ady) →
  filas_aristas aristas ady claves st
  = Some (fold_left (λ st ue, paso_fila aristas ue.1 st ue.2) (recorrido ady claves) st).
Proof.
  revert st. induction claves as [|u claves IH]; intros st Hd; [reflexivity|].
  cbn [filas_aristas]. unfold recorrido. cbn [flat_map]. fold (recorrido ady claves).
  destruct (proj1 (elem_of_dom ady u) (Hd u ltac:(left))) as [l Hl].
  rewrite Hl. cbn [mbind option_bind default].
  rewrite IH by (intros w Hw; apply Hd; now right).
  f_equal. rewrite fold_left_app. f_equal. unfold id.
  clear. revert st. induction l as [|e l IHl]; intros st; [reflexivity|].
  cbn. apply IHl.
Qed.

Lemma par_fila_fila_de (ue : Z * entrada) : par_fila (fila_de aristas ue) = par_arco ue.
Proof.
  unfold par_fila, fila_de. cbn [f_origen f_destino].
  symmetry. apply surjective_pairing.
Qed.

(** The rows after the entries [R] have been met: one row for the first
    entry of every pair. *)
Lemma fold_filas (R : list (Z * entrada)) :
  let st := fold_left (λ st ue, paso_fila aristas ue.1 st ue.2) R ([], ∅) in
  st.2 = list_to_set (par_arco <$> R) ∧
  list_to_set (par_fila <$> st.1) = st.2 ∧
  NoDup (par_fila <$> st.1) ∧
  ∀ f, f ∈ st.1 →
       ∃ pre post ue, R = pre ++ ue :: post ∧ f = fila_de aristas ue ∧
                      ∀ x, x ∈ pre → par_arco x ≠ par_arco ue.
Proof.
  induction R as [|ue R IH] using rev_ind; cbn zeta.
  - cbn. split; [reflexivity|]. split; [reflexivity|]. split; [constructor|].
    intros f Hf. inversion Hf.
  - rewrite fold_left_app. cbn [fold_left].
    cbn zeta in IH.
    destruct (fold_left _ R ([], ∅)) as [rows visto] eqn:Est.
    cbn [fst snd] in IH. destruct IH as (Hv & Hs & Hnd & Hsrc).
    rewrite paso_fila_fila_de. cbn [fst snd].
    destruct ue as [u e]. cbn [fst snd].
    rewrite fmap_app, list_to_set_app_L. cbn [fmap list_fmap list_to_set].
    rewrite (right_id_L ∅ (∪)), <- Hv.
    destruct (decide (par_arco (u, e) ∈ visto)) as [Hin|Hnin]; cbn [fst snd].
    + split.
      { apply set_eq. intros x. rewrite elem_of_union, elem_of_singleton.
        split; [auto|]. intros [Hx|Hx]; [assumption|now subst x]. }
      split; [exact Hs|]. split; [exact Hnd|].
      intros f Hf. destruct (Hsrc f Hf) as (pre & post & ue & -> & Hfd & Hpre).
      exists pre, (post ++ [(u, e)]), ue. split; [now rewrite <- app_assoc|]. auto.
    + split; [apply (comm_L (∪))|].
      rewrite fmap_app, list_to_set_app_L. cbn [fmap list_fmap list_to_set].
      rewrite (right_id_L ∅ (∪)), Hs, par_fila_fila_de.
      split; [apply (comm_L (∪))|]. split.
      * apply NoDup_app. split; [exact Hnd|]. split; [|apply NoDup_singleton].
        intros p Hp ->%list_elem_of_singleton.
        apply Hnin. rewrite <- Hs. now apply elem_of_list_to_set.
      * intros f [Hf|Hf%list_elem_of_singleton]%elem_of_app; [|subst f].
        -- destruct (Hsrc f Hf) as (pre & post & ue & -> & Hfd & Hpre).
           exists pre, (post ++ [(u, e)]), ue. split; [now rewrite <- app_assoc|]. auto.
        -- exists R, [], (u, e). split; [reflexivity|]. split; [reflexivity|].
           intros x Hx Heq. apply Hnin. rewrite Hv, <- Heq.
           apply elem_of_list_to_set, list_elem_of_fmap. now exists x.
Qed.

Lemma elem_of_recorrido (ady : gmap Z (list entrada)) (claves : list Z) (u : Z) (e : entrada) :
  (u, e) ∈ recorrido ady claves ↔ u ∈ claves ∧ ∃ l, ady !! u = Some l ∧ e ∈ l.
Proof.
  unfold recorrido. rewrite list_elem_of_In, in_flat_map. split.
  - intros (w & Hw & Hin). apply list_elem_of_In in Hw, Hin.
    apply list_elem_of_fmap in Hin as (e' & [= -> ->] & He').
    split; [exact Hw|]. destruct (ady !! w) as [l|]; [now exists l|inversion He'].
  - intros (Hu & l & Hl & He). exists u. split; [now apply list_elem_of_In|].
    apply list_elem_of_In, list_elem_of_fmap. exists e. rewrite Hl. now split.
Qed.

End ExportarAristas.

Section ExportarAristasMas.

Context (aristas : list arista_osm) (ady : gmap Z (list entrada)) (claves : list Z).

Lemma aristas_reg_fold :
  (∀ u, u ∈ claves → u ∈ dom ady) →
  aristas_reg aristas ady claves
  = Some (fold_left (λ st ue, paso_fila aristas ue.1 st ue.2)
                    (recorrido ady claves) ([], ∅)).1.
Proof.
  intros Hd. unfold aristas_reg. now rewrite (filas_aristas_fold aristas ady claves _ Hd).
Qed.

Lemma par_de_igual (u v u' v' : Z) :
  par_de u' v' = par_de u v → (u' = u ∧ v' = v) ∨ (u' = v ∧ v' = u).
Proof. unfold par_de. intros [= Hmin Hmax]. lia. Qed.

(** An entry of the list of [u] is met before every entry of the list
    of a later key [v]. *)
Lemma recorrido_antes (u v : Z) (e0 e' : entrada) (pre post : list (Z * entrada)) :
  NoDup claves → antes claves u v →
  (u, e0) ∈ recorrido ady claves →
  recorrido ady claves = pre ++ (v, e') :: post →
  (u, e0) ∈ pre.
Proof.
  intros Hnd (l1 & l2 & l3 & Hcl) Hin Hrec.
  assert (Ecl : claves = (l1 ++ u :: l2) ++ v :: l3).
  { rewrite Hcl, <- app_assoc. reflexivity. }
  assert (HA : (u, e0) ∈ recorrido ady (l1 ++ u :: l2)).
  { apply elem_of_recorrido in Hin as [_ Hl]. apply elem_of_recorrido.
    split; [|exact Hl]. apply elem_of_app. right. left. }
  assert (HnA : ∀ e, (v, e) ∉ recorrido ady (l1 ++ u :: l2)).
  { intros e [Hv _]%elem_of_recorrido. rewrite Ecl in Hnd.
    apply NoDup_app in Hnd as (_ & Hdis & _). apply (Hdis v Hv). left. }
  assert (Esplit : recorrido ady claves
                   = recorrido ady (l1 ++ u :: l2) ++ recorrido ady (v :: l3)).
  { rewrite Ecl. unfold recorrido. apply flat_map_app. }
  rewrite Esplit in Hrec. apply app_eq_inv in Hrec as [(k & E1 & E2)|(k & E1 & E2)].
  - destruct k as [|x k].
    + rewrite app_nil_r in E1. now rewrite <- E1.
    + injection E2 as <- _. exfalso. apply (HnA e'). rewrite E1.
      apply elem_of_app. right. left.
  - rewrite E1. apply elem_of_app. now left.
Qed.

End ExportarAristasMas.

Lemma filter_ninguno {A : Type} (P : A → Prop) `{!∀ x, Decision (P x)} (l : list A) :
  (∀ x, x ∈ l → ¬ P x) → filter P l = [].
Proof.
  induction l as [|x l IH]; intros Hno; [reflexivity|].
  rewrite filter_cons, decide_False by (apply Hno; left).
  apply IH. intros y Hy. apply Hno. now right.
Qed.

(** X18.  The edge export always returns for the keys of the adjacency
    map.  Its rows have the smaller identifier first and no two rows have
    the same pair; every adjacency entry has the row of its pair; and
    every row carries the length and the time of an adjacency entry
    between its two nodes. *)
Theorem aristas_reg_sin_duplicados (aristas : list arista_osm)
    (ady : gmap Z (list entrada)) (claves : list Z) :
  enumera claves ady →
  ∃ filas,
    aristas_reg aristas ady claves = Some filas ∧
    NoDup (par_fila <$> filas) ∧
    (∀ f, f ∈ filas → f_origen f ≤ f_destino f) ∧
    (∀ u l e, ady !! u = Some l → e ∈ l → par_de u e.1.1 ∈ par_fila <$> filas) ∧
    (∀ f, f ∈ filas →
          ∃ u l e, ady !! u = Some l ∧ e ∈ l ∧ par_fila f = par_de u e.1.1 ∧
                   f_distancia_metros f = e.1.2 ∧ f_tiempo_minutos f = e.2).
Proof.
  intros Hen.
  assert (Hd : ∀ u, u ∈ claves → u ∈ dom ady)
    by (intros u Hu; now apply (enumera_elem _ _ _ Hen)).
  rewrite (aristas_reg_fold aristas ady claves Hd).
  pose proof (fold_filas aristas (recorrido ady claves)) as H. cbn zeta in H.
  destruct (fold_left _ (recorrido ady claves) ([], ∅)) as [filas visto].
  cbn [fst snd] in *. destruct H as (Hv & Hs & Hnd & Hsrc).
  exists filas. split; [reflexivity|]. split; [exact Hnd|]. split; [|split].
  - intros f Hf. destruct (Hsrc f Hf) as (pre & post & ue & _ & -> & _).
    unfold fila_de, par_arco, par_de. cbn. lia.
  - intros u l e Hl He.
    apply (elem_of_list_to_set (C := gset (Z * Z))). rewrite Hs, Hv.
    apply elem_of_list_to_set, list_elem_of_fmap. exists (u, e). split; [reflexivity|].
    apply elem_of_recorrido. split; [|now exists l].
    apply (enumera_elem _ _ _ Hen), elem_of_dom. now exists l.
  - intros f Hf. destruct (Hsrc f Hf) as (pre & post & [u e] & Hrec & -> & _).
    assert (Hin : (u, e) ∈ recorrido ady claves).
    { rewrite Hrec. apply elem_of_app. right. left. }
    apply elem_of_recorrido in Hin as (_ & l & Hl & He).
    exists u, l, e. split; [exact Hl|]. split; [exact He|].
    split; [apply par_fila_fila_de|]. split; reflexivity.
Qed.

Lemma aristas_reg_sin_duplicados_witness :
  ∃ filas,
    aristas_reg aristas_ABC (lista_ady grafo_ABC) [1; 2; 3] = Some filas ∧
    NoDup (par_fila <$> filas).
Proof.
  destruct (aristas_reg_sin_duplicados aristas_ABC (lista_ady grafo_ABC) [1; 2; 3])
    as (filas & E & Hnd & _).
  - apply (bool_decide_unpack _). vm_compute. exact I.
  - exists filas. now split.
Defined.

(** The end-to-end scenario exports two rows. *)
Example aristas_reg_ABC :
  aristas_reg aristas_ABC (lista_ady grafo_ABC) [1; 2; 3]
  = Some [ FilaArista 1 2 1000 (metros_a_minutos 1000) (PyStr "Sin nombre");
           FilaArista 2 3 2000 (metros_a_minutos 2000) (PyStr "Sin nombre") ].
Proof. vm_compute. reflexivity. Qed.

(** X19.  The name of a row is looked up in the direction in which its
    pair is first met.  When the list of [u] has an entry for [v] and [u]
    comes before [v] among the keys, the row of the pair carries the name
    of the first raw edge from [u] to [v]; if no raw edge goes from [u] to
    [v], as for a two-way street recorded from [v] to [u], the row carries
    ['Sin nombre'] whatever the name of the street. *)
Theorem nombre_segun_el_sentido (aristas : list arista_osm)
    (ady : gmap Z (list entrada)) (claves : list Z) (filas : list fila_arista)
    (u v : Z) (f : fila_arista) :
  enumera claves ady →
  aristas_reg aristas ady claves = Some filas →
  antes claves u v → arco ady u v →
  f ∈ filas → par_fila f = par_de u v →
  f_nombre_calle f = nombre_de aristas u v ∧
  ((∀ a, a ∈ aristas → ¬ (a_u a = u ∧ a_v a = v)) →
   f_nombre_calle f = PyStr "Sin nombre").
Proof.
  intros Hen Hreg Hantes (l0 & Hl0 & Hv0) Hf Hpar.
  assert (Hd : ∀ w, w ∈ claves → w ∈ dom ady)
    by (intros w Hw; now apply (enumera_elem _ _ _ Hen)).
  rewrite (aristas_reg_fold aristas ady claves Hd) in Hreg.
  pose proof (fold_filas aristas (recorrido ady claves)) as H. cbn zeta in H.
  destruct (fold_left _ (recorrido ady claves) ([], ∅)) as [filas' visto].
  cbn [fst snd] in *. injection Hreg as ->. destruct H as (_ & _ & _ & Hsrc).
  destruct (Hsrc f Hf) as (pre & post & [u' e'] & Hrec & -> & Hpre).
  rewrite par_fila_fila_de in Hpar. unfold par_arco in Hpar. cbn [fst snd] in Hpar.
  apply elem_of_vecinos_de in Hv0 as (e0 & He0 & Hv0).
  assert (Hu : u ∈ claves).
  { destruct Hantes as (l1 & l2 & l3 & ->). apply elem_of_app. right. left. }
  assert (Hin0 : (u, e0) ∈ recorrido ady claves).
  { apply elem_of_recorrido. split; [exact Hu|]. now exists l0. }
  assert (Hname : nombre_de aristas u' e'.1.1 = nombre_de aristas u v).
  { apply par_de_igual in Hpar as [[-> ->]|[-> Hv']]; [reflexivity|exfalso].
    pose proof (recorrido_antes ady claves u v e0 e' pre post (proj1 Hen) Hantes Hin0 Hrec)
      as Hin.
    apply (Hpre _ Hin). unfold par_arco. cbn [fst snd]. rewrite Hv0, Hv'.
    unfold par_de. f_equal; lia. }
  unfold fila_de. cbn [f_nombre_calle fst snd]. split; [exact Hname|].
  intros Hno. rewrite Hname. unfold nombre_de, get_edge_data.
  now rewrite (filter_ninguno _ aristas Hno).
Qed.

Example construir_calle : construir nodos_calle aristas_calle = Some grafo_calle.
Proof. vm_compute. reflexivity. Qed.

Lemma nombre_segun_el_sentido_witness :
  f_nombre_calle (FilaArista 1 2 80 (metros_a_minutos 80) (PyStr "Sin nombre"))
  = nombre_de aristas_calle 1 2.
Proof.
  refine (proj1 (nombre_segun_el_sentido aristas_calle (lista_ady grafo_calle) [1; 2]
                   [FilaArista 1 2 80 (metros_a_minutos 80) (PyStr "Sin nombre")]
                   1 2 _ _ _ _ _ _ _)).
  - apply (bool_decide_unpack _). vm_compute. exact I.
  - vm_compute. reflexivity.
  - exists [], [], []. reflexivity.
  - exists [(2, 80%Q, metros_a_minutos 80)]. split; [vm_compute; reflexivity|].
    apply elem_of_vecinos_de. eexists. split; [left|reflexivity].
  - left.
  - reflexivity.
Defined.

(** ** The export of the nodes *)

Section ExportarNodos.

Context (info : gmap Z (valor * valor)).

Lemma nodos_reg_total (claves : list Z) :
  (∀ n, n ∈ claves → n ∈ dom info) → is_Some (nodos_reg info claves).
Proof.
  induction claves as [|n claves IH]; intros Hd; cbn [nodos_reg]; [now eexists|].
  destruct (proj1 (elem_of_dom info n) (Hd n ltac:(left))) as [c Hc]. rewrite Hc.
  cbn [mbind option_bind].
  destruct IH as [filas Hf]; [intros m Hm; apply Hd; now right|].
  rewrite Hf. cbn [mbind option_bind]. now eexists.
Qed.

Lemma nodos_reg_filas (claves : list Z) (filas : list fila_nodo) :
  nodos_reg info claves = Some filas →
  f_nodo_id <$> filas = claves ∧
  Forall (λ f, info !! f_nodo_id f = Some (f_longitud f, f_latitud f)) filas.
Proof.
  revert filas. induction claves as [|n claves IH]; intros filas; cbn [nodos_reg].
  - intros [= <-]. split; [reflexivity|constructor].
  - destruct (info !! n) as [[x y]|] eqn:Hc; [|discriminate]. cbn [mbind option_bind].
    destruct (nodos_reg info claves) as [filas'|]; [|discriminate].
    cbn [mbind option_bind]. intros [= <-].
    destruct (IH filas' eq_refl) as [Hid Hall]. split.
    + rewrite fmap_cons. cbn. now rewrite Hid.
    + constructor; [exact Hc|exact Hall].
Qed.

End ExportarNodos.

(** X20.  The node export writes one row per key of the node-attribute
    map, in the order of the keys, with the second coordinate as latitude
    and the first as longitude; the map is recovered from the rows. *)
Theorem nodos_reg_ida_y_vuelta (info : gmap Z (valor * valor)) (claves : list Z) :
  NoDup claves → list_to_set claves = dom info →
  ∃ filas,
    nodos_reg info claves = Some filas ∧
    f_nodo_id <$> filas = claves ∧
    list_to_map ((λ f, (f_nodo_id f, (f_longitud f, f_latitud f))) <$> filas) = info.
Proof.
  intros Hnd Hdom.
  destruct (nodos_reg_total info claves) as [filas Hf].
  { intros n Hn. rewrite <- Hdom. now apply elem_of_list_to_set. }
  destruct (nodos_reg_filas info claves filas Hf) as [Hid Hall].
  exists filas. split; [exact Hf|]. split; [exact Hid|].
  set (L := (λ f, (f_nodo_id f, (f_longitud f, f_latitud f))) <$> filas).
  assert (HL1 : L.*1 = claves).
  { unfold L. rewrite <- list_fmap_compose. exact Hid. }
  apply map_eq. intros n. rewrite Forall_forall in Hall.
  destruct (decide (n ∈ claves)) as [Hn|Hn].
  - rewrite <- Hid in Hn. apply list_elem_of_fmap in Hn as (f & -> & Hf').
    rewrite (Hall f Hf'). apply elem_of_list_to_map_1; [now rewrite HL1|].
    unfold L. apply list_elem_of_fmap. now exists f.
  - assert (Hnone : info !! n = None).
    { apply not_elem_of_dom. rewrite <- Hdom. now rewrite elem_of_list_to_set. }
    rewrite Hnone. apply not_elem_of_list_to_map_1. now rewrite HL1.
Qed.

Lemma nodos_reg_ida_y_vuelta_witness :
  ∃ filas, nodos_reg (nodos_info grafo_ABC) [3; 1; 2] = Some filas ∧
           f_nodo_id <$> filas = [3; 1; 2].
Proof.
  destruct (nodos_reg_ida_y_vuelta (nodos_info grafo_ABC) [3; 1; 2])
    as (filas & E & Hid & _).
  - apply (bool_decide_unpack _). vm_compute. exact I.
  - vm_compute. reflexivity.
  - exists filas. now split.
Defined.

(** ** The drawing of the edges *)

Section Dibujo.

Lemma paso_dibujo_linea_de (u : Z) (st : list (string * string * string) * gset (Z * Z))
    (e : entrada) :
  paso_dibujo u st e
  = if decide (par_texto (u, e) ∈ st.2) then st
    else (st.1 ++ [linea_de (u, e)], {[par_texto (u, e)]} ∪ st.2).
Proof. destruct e as [[v l] t]. reflexivity. Qed.

Lemma dibujar_aristas_fold (sub_ady : gmap Z (list entrada)) (claves : list Z)
    (st : list (string * string * string) * gset (Z * Z)) :
  (∀ u, u ∈ claves → u ∈ dom sub_ady) →
  dibujar_aristas sub_ady claves st
  = Some (fold_left (λ st ue, paso_dibujo ue.1 st ue.2) (recorrido sub_ady claves) st).
Proof.
  revert st. induction claves as [|u claves IH]; intros st Hd; [reflexivity|].
  cbn [dibujar_aristas]. unfold recorrido. cbn [flat_map]. fold (recorrido sub_ady claves).
  destruct (proj1 (elem_of_dom sub_ady u) (Hd u ltac:(left))) as [l Hl].
  rewrite Hl. cbn [mbind option_bind default].
  rewrite IH by (intros w Hw; apply Hd; now right).
  f_equal. rewrite fold_left_app. f_equal.
  clear. revert st. induction l as [|e l IHl]; intros st; [reflexivity|].
  cbn. apply IHl.
Qed.

Lemma par_nombres_inj (p q : Z * Z) : par_nombres p = par_nombres q → p = q.
Proof.
  destruct p as [a b], q as [c d]. unfold par_nombres, py_str. cbn [fst snd].
  intros [= Ha Hb]. apply pretty_Z_inj in Ha, Hb. now subst.
Qed.

Lemma extremos_linea_de (ue : Z * entrada) :
  extremos (linea_de ue) = par_nombres (par_texto ue).
Proof. reflexivity. Qed.

Lemma par_texto_ordenado (ue : Z * entrada) :
  String.leb (py_str (par_texto ue).1) (py_str (par_texto ue).2) = true.
Proof.
  unfold par_texto.
  destruct (String.leb (py_str ue.1) (py_str ue.2.1.1)) eqn:E; cbn [fst snd]; [exact E|].
  destruct (String.leb_total (py_str ue.1) (py_str ue.2.1.1)) as [H|H]; [congruence|exact H].
Qed.

(** The calls after the entries [R] have been met: one call for the first
    entry of every pair. *)
Lemma fold_dibujo (R : list (Z * entrada)) :
  let st := fold_left (λ st ue, paso_dibujo ue.1 st ue.2) R ([], ∅) in
  st.2 = list_to_set (par_texto <$> R) ∧
  (∃ primeros, st.1 = linea_de <$> primeros ∧
               NoDup (par_texto <$> primeros) ∧
               list_to_set (par_texto <$> primeros) = st.2 ∧
               ∀ ue, ue ∈ primeros →
                     ∃ pre post, R = pre ++ ue :: post ∧
                                 ∀ x, x ∈ pre → par_texto x ≠ par_texto ue).
Proof.
  induction R as [|ue R IH] using rev_ind; cbn zeta.
  - cbn. split; [reflexivity|]. exists []. split; [reflexivity|].
    split; [constructor|]. split; [reflexivity|]. intros ue Hue. inversion Hue.
  - rewrite fold_left_app. cbn [fold_left]. cbn zeta in IH.
    destruct (fold_left _ R ([], ∅)) as [lineas agregado] eqn:Est.
    cbn [fst snd] in IH. destruct IH as (Hv & primeros & Hl & Hnd & Hs & Hsrc).
    rewrite paso_dibujo_linea_de. cbn [fst snd].
    assert (Eue : (ue.1, ue.2) = ue) by now destruct ue. rewrite Eue.
    rewrite fmap_app, list_to_set_app_L. cbn [fmap list_fmap list_to_set].
    rewrite (right_id_L ∅ (∪)), <- Hv.
    destruct (decide (par_texto ue ∈ agregado)) as [Hin|Hnin]; cbn [fst snd].
    + split.
      { apply set_eq. intros x. rewrite elem_of_union, elem_of_singleton.
        split; [auto|]. intros [Hx|Hx]; [assumption|now subst x]. }
      exists primeros. split; [exact Hl|]. split; [exact Hnd|]. split; [exact Hs|].
      intros x Hx. destruct (Hsrc x Hx) as (pre & post & -> & Hpre).
      exists pre, (post ++ [ue]). split; [now rewrite <- app_assoc|]. exact Hpre.
    + split; [apply (comm_L (∪))|].
      exists (primeros ++ [ue]). rewrite !fmap_app. cbn [fmap list_fmap].
      split; [now rewrite Hl|]. split.
      { apply NoDup_app. split; [exact Hnd|]. split; [|apply NoDup_singleton].
        intros p Hp Hp'%list_elem_of_singleton. subst p.
        apply Hnin. rewrite <- Hs. now apply elem_of_list_to_set. }
      split.
      { rewrite list_to_set_app_L. cbn [list_to_set].
        rewrite (right_id_L ∅ (∪)), Hs. apply (comm_L (∪)). }
      intros x [Hx|Hx%list_elem_of_singleton]%elem_of_app; [|subst x].
      * destruct (Hsrc x Hx) as (pre & post & -> & Hpre).
        exists pre, (post ++ [ue]). split; [now rewrite <- app_assoc|]. exact Hpre.
      * exists R, []. split; [reflexivity|].
        intros x Hx Heq. apply Hnin. rewrite Hv, <- Heq.
        apply elem_of_list_to_set, list_elem_of_fmap. now exists x.
Qed.

End Dibujo.

(** X21.  The drawing joins two nodes at most once, whatever the number
    and the direction of the entries between them: every call of [g.edge]
    names its two nodes in the order of their numerals as strings, no two
    calls name the same two nodes, in either order, and every adjacency
    entry has the call of its two nodes.  The label of a call is the
    truncated length of the first entry met between the two nodes. *)
Theorem dibujo_sin_duplicados (sub_ady : gmap Z (list entrada)) (claves : list Z) :
  enumera claves sub_ady →
  ∃ lineas agregado,
    dibujar_aristas sub_ady claves ([], ∅) = Some (lineas, agregado) ∧
    NoDup (extremos <$> lineas) ∧
    (∀ c, c ∈ lineas → String.leb (extremos c).1 (extremos c).2 = true) ∧
    (∀ c c', c ∈ lineas → c' ∈ lineas →
             (extremos c').1 = (extremos c).2 → (extremos c').2 = (extremos c).1 →
             c' = c) ∧
    (∀ u e, (u, e) ∈ recorrido sub_ady claves →
            ∃ c, c ∈ lineas ∧
                 (extremos c = (py_str u, py_str e.1.1) ∨
                  extremos c = (py_str e.1.1, py_str u))) ∧
    (∀ c, c ∈ lineas →
          ∃ pre post ue, recorrido sub_ady claves = pre ++ ue :: post ∧
                         c = linea_de ue ∧
                         ∀ x, x ∈ pre → par_texto x ≠ par_texto ue).
Proof.
  intros Hen.
  assert (Hd : ∀ u, u ∈ claves → u ∈ dom sub_ady)
    by (intros u Hu; now apply (enumera_elem _ _ _ Hen)).
  rewrite (dibujar_aristas_fold sub_ady claves _ Hd).
  pose proof (fold_dibujo (recorrido sub_ady claves)) as HF. cbn zeta in HF.
  destruct (fold_left _ (recorrido sub_ady claves) ([], ∅)) as [lineas agregado].
  cbn [fst snd] in HF. destruct HF as (Hv & primeros & Hl & Hnd & Hs & Hsrc).
  exists lineas, agregado. split; [reflexivity|].
  assert (Hnd' : NoDup (extremos <$> lineas)).
  { rewrite Hl, <- list_fmap_compose.
    assert (E : (extremos ∘ linea_de) <$> primeros = par_nombres <$> (par_texto <$> primeros)).
    { rewrite <- list_fmap_compose. reflexivity. }
    rewrite E. apply NoDup_fmap_2; [|exact Hnd].
    intros p q. apply par_nombres_inj. }
  assert (Hord : ∀ c, c ∈ lineas → String.leb (extremos c).1 (extremos c).2 = true).
  { intros c Hc. rewrite Hl in Hc. apply list_elem_of_fmap in Hc as (ue & -> & _).
    rewrite extremos_linea_de. apply par_texto_ordenado. }
  split; [exact Hnd'|]. split; [exact Hord|]. split; [|split].
  - intros c c' Hc Hc' H1 H2.
    pose proof (Hord c Hc) as Oc. pose proof (Hord c' Hc') as Oc'.
    rewrite H1, H2 in Oc'.
    pose proof (String.leb_antisym _ _ Oc Oc') as Eq.
    assert (Ex : extremos c' = extremos c).
    { rewrite (surjective_pairing (extremos c')), (surjective_pairing (extremos c)).
      rewrite H1, H2. now rewrite Eq. }
    apply list_elem_of_lookup in Hc as [i Hi]. apply list_elem_of_lookup in Hc' as [j Hj].
    assert (i = j).
    { apply (NoDup_lookup _ i j (extremos c) Hnd').
      - now rewrite list_lookup_fmap, Hi.
      - rewrite list_lookup_fmap, Hj. cbn. now rewrite Ex. }
    subst j. congruence.
  - intros u e Hue.
    assert (Hp : par_texto (u, e) ∈ agregado).
    { rewrite Hv. apply elem_of_list_to_set, list_elem_of_fmap. now exists (u, e). }
    rewrite <- Hs in Hp. apply elem_of_list_to_set, list_elem_of_fmap in Hp as (x & Ex & Hx).
    exists (linea_de x). split.
    + rewrite Hl. apply list_elem_of_fmap. now exists x.
    + rewrite extremos_linea_de, <- Ex.
      unfold par_texto. cbn [fst snd].
      destruct (String.leb (py_str u) (py_str e.1.1)); [now left|now right].
  - intros c Hc. rewrite Hl in Hc. apply list_elem_of_fmap in Hc as (ue & -> & Hue).
    destruct (Hsrc ue Hue) as (pre & post & E & Hpre).
    exists pre, post, ue. auto.
Qed.

Lemma dibujo_sin_duplicados_witness :
  ∃ lineas agregado,
    dibujar_aristas (lista_ady grafo_ABC) [1; 2; 3] ([], ∅) = Some (lineas, agregado) ∧
    NoDup (extremos <$> lineas).
Proof.
  destruct (dibujo_sin_duplicados (lista_ady grafo_ABC) [1; 2; 3])
    as (lineas & agregado & E & Hnd & _).
  - apply (bool_decide_unpack _). vm_compute. exact I.
  - exists lineas, agregado. now split.
Defined.

(** Nodes 9 and 10 are joined once, by the call that names 10 first, since
    the numeral of 10 precedes the numeral of 9; the label drops the
    fraction of the length. *)
Example dibujo_orden_de_texto :
  fst <$> dibujar_aristas ady_9_10 [9; 10] ([], ∅) = Some [("10", "9", "50 m")]%string.
Proof. vm_compute. reflexivity. Qed.
